(** * Coalesced collectives of DeepSpeed: a shallow embedding

    This development embeds
    [deepspeed/runtime/comm/coalesced_collectives.py] and settles the
    properties stated about [reduce_scatter_coalesced] and
    [all_to_all_quant_reduce].

    Modelling choices, all visible in the definitions below:
    - tensors are views (storage, offset, numel, dim) into a heap of
      storages, so that [view], slicing, [narrow] and [chunk] alias their
      argument and the in-place operations ([div_], [copy_], the output
      of the collective) are seen through every alias;
    - tensor elements are rationals ([Q]), on which the division and the
      sums of the code are exact.  What is stated about the value of an
      output is the arithmetic expression the code computes, in the order
      in which it divides and adds; dividing before a sum is never
      identified with dividing after it, which holds of exact numbers
      and not of floating-point ones ([Binary64] below has the same two
      operations on IEEE binary64 elements);
    - the integer arithmetic of Python is exact: element counts and
      ranks are [nat], the group-size solver works on [Z];
    - the contents of a buffer obtained from [torch.empty] are whatever the
      allocator hands out: they are read from [uninit], a variable of the
      model;
    - Python exceptions are values of [exn]; a computation is a function
      from the process state to a result;
    - tensors are contiguous and of one dtype on one device, as the
      source requires of its arguments; dtype and device are not
      represented. *)

From Stdlib Require Import ZArith QArith Lia.
From Stdlib Require Floats.
From stdpp Require Import base option list gmap.

(** ** Exceptions, process state and the computation monad *)

(** [OutOfFuel] is not an exception of Python: it is what the embedding
    answers when a [while] loop is cut off by its fuel.  [solve_spec]
    below shows that this never happens with the fuel the embedding
    supplies. *)
Inductive exn : Set :=
| AssertionError
| ZeroDivisionError
| IndexError
| RuntimeError
| OutOfFuel.

Inductive result (A : Type) : Type :=
| Ok (a : A)
| Raise (e : exn).
Arguments Ok {A} a.
Arguments Raise {A} e.

(** The state of one process (one rank): the storages its tensors live in,
    and the module-level global [quantizer_module] of the source file
    ([false] stands for [None], [true] for the loaded extension). *)
Record process : Type := Process {
  heap : list (list Q);
  quantizer_module : bool
}.

Definition set_heap (h : list (list Q)) (σ : process) : process :=
  {| heap := h; quantizer_module := quantizer_module σ |}.

Definition M (A : Type) : Type := process → result (A * process).

Definition ret {A} (a : A) : M A := λ σ, Ok (a, σ).

Definition bind {A B} (c : M A) (k : A → M B) : M B :=
  λ σ, match c σ with
       | Ok (a, σ') => k a σ'
       | Raise e => Raise e
       end.

Definition raise {A} (e : exn) : M A := λ _, Raise e.

Notation "'let*' x ':=' c 'in' k" := (bind c (λ x, k))
  (at level 10, x name, c at level 100, k at level 200,
   format "'[v' 'let*'  x  ':='  c  'in' '/' k ']'").
Notation "c ';;' k" := (bind c (λ _, k))
  (at level 100, k at level 200, right associativity).

(** Python's [assert]. *)
Definition assert (b : bool) : M unit :=
  if b then ret () else raise AssertionError.

(** Indexing a Python list or tuple: [l[i]]. *)
Definition index {A} (l : list A) (i : nat) : M A :=
  match l !! i with
  | Some a => ret a
  | None => raise IndexError
  end.

(** A [for] loop that threads the local variables [b] through its body. *)
Fixpoint foldlM {A B} (body : B → A → M B) (b : B) (l : list A) : M B :=
  match l with
  | [] => ret b
  | a :: l' => let* b' := body b a in foldlM body b' l'
  end.

(** A list comprehension whose element expression may raise. *)
Fixpoint forM {A B} (l : list A) (f : A → M B) : M (list B) :=
  match l with
  | [] => ret []
  | a :: l' => let* b := f a in let* bs := forM l' f in ret (b :: bs)
  end.

(** ** Tensors *)

(** A tensor is a contiguous view into a storage.  [dim] is the number of
    dimensions of its shape; only [tensor.dim() == 1] is ever asked. *)
Record Tensor : Set := mkTensor {
  storage : nat;
  offset : nat;
  numel : nat;
  dim : nat
}.

(** The elements a view denotes in a heap. *)
Definition contents (h : list (list Q)) (t : Tensor) : list Q :=
  take (numel t) (drop (offset t) (default [] (h !! storage t))).

(** Overwriting the elements of a view, in place. *)
Definition store (h : list (list Q)) (t : Tensor) (vs : list Q) : list (list Q) :=
  alter (λ s, take (offset t) s ++ vs ++ drop (offset t + numel t) s)
        (storage t) h.

Definition read (t : Tensor) : M (list Q) :=
  λ σ, Ok (contents (heap σ) t, σ).

Definition write (t : Tensor) (vs : list Q) : M unit :=
  λ σ, Ok ((), set_heap (store (heap σ) t vs) σ).

(** A view is well formed in a heap when it lies within its storage. *)
Definition wf_tensor (h : list (list Q)) (t : Tensor) : Prop :=
  ∃ s, h !! storage t = Some s ∧ offset t + numel t ≤ length s.

(** An element divided by an integer count, exactly
    ([Binary64.div_by] is the same on floating-point elements). *)
Definition div_by (w : nat) (x : Q) : Q := (x / inject_Z (Z.of_nat w))%Q.

Module Torch.

(** [t.view(-1)]: the same elements, seen as one dimension. *)
Definition view_flat (t : Tensor) : Tensor :=
  {| storage := storage t; offset := offset t; numel := numel t; dim := 1 |}.

(** [t[a:b]] on a one-dimensional tensor: Python clamps both bounds to
    the length, and an empty range gives an empty view. *)
Definition slice (t : Tensor) (a b : nat) : Tensor :=
  let lo := a `min` numel t in
  let hi := b `min` numel t in
  {| storage := storage t; offset := offset t + lo; numel := hi - lo; dim := 1 |}.

(** [t.narrow(0, start, length)]: raises when the window leaves [t]. *)
Definition narrow (t : Tensor) (start len : nat) : M Tensor :=
  if decide (start + len ≤ numel t)
  then ret {| storage := storage t; offset := offset t + start;
              numel := len; dim := dim t |}
  else raise RuntimeError.

(** [torch.chunk(t, chunks)] on a one-dimensional tensor: pieces of
    [ceil(numel / chunks)] elements, the last one shorter, fewer than
    [chunks] pieces when the elements run out; an empty tensor gives
    [chunks] empty pieces. *)
Definition chunk (t : Tensor) (chunks : nat) : M (list Tensor) :=
  if decide (chunks = 0) then raise RuntimeError
  else
    let split_size := (numel t + chunks - 1) / chunks in
    if decide (split_size = 0)
    then ret (replicate chunks (slice t 0 0))
    else
      let pieces := (numel t + split_size - 1) / split_size in
      ret ((λ i, slice t (i * split_size) (i * split_size + split_size))
             <$> seq 0 pieces).

Section Allocation.
(** [uninit l i]: the value found at position [i] of the storage that
    becomes location [l], when nothing has been written to it. *)
Variable uninit : nat → nat → Q.

(** [torch.empty(n)]: a fresh storage, not initialised. *)
Definition empty (n : nat) : M Tensor :=
  λ σ, let l := length (heap σ) in
       Ok ({| storage := l; offset := 0; numel := n; dim := 1 |},
           set_heap (heap σ ++ [uninit l <$> seq 0 n]) σ).
End Allocation.

(** A fresh storage holding [vs]: the result of an operation that
    returns a new tensor. *)
Definition fresh (vs : list Q) : M Tensor :=
  λ σ, let l := length (heap σ) in
       Ok ({| storage := l; offset := 0; numel := length vs; dim := 1 |},
           set_heap (heap σ ++ [vs]) σ).

(** [torch.cat(ts)] of one-dimensional tensors: a new tensor; an empty
    list is refused. *)
Definition cat (ts : list Tensor) : M Tensor :=
  match ts with
  | [] => raise RuntimeError
  | _ => let* vss := forM ts read in fresh (concat vss)
  end.

(** [t.div_(w)]: every element of [t] divided by [w], in place. *)
Definition div_ (t : Tensor) (w : nat) : M unit :=
  let* vs := read t in
  write t (div_by w <$> vs).

(** [dst.copy_(src)]: the elements of [src] written over [dst]; the
    sizes must agree. *)
Definition copy_ (dst src : Tensor) : M unit :=
  if decide (numel dst = numel src)
  then let* vs := read src in write dst vs
  else raise RuntimeError.

End Torch.

(** ** The collective transport *)

Module Dist.

(** Elementwise sum of buffers of [n] elements. *)
Definition vsum (n : nat) (bufs : list (list Q)) : list Q :=
  foldr (zip_with Qplus) (replicate n 0%Q) bufs.

(** The shard of rank [rank] in a contribution: [n] contiguous
    elements. *)
Definition shard (n rank : nat) (buf : list Q) : list Q :=
  take n (drop (rank * n) buf).

(** Modelled from the spec: [deepspeed.comm.reduce_scatter_fn], the
    transport's reduce-scatter, is not part of the sources at hand.
    Section 6 of the specification: it sum-reduces [input] and scatters
    equal contiguous shards, one per participant, into [output].
    [peers] holds the input buffer each rank of the group hands to this
    collective call; the entry of the calling rank is the buffer it
    passes itself.  The input must hold one shard per participant. *)
Definition reduce_scatter_fn (peers : list (list Q)) (this_rank : nat)
    (output_tensor input_tensor : Tensor) : M unit :=
  let* mine := read input_tensor in
  let contributions := <[this_rank := mine]> peers in
  if decide (numel input_tensor = length peers * numel output_tensor)
  then write output_tensor
         (vsum (numel output_tensor)
               (shard (numel output_tensor) this_rank <$> contributions))
  else raise RuntimeError.

End Dist.

(** ** Floating-point elements *)

(** The two arithmetic steps between the inputs and an output of
    [reduce_scatter_coalesced], as they act on IEEE binary64 elements
    (tensors of dtype [torch.float64]): the division of line 159 and the
    sum of the collective.  They are [div_by] and [Dist.vsum] with the
    operations of the floating-point unit in place of the exact ones. *)
Module Binary64.
Import Floats.

Definition div_by (w : nat) (x : float) : float :=
  PrimFloat.div x (PrimFloat.of_uint63 (Uint63.of_Z (Z.of_nat w))).

Definition vsum (n : nat) (bufs : list (list float)) : list float :=
  foldr (zip_with PrimFloat.add) (replicate n PrimFloat.zero) bufs.


End Binary64.

(** ** [reduce_scatter_coalesced] *)

Section Collectives.
Variable uninit : nat → nat → Q.

(** [_torch_reduce_scatter_fn]: the arguments are swapped for the
    transport. *)
Definition _torch_reduce_scatter_fn (peers : list (list Q)) (this_rank : nat)
    (input_tensor output_tensor : Tensor) : M unit :=
  Dist.reduce_scatter_fn peers this_rank output_tensor input_tensor.

(** [math.ceil(n / w)] for element counts: the quotient of two
    non-negative integers, rounded up.  (Python divides in floating
    point first; for counts below 2^53 the result is the exact
    ceiling.) *)
Definition ceil_div (n w : nat) : M nat :=
  if decide (w = 0) then raise ZeroDivisionError
  else ret ((n + w - 1) / w).

(** Lines 127-133: the logical partitions of each tensor, one per
    rank, as slices of the flattened tensor. *)
Definition partition_lst (tensors : list Tensor) (world_sz : nat)
  : M (list (list Tensor)) :=
  forM tensors (λ tensor,
    let flattened_tensor := Torch.view_flat tensor in
    let* chunk_sz := ceil_div (numel tensor) world_sz in
    ret ((λ rank, Torch.slice flattened_tensor (rank * chunk_sz)
                               (rank * chunk_sz + chunk_sz))
           <$> seq 0 world_sz)).

(** Line 135. *)
Definition padded_partition_sz (tensors : list Tensor) (world_sz : nat)
  : M (list nat) :=
  forM tensors (λ t, ceil_div (numel t) world_sz).

(** Lines 147-155, the body of the inner loop: the partition of the
    tensor at [tensor_idx] for [rank] is appended, then its padding when
    the partition is shorter than the padded size. *)
Definition append_partition
    (partition_lst_for_each_tensor : list (list Tensor))
    (padded_partition_sz_for_each_tensor : list nat)
    (rank : nat) (tensor_partitions_lst_with_padding : list Tensor)
    (tensor_idx : nat) : M (list Tensor) :=
  let* partitions := index partition_lst_for_each_tensor tensor_idx in
  let* tensor_chunk := index partitions rank in
  let appended := tensor_partitions_lst_with_padding ++ [tensor_chunk] in
  let* padded := index padded_partition_sz_for_each_tensor tensor_idx in
  let padding_sz := padded - numel tensor_chunk in
  if decide (0 < padding_sz)
  then let* padding := Torch.empty uninit padding_sz in
       ret (appended ++ [padding])
  else ret appended.

(** Lines 144-157: the partitions interleaved rank by rank, each
    followed by its padding, then concatenated. *)
Definition interleave (tensors : list Tensor) (world_sz : nat)
    (partition_lst_for_each_tensor : list (list Tensor))
    (padded_partition_sz_for_each_tensor : list nat) : M Tensor :=
  let* tensor_partitions_lst_with_padding :=
    foldlM (λ acc rank,
      foldlM (append_partition partition_lst_for_each_tensor
                padded_partition_sz_for_each_tensor rank)
        acc (seq 0 (length tensors)))
      [] (seq 0 world_sz) in
  Torch.cat tensor_partitions_lst_with_padding.

(** Lines 137-159: the flat buffer handed to the collective, already
    divided by the world size. *)
Definition flat_buffer (tensors : list Tensor) (world_sz : nat)
    (partition_lst_for_each_tensor : list (list Tensor))
    (padded_partition_sz_for_each_tensor : list nat) : M Tensor :=
  let* tensor_partition_flat_buffer :=
    match tensors with
    | [tensor0] =>
        if decide (numel tensor0 `mod` world_sz = 0)
        then ret (Torch.view_flat tensor0)
        else interleave tensors world_sz partition_lst_for_each_tensor
                        padded_partition_sz_for_each_tensor
    | _ => interleave tensors world_sz partition_lst_for_each_tensor
                      padded_partition_sz_for_each_tensor
    end in
  Torch.div_ tensor_partition_flat_buffer world_sz;;
  ret tensor_partition_flat_buffer.

(** Lines 172-175, the body of the last loop: the output for the tensor
    at [tensor_idx] is the window of the reduced shard at [offset], as
    long as this rank's partition; the offset advances by the padded
    size. *)
Definition slice_output (this_rank : nat)
    (partition_lst_for_each_tensor : list (list Tensor))
    (padded_partition_sz_for_each_tensor : list nat)
    (reduced : Tensor) (st : list Tensor * nat) (tensor_idx : nat)
  : M (list Tensor * nat) :=
  let output_lst := st.1 in
  let offset := st.2 in
  let* partitions := index partition_lst_for_each_tensor tensor_idx in
  let* mine := index partitions this_rank in
  let* out := Torch.narrow reduced offset (numel mine) in
  let* padded := index padded_partition_sz_for_each_tensor tensor_idx in
  ret (output_lst ++ [out], offset + padded).

(** Lines 169-176: the slices of the reduced shard, walked with the
    padded sizes. *)
Definition deinterleave (tensors : list Tensor) (this_rank : nat)
    (partition_lst_for_each_tensor : list (list Tensor))
    (padded_partition_sz_for_each_tensor : list nat)
    (reduced : Tensor) : M (list Tensor) :=
  let* walked :=
    foldlM (slice_output this_rank partition_lst_for_each_tensor
              padded_partition_sz_for_each_tensor reduced)
      ([], 0) (seq 0 (length tensors)) in
  ret walked.1.

(** [reduce_scatter_coalesced(tensors, group)] as run by rank
    [this_rank] of a group of [world_sz] ranks; [peers] are the buffers
    the ranks of the group hand to the one collective call. *)
Definition reduce_scatter_coalesced (peers : list (list Q))
    (this_rank world_sz : nat) (tensors : list Tensor) : M (list Tensor) :=
  let* partition_lst_for_each_tensor := partition_lst tensors world_sz in
  let* padded_partition_sz_for_each_tensor :=
    padded_partition_sz tensors world_sz in
  let* tensor_partition_flat_buffer :=
    flat_buffer tensors world_sz partition_lst_for_each_tensor
                padded_partition_sz_for_each_tensor in
  let* tensor_partition_buffer_for_each_rank :=
    Torch.chunk tensor_partition_flat_buffer world_sz in
  let* mine := index tensor_partition_buffer_for_each_rank this_rank in
  _torch_reduce_scatter_fn peers this_rank tensor_partition_flat_buffer mine;;
  deinterleave tensors this_rank partition_lst_for_each_tensor
               padded_partition_sz_for_each_tensor mine.

(** What a rank hands to the collective: the elements of its flat
    buffer after the division (the first half of
    [reduce_scatter_coalesced], up to line 159). *)
Definition contribution (world_sz : nat) (tensors : list Tensor) : M (list Q) :=
  let* partition_lst_for_each_tensor := partition_lst tensors world_sz in
  let* padded_partition_sz_for_each_tensor :=
    padded_partition_sz tensors world_sz in
  let* tensor_partition_flat_buffer :=
    flat_buffer tensors world_sz partition_lst_for_each_tensor
                padded_partition_sz_for_each_tensor in
  read tensor_partition_flat_buffer.

End Collectives.

(** ** Vocabulary of the statements about [reduce_scatter_coalesced] *)

(** [ceil(numel / world_sz)], the padded partition size. *)
Definition chunk_sz (world_sz n : nat) : nat := (n + world_sz - 1) / world_sz.

(** The partition of a tensor for a rank, as a view. *)
Definition part (world_sz : nat) (t : Tensor) (rank : nat) : Tensor :=
  Torch.slice (Torch.view_flat t) (rank * chunk_sz world_sz (numel t))
              (rank * chunk_sz world_sz (numel t) + chunk_sz world_sz (numel t)).

(** [partition_length]: the number of elements of a buffer of [n]
    elements that fall to [rank]; the subtraction of natural numbers stops
    at 0. *)
Definition partition_length (world_sz n rank : nat) : nat :=
  chunk_sz world_sz n `min` (n - rank * chunk_sz world_sz n).

(** The partition of a list of elements for a rank. *)
Definition partition_of (world_sz rank : nat) (xs : list Q) : list Q :=
  take (chunk_sz world_sz (length xs))
       (drop (rank * chunk_sz world_sz (length xs)) xs).

(** The length of the shard each rank receives, and where the partition
    of the tensor at [i] starts in it. *)
Definition shard_length (world_sz : nat) (tensors : list Tensor) : nat :=
  sum_list (chunk_sz world_sz ∘ numel <$> tensors).

Definition shard_offset (world_sz : nat) (tensors : list Tensor) (i : nat) : nat :=
  sum_list (take i (chunk_sz world_sz ∘ numel <$> tensors)).

(** ** The adaptive group-size solver (lines 62-73) *)

Module Solver.
Local Open Scope Z_scope.

Definition max_elems_per_intra_group : Z := 40960.

(** Python's [a / b] on integers: the quotient as a number, not
    rounded to an integer.  (Python computes it in floating point; for
    sizes below 2^53 its comparison with 40960 is that of the exact
    quotient.) *)
Definition true_div (a b : Z) : Q := (inject_Z a / inject_Z b)%Q.

(** [aligned_size / intra_quant_group <= max_elems_per_intra_group] *)
Definition within_limit (aligned_size intra_quant_group : Z) : bool :=
  Qle_bool (true_div aligned_size intra_quant_group)
           (inject_Z max_elems_per_intra_group).

(** Lines 63-67: [while intra_quant_group < aligned_size], leaving
    through [break] or through the loop test. *)
Fixpoint search_loop (fuel : nat)
    (aligned_size global_world_size intra_quant_group : Z) : option Z :=
  match fuel with
  | O => None
  | S fuel' =>
      if intra_quant_group <? aligned_size then
        if (aligned_size mod intra_quant_group =? 0)
           && within_limit aligned_size intra_quant_group
        then Some intra_quant_group
        else search_loop fuel' aligned_size global_world_size
                         (intra_quant_group + global_world_size)
      else Some intra_quant_group
  end.

(** The test of lines 69-70; [x > m] is the negation of [x <= m]. *)
Definition doubling_cond (aligned_size intra_quant_group : Z) : bool :=
  (aligned_size mod (intra_quant_group * 2) =? 0)
  && negb (within_limit aligned_size intra_quant_group).

(** Lines 68-73: [while True], doubling as long as the test holds. *)
Fixpoint doubling_loop (fuel : nat) (aligned_size intra_quant_group : Z)
  : option Z :=
  match fuel with
  | O => None
  | S fuel' =>
      if doubling_cond aligned_size intra_quant_group
      then doubling_loop fuel' aligned_size (intra_quant_group * 2)
      else Some intra_quant_group
  end.

(** Lines 62-73. *)
Definition solve (fuel : nat) (aligned_size global_world_size : Z) : option Z :=
  match search_loop fuel aligned_size global_world_size global_world_size with
  | Some candidate => doubling_loop fuel aligned_size candidate
  | None => None
  end.

(** Fuel the embedding gives the two loops for a buffer of
    [aligned_size] elements. *)
Definition fuel_for (aligned_size : Z) : nat := S (Z.to_nat aligned_size).

End Solver.

(** ** [all_to_all_quant_reduce] *)

(** What the accelerator and the transport report to the calling rank:
    [get_accelerator().device_count()], [dist.get_world_size()] and
    [dist.get_rank()]. *)
Record topology : Set := Topology {
  local_world_size : nat;
  global_world_size : nat;
  this_rank : nat
}.

(** Ghost record of the lookups in [intra_group_cache]: whether the
    aligned size was found (line 60) or the solver was run (lines 62-81),
    and the group size used. *)
Inductive cache_event : Set :=
| CacheHit (aligned_size intra_quant_group : Z)
| CacheMiss (aligned_size intra_quant_group : Z).

Definition event_size (e : cache_event) : Z :=
  match e with CacheHit a _ | CacheMiss a _ => a end.

Definition event_group (e : cache_event) : Z :=
  match e with CacheHit _ g | CacheMiss _ g => g end.

Definition is_hit (e : cache_event) : bool :=
  match e with CacheHit _ _ => true | CacheMiss _ _ => false end.

(** Python's [a // b] and [a % b] on non-negative integers. *)
Definition floor_div (a b : nat) : M nat :=
  if decide (b = 0) then raise ZeroDivisionError else ret (a / b).

Definition modulo (a b : nat) : M nat :=
  if decide (b = 0) then raise ZeroDivisionError else ret (a `mod` b).

(** [a + b] on one-dimensional tensors, with broadcasting of a single
    element. *)
Definition tensor_add (a b : list Q) : M (list Q) :=
  if decide (length a = length b) then ret (zip_with Qplus a b)
  else match a, b with
       | [x], _ => ret (Qplus x <$> b)
       | _, [y] => ret ((λ x, x + y)%Q <$> a)
       | _, _ => raise RuntimeError
       end.

(** The builtin [sum] of a list of tensors: it starts from the integer 0. *)
Definition python_sum (vss : list (list Q)) : M (list Q) :=
  match vss with
  | [] => raise RuntimeError
  | vs :: rest => foldlM tensor_add (Qplus 0 <$> vs) rest
  end.

Section Quantized.
Variable uninit : nat → nat → Q.

(** The collaborators of lines 83-98 are outside the sources at hand:
    the kernels of [quantizer_module] ([swizzle_quant],
    [quantized_reduction], [dequantize]) and [all_to_all_single].
    [quantized_exchange idx topo flat intra inter] stands for the
    elements of [final_output] they produce for the tensor at [idx] from
    the aligned buffer [flat] with the two group sizes; it also depends
    on what the other ranks send, which is why it is a variable.  The
    lookups of the two scopes in [groups] belong to this step; a
    failure of the exchange is not represented. *)
Variable quantized_exchange : nat → topology → list Q → Z → Z → list Q.

(** The buffers the ranks hand to the collective of the plain path,
    for the tensor at each index. *)
Variable peers : nat → list (list Q).

(** Lines 32-34. *)
Definition load_quantizer_module : M unit :=
  λ σ, Ok ((), {| heap := heap σ; quantizer_module := true |}).

(** Lines 54-58: the aligned copy of a tensor; its element count is
    [aligned_size]. *)
Definition align (tensor : Tensor) (world : nat) : M Tensor :=
  let* rem := modulo (numel tensor) world in
  let padding_size := if decide (rem ≠ 0) then world - rem else 0 in
  let aligned_size := numel tensor + padding_size in
  let* flat_tensor := Torch.empty uninit aligned_size in
  let* front := Torch.narrow flat_tensor 0 (numel tensor) in
  Torch.copy_ front (Torch.view_flat tensor);;
  ret flat_tensor.

(** [(sum(list(final_output.chunk(num_nodes))) / num_nodes).view(-1)] *)
Definition mean_of_chunks (final_output : Tensor) (num_nodes : nat) : M Tensor :=
  let* chunks := Torch.chunk final_output num_nodes in
  let* vss := forM chunks read in
  let* total := python_sum vss in
  Torch.fresh (div_by num_nodes <$> total).

(** Lines 59-81: the group size for [aligned_size], from the cache or
    from the solver followed by its three assertions. *)
Definition intra_quant_group_for (intra_group_cache : gmap Z Z)
    (aligned_size : Z) (world : Z) (tensor_numel : Z)
  : M (Z * gmap Z Z * cache_event) :=
  match intra_group_cache !! aligned_size with
  | Some intra_quant_group =>
      ret (intra_quant_group, intra_group_cache,
           CacheHit aligned_size intra_quant_group)
  | None =>
      match Solver.solve (Solver.fuel_for aligned_size) aligned_size world with
      | None => raise OutOfFuel
      | Some intra_quant_group =>
          assert (intra_quant_group `mod` world =? 0)%Z;;
          assert (Solver.within_limit aligned_size intra_quant_group);;
          assert (intra_quant_group <? tensor_numel)%Z;;
          ret (intra_quant_group,
               <[aligned_size := intra_quant_group]> intra_group_cache,
               CacheMiss aligned_size intra_quant_group)
      end
  end.

(** The local variables the loop of line 44 carries from one tensor to
    the next. *)
Record loop_state : Type := LoopState {
  output_lst : list (option Tensor);
  intra_group_cache : gmap Z Z;
  events : list cache_event
}.

(** Lines 45-110: the body of the loop, for the tensor at [idx]. *)
Definition reduce_one (topo : topology) (num_nodes : nat)
    (st : loop_state) (idx : nat) (tensor : Tensor) : M loop_state :=
  let world := global_world_size topo in
  if decide (dim tensor = 1) then
    let* outs := reduce_scatter_coalesced uninit (peers idx)
                   (this_rank topo) world [tensor] in
    let* out := index outs 0 in
    ret {| output_lst := <[idx := Some out]> (output_lst st);
           intra_group_cache := intra_group_cache st;
           events := events st |}
  else
    let* flat_tensor := align tensor world in
    let aligned_size := numel flat_tensor in
    let* solved := intra_quant_group_for (intra_group_cache st)
                     (Z.of_nat aligned_size) (Z.of_nat world)
                     (Z.of_nat (numel tensor)) in
    let intra_quant_group := solved.1.1 in
    let inter_quant_group :=
      (intra_quant_group `div` Z.of_nat (local_world_size topo))%Z in
    let* flat := read flat_tensor in
    let* final_output :=
      Torch.fresh (quantized_exchange idx topo flat intra_quant_group
                                      inter_quant_group) in
    let* partition_size := floor_div aligned_size world in
    let start := partition_size * this_rank topo in
    let end_ := start + partition_size in
    let* outputs :=
      if decide (start < numel tensor ∧ end_ ≤ numel tensor) then
        let* out := mean_of_chunks final_output num_nodes in
        assert (bool_decide (numel out = partition_size));;
        ret (<[idx := Some out]> (output_lst st))
      else if decide (start < numel tensor) then
        let elements_to_copy := numel tensor - start in
        let* mean := mean_of_chunks final_output num_nodes in
        let* out := Torch.narrow mean 0 elements_to_copy in
        assert (bool_decide (this_rank topo = world - 1));;
        ret (<[idx := Some out]> (output_lst st))
      else ret (output_lst st) in
    ret {| output_lst := outputs;
           intra_group_cache := solved.1.2;
           events := events st ++ [solved.2] |}.

(** [for idx, tensor in enumerate(tensors)] *)
Fixpoint reduce_each (topo : topology) (num_nodes : nat) (st : loop_state)
    (idx : nat) (tensors : list Tensor) : M loop_state :=
  match tensors with
  | [] => ret st
  | tensor :: rest =>
      let* st' := reduce_one topo num_nodes st idx tensor in
      reduce_each topo num_nodes st' (S idx) rest
  end.

(** The whole function, with the ghost record of its cache lookups.
    [output_lst] starts as [[None] * len(tensors)] and
    [intra_group_cache] as a new, empty [dict] (line 42). *)
Definition all_to_all_quant_reduce_traced (topo : topology)
    (tensors : list Tensor) : M (list (option Tensor) * list cache_event) :=
  let* loaded := (λ σ, Ok (quantizer_module σ, σ)) in
  (if loaded : bool then ret () else load_quantizer_module);;
  let* num_nodes := floor_div (global_world_size topo) (local_world_size topo) in
  let* intra_idx := floor_div (this_rank topo) (local_world_size topo) in
  let* inter_idx := modulo (this_rank topo) (local_world_size topo) in
  let* st := reduce_each topo num_nodes
               {| output_lst := replicate (length tensors) None;
                  intra_group_cache := ∅;
                  events := [] |}
               0 tensors in
  ret (output_lst st, events st).

Definition all_to_all_quant_reduce (topo : topology) (tensors : list Tensor)
  : M (list (option Tensor)) :=
  let* r := all_to_all_quant_reduce_traced topo tensors in
  ret r.1.

End Quantized.

(** ** Vocabulary of the statements *)

(** A value handed out by the allocator, never written by the program. *)
Definition from_uninit (uninit : nat → nat → Q) (x : Q) : Prop :=
  ∃ l i, x = uninit l i.

(** The block of a tensor for a rank in the interleaved buffer: the
    partition, then filler up to the padded partition size. *)
Definition block_of (uninit : nat → nat → Q) (world_sz : nat)
    (h0 : list (list Q)) (rank : nat) (t : Tensor) (b : list Q) : Prop :=
  ∃ fill, b = contents h0 (part world_sz t rank) ++ fill
          ∧ length b = chunk_sz world_sz (numel t)
          ∧ Forall (from_uninit uninit) fill.

(** The flat buffer of the general path: for each rank in turn, the
    block of each tensor. *)
Definition interleaved (uninit : nat → nat → Q) (world_sz : nat)
    (h0 : list (list Q)) (tensors : list Tensor) (flat : list Q) : Prop :=
  ∃ blockss,
    flat = concat (@concat Q <$> blockss)
    ∧ length blockss = world_sz
    ∧ ∀ rank blocks, blockss !! rank = Some blocks →
                     Forall2 (block_of uninit world_sz h0 rank) tensors blocks.

(** Where the partitions lie in a flat buffer: the partition of the
    tensor at [i] for [rank] starts at [rank] shards plus the offset of
    [i]. *)
Definition layout (world_sz : nat) (h0 : list (list Q))
    (tensors : list Tensor) (flat : list Q) : Prop :=
  length flat = world_sz * shard_length world_sz tensors
  ∧ ∀ rank i t, rank < world_sz → tensors !! i = Some t →
      take (partition_length world_sz (numel t) rank)
           (drop (rank * shard_length world_sz tensors
                  + shard_offset world_sz tensors i) flat)
      = contents h0 (part world_sz t rank).

(** The list of views collected so far denotes [data], in a heap that
    extends [h0]. *)
Definition buffered (h0 : list (list Q)) (acc : list Tensor) (σ : process)
    (data : list Q) : Prop :=
  h0 `prefix_of` heap σ
  ∧ Forall (λ t, storage t < length (heap σ)) acc
  ∧ concat (contents (heap σ) <$> acc) = data.

(** The general path is taken unless there is one tensor and its
    element count is a multiple of the world size. *)
Definition general_path (world_sz : nat) (tensors : list Tensor) : Prop :=
  match tensors with
  | [t0] => numel t0 `mod` world_sz ≠ 0
  | _ => True
  end.

(** The shard of [this_rank] in the flat buffer, and the output for the
    tensor at [i] as a window of that shard. *)
Definition shard_view (this_rank : nat) (buf : Tensor) (n : nat) : Tensor :=
  Torch.slice buf (this_rank * n) (this_rank * n + n).

Definition output_view (world_sz this_rank : nat) (mine : Tensor)
    (tensors : list Tensor) (i : nat) (t : Tensor) : Tensor :=
  {| storage := storage mine;
     offset := offset mine + shard_offset world_sz tensors i;
     numel := partition_length world_sz (numel t) this_rank;
     dim := dim mine |}.

(** The ranks of a group: the process state of each and the tensors it
    passes to the call. *)
Definition input_of (p : process * list Tensor) (i : nat) : list Q :=
  match p.2 !! i with
  | Some t => contents (heap p.1) t
  | None => []
  end.

Definition contribution_of (uninit : nat → nat → Q) (world_sz : nat)
    (p : process * list Tensor) : list Q :=
  match contribution uninit world_sz p.2 p.1 with
  | Ok (b, _) => b
  | Raise _ => []
  end.

(** What the ranks hand to the one collective call of
    [reduce_scatter_coalesced]; [uninits r] is the allocator of rank
    [r]. *)
Definition collective_inputs (uninits : nat → nat → nat → Q)
    (ranks : list (process * list Tensor)) : list (list Q) :=
  imap (λ r p, contribution_of (uninits r) (length ranks) p) ranks.

(** The cache holds the solver's result for exactly the aligned sizes
    looked up so far in this call. *)
Definition cache_inv (world : Z) (cache : gmap Z Z) (evs : list cache_event)
  : Prop :=
  (∀ a g, cache !! a = Some g →
          Solver.solve (Solver.fuel_for a) a world = Some g)
  ∧ (∀ a, is_Some (cache !! a) ↔ a ∈ event_size <$> evs).

(** Every lookup uses the solver's result, and is a hit exactly when an
    earlier lookup of the same call had the same aligned size. *)
Definition trace_ok (world : Z) (evs : list cache_event) : Prop :=
  ∀ k e, evs !! k = Some e →
    Solver.solve (Solver.fuel_for (event_size e)) (event_size e) world
      = Some (event_group e)
    ∧ (is_hit e = true ↔ event_size e ∈ event_size <$> take k evs).

(** The process state once [quantizer_module] is loaded. *)
Definition loaded (σ : process) : process :=
  {| heap := heap σ; quantizer_module := true |}.

(** The aligned size of a buffer of [n] elements (lines 54-56). *)
Definition aligned_size_of (world n : nat) : nat :=
  n + (if decide (n `mod` world ≠ 0) then world - n `mod` world else 0).

(** What the slot of a tensor holds when [all_to_all_quant_reduce]
    returns: a one-dimensional tensor has an output; another tensor has an
    output of [partition_length] elements when the window of this rank
    starts inside the data (a window that runs past the data only on the
    last rank), and [None] otherwise. *)
Definition slot_ok (topo : topology) (t : Tensor) (slot : option Tensor) : Prop :=
  let world := global_world_size topo in
  let partition_size := chunk_sz world (numel t) in
  let start := partition_size * this_rank topo in
  if decide (dim t = 1) then is_Some slot
  else if decide (start < numel t) then
    ∃ out, slot = Some out
           ∧ numel out = partition_length world (numel t) (this_rank topo)
           ∧ (start + partition_size ≤ numel t ∨ this_rank topo = world - 1)
  else slot = None.


(** What rank [r] of a group gets back for the tensor at [i]: the
    elements of output [i] of its call of [reduce_scatter_coalesced]
    (nothing when the call raises). *)
Definition output_of (uninits : nat → nat → nat → Q)
    (ranks : list (process * list Tensor)) (r i : nat) : list Q :=
  match ranks !! r with
  | Some (σr, tr) =>
      match reduce_scatter_coalesced (uninits r)
              (collective_inputs uninits ranks) r (length ranks) tr σr with
      | Ok (outs, σ') =>
          match outs !! i with
          | Some out => contents (heap σ') out
          | None => []
          end
      | Raise _ => []
      end
  | None => []
  end.
(** * Properties *)

(** ** The group-size solver *)

Section SolverFacts.
Local Open Scope Z_scope.
Import Solver.

Lemma inject_Z_pos (g : Z) : 0 < g → (0 < inject_Z g)%Q.
Proof. intros Hg. rewrite (Zlt_Qlt 0 g) in Hg. exact Hg. Qed.

Lemma true_div_cancel (a g : Z) :
  0 < g → (true_div a g * inject_Z g == inject_Z a)%Q.
Proof.
  intros Hg. unfold true_div. field.
  intros E. apply inject_Z_pos in Hg. rewrite E in Hg.
  exact (Qlt_irrefl _ Hg).
Qed.

Lemma true_div_le (a g m : Z) :
  0 < g → (true_div a g <= inject_Z m)%Q ↔ a ≤ m * g.
Proof.
  intros Hg. pose proof (inject_Z_pos g Hg) as Hq.
  rewrite Zle_Qle, inject_Z_mult. split; intros H.
  - rewrite <- (true_div_cancel a g Hg).
    apply Qmult_le_compat_r; [exact H | apply Qlt_le_weak, Hq].
  - apply Qle_shift_div_r; assumption.
Qed.

Lemma true_div_ge (a g m : Z) :
  0 < g → (inject_Z m <= true_div a g)%Q ↔ m * g ≤ a.
Proof.
  intros Hg. pose proof (inject_Z_pos g Hg) as Hq.
  rewrite Zle_Qle, inject_Z_mult. split; intros H.
  - rewrite <- (true_div_cancel a g Hg).
    apply Qmult_le_compat_r; [exact H | apply Qlt_le_weak, Hq].
  - apply Qle_shift_div_l; assumption.
Qed.

Lemma true_div_lt (a g m : Z) :
  0 < g → (true_div a g < inject_Z m)%Q ↔ a < m * g.
Proof.
  intros Hg. split; intros H.
  - apply Z.nle_gt. intros Hle. apply (Qlt_not_le _ _ H).
    apply true_div_ge; assumption.
  - apply Qnot_le_lt. intros Hle. apply (true_div_ge a g m Hg) in Hle. lia.
Qed.

Lemma within_limit_iff (a g : Z) :
  0 < g → within_limit a g = true ↔ a ≤ max_elems_per_intra_group * g.
Proof.
  intros Hg. unfold within_limit. rewrite Qle_bool_iff.
  apply true_div_le, Hg.
Qed.

(** More fuel does not change what a loop returns. *)
Lemma search_loop_mono (n m : nat) (a w g r : Z) :
  search_loop n a w g = Some r → (n ≤ m)%nat → search_loop m a w g = Some r.
Proof.
  revert m g. induction n as [| n IH]; intros m g H Hle; [discriminate |].
  destruct m as [| m]; [lia |]. simpl in *.
  destruct (g <? a); [| exact H].
  destruct ((a mod g =? 0) && within_limit a g); [exact H |].
  apply IH; [exact H | lia].
Qed.

Lemma doubling_loop_mono (n m : nat) (a g r : Z) :
  doubling_loop n a g = Some r → (n ≤ m)%nat → doubling_loop m a g = Some r.
Proof.
  revert m g. induction n as [| n IH]; intros m g H Hle; [discriminate |].
  destruct m as [| m]; [lia |]. simpl in *.
  destruct (doubling_cond a g); [| exact H].
  apply IH; [exact H | lia].
Qed.

(** Multiples of [w] that differ are at least [w] apart. *)
Lemma next_multiple_le (a w g : Z) :
  0 < w → a mod w = 0 → g mod w = 0 → g < a → g + w ≤ a.
Proof.
  intros Hw Ha Hg Hlt.
  apply Z.mod_divide in Ha; [| lia]. apply Z.mod_divide in Hg; [| lia].
  destruct Ha as [x ->], Hg as [y ->].
  assert (y < x) by nia. assert ((y + 1) * w ≤ x * w) by (apply Z.mul_le_mono_nonneg_r; lia).
  lia.
Qed.

(** What the search loop returns, whatever way it is left. *)
Lemma search_loop_result (n : nat) (a w g r : Z) :
  0 < w → 0 < g → a mod w = 0 → g mod w = 0 → a = 0 ∨ g ≤ a →
  search_loop n a w g = Some r →
  g ≤ r ∧ r mod w = 0 ∧ a mod r = 0 ∧ within_limit a r = true.
Proof.
  intros Hw. revert g. induction n as [| n IH]; intros g Hg Ha Hgw Hrange H;
    [discriminate |].
  simpl in H. destruct (Z.ltb_spec g a) as [Hlt | Hge].
  - destruct ((a mod g =? 0) && within_limit a g) eqn:Hb.
    + apply andb_true_iff in Hb as [Hmod Hlim].
      injection H as <-. apply Z.eqb_eq in Hmod. repeat split; auto; lia.
    + destruct (IH (g + w)) as (? & ? & ? & ?); try assumption; try lia.
      * rewrite Z.add_mod, Hgw, Z.mod_same by lia. reflexivity.
      * right. apply next_multiple_le; assumption.
      * repeat split; try assumption; lia.
  - injection H as <-. split; [lia |]. split; [exact Hgw |].
    destruct Hrange as [-> | Hle].
    + split; [apply Z.mod_0_l; lia |]. apply within_limit_iff; [lia |].
      unfold max_elems_per_intra_group. lia.
    + assert (g = a) as -> by lia.
      split; [apply Z.mod_same; lia |]. apply within_limit_iff; [lia |].
      unfold max_elems_per_intra_group. lia.
Qed.

(** The search loop is left before the fuel of the embedding runs
    out. *)
Lemma search_loop_total (n : nat) (a w g : Z) :
  0 < w → 0 < g → (Z.to_nat (a - g) < n)%nat →
  ∃ r, search_loop n a w g = Some r.
Proof.
  intros Hw. revert g. induction n as [| n IH]; intros g Hg Hn; [lia |].
  simpl. destruct (Z.ltb_spec g a) as [Hlt | Hge]; [| eauto].
  destruct ((a mod g =? 0) && within_limit a g); [eauto |].
  apply IH; lia.
Qed.

Lemma positive_multiple_ge (a w : Z) :
  0 < w → 0 < a → a mod w = 0 → w ≤ a.
Proof.
  intros Hw Ha Hmod.
  apply Z.mod_divide in Hmod; [| lia]. destruct Hmod as [x ->].
  assert (1 ≤ x).
  { destruct (Z_lt_le_dec x 1) as [Hx |]; [exfalso | lia].
    assert (x * w ≤ 0) by (apply Z.mul_nonpos_nonneg; lia). lia. }
  assert (1 * w ≤ x * w) by (apply Z.mul_le_mono_nonneg_r; lia). lia.
Qed.

(** The candidate the search loop hands on is within the ceiling. *)
Lemma candidate_within_limit (fuel : nat) (a w g : Z) :
  0 < w → 0 < a → a mod w = 0 →
  search_loop fuel a w w = Some g → within_limit a g = true.
Proof.
  intros Hw Ha Hmod Hsearch.
  destruct (search_loop_result fuel a w w g) as (_ & _ & _ & Hlim);
    try assumption.
  - apply Z.mod_same. lia.
  - right. apply positive_multiple_ge; assumption.
Qed.

Lemma doubling_cond_within (a g : Z) :
  within_limit a g = true → doubling_cond a g = false.
Proof. intros H. unfold doubling_cond. rewrite H. apply andb_false_r. Qed.

(** The solver, on an aligned size: a result exists, it is the
    candidate of the search loop, and it meets the invariants. *)
Lemma solve_spec (a w : Z) :
  0 < w → 0 ≤ a → a mod w = 0 →
  ∃ g, (∀ fuel, (Z.to_nat a < fuel)%nat → solve fuel a w = Some g)
       ∧ 0 < g ∧ g mod w = 0 ∧ a mod g = 0 ∧ within_limit a g = true.
Proof.
  intros Hw Ha Hmod.
  destruct (search_loop_total (S (Z.to_nat a)) a w w) as [g Hg];
    [lia | lia | lia |].
  assert (Hrange : a = 0 ∨ w ≤ a).
  { destruct (Z.eq_dec a 0) as [| Hne]; [auto | right].
    apply positive_multiple_ge; [assumption | lia | assumption]. }
  destruct (search_loop_result _ _ _ _ _ Hw Hw Hmod (Z.mod_same w ltac:(lia))
              Hrange Hg) as (Hle & Hgw & Hag & Hlim).
  exists g. split; [| repeat split; try assumption; lia].
  intros fuel Hfuel. unfold solve.
  rewrite (search_loop_mono _ fuel _ _ _ _ Hg) by lia.
  destruct fuel as [| fuel]; [lia |]. simpl.
  rewrite (doubling_cond_within _ _ Hlim). reflexivity.
Qed.

End SolverFacts.

(** ** The checks after the solver (lines 74-81) *)

Section CheckFacts.
Local Open Scope Z_scope.

(** On a cache miss the outcome is decided by [numel > g] alone: the
    first two assertions always hold for the solver's result. *)
Lemma intra_quant_group_for_miss (cache : gmap Z Z) (a w n g : Z) (σ : process) :
  cache !! a = None →
  Solver.solve (Solver.fuel_for a) a w = Some g →
  g mod w = 0 → Solver.within_limit a g = true →
  intra_quant_group_for cache a w n σ
  = if g <? n then Ok ((g, <[a := g]> cache, CacheMiss a g), σ)
    else Raise AssertionError.
Proof.
  intros Hc Hs Hgw Hlim. unfold intra_quant_group_for.
  rewrite Hc, Hs. unfold bind, assert.
  apply Z.eqb_eq in Hgw. rewrite Hgw, Hlim. unfold ret, raise.
  destruct (g <? n); reflexivity.
Qed.

Lemma intra_quant_group_for_hit (cache : gmap Z Z) (a w n g : Z) (σ : process) :
  cache !! a = Some g →
  intra_quant_group_for cache a w n σ = Ok ((g, cache, CacheHit a g), σ).
Proof. intros Hc. unfold intra_quant_group_for. rewrite Hc. reflexivity. Qed.

End CheckFacts.

(** ** The cache of group sizes *)

Lemma bind_inv {A B} (c : M A) (k : A → M B) (σ : process) (r : B * process) :
  bind c k σ = Ok r → ∃ a σ', c σ = Ok (a, σ') ∧ k a σ' = Ok r.
Proof.
  unfold bind. destruct (c σ) as [[a σ'] | e]; [eauto | discriminate].
Qed.

Lemma ret_inv {A} (a : A) (σ : process) (r : A * process) :
  ret a σ = Ok r → r = (a, σ).
Proof. unfold ret. congruence. Qed.

Ltac inv_bind H :=
  let a := fresh "a" in
  let σ := fresh "σ" in
  let H1 := fresh "Hrun" in
  apply bind_inv in H as (a & σ & H1 & H).

Section CacheFacts.
Variable uninit : nat → nat → Q.
Variable quantized_exchange : nat → topology → list Q → Z → Z → list Q.
Variable peers : nat → list (list Q).

Lemma intra_quant_group_for_inv (cache : gmap Z Z) (a w n : Z)
    (σ σ' : process) (g : Z) (cache' : gmap Z Z) (e : cache_event) :
  intra_quant_group_for cache a w n σ = Ok ((g, cache', e), σ') →
  (cache !! a = Some g ∧ cache' = cache ∧ e = CacheHit a g)
  ∨ (cache !! a = None ∧ Solver.solve (Solver.fuel_for a) a w = Some g
     ∧ cache' = <[a := g]> cache ∧ e = CacheMiss a g).
Proof.
  unfold intra_quant_group_for. destruct (cache !! a) as [g0 |] eqn:Hc.
  - intros H. apply ret_inv in H. injection H as -> -> -> ->. auto.
  - destruct (Solver.solve _ a w) as [g0 |] eqn:Hs; [| discriminate].
    intros H. do 3 inv_bind H. apply ret_inv in H.
    injection H as -> -> -> ->. right. auto.
Qed.

Lemma lookup_step (w : Z) (cache cache' : gmap Z Z) (evs : list cache_event)
    (a n g : Z) (e : cache_event) (σ σ' : process) :
  cache_inv w cache evs → trace_ok w evs →
  intra_quant_group_for cache a w n σ = Ok ((g, cache', e), σ') →
  cache_inv w cache' (evs ++ [e]) ∧ trace_ok w (evs ++ [e]).
Proof.
  intros [Hval Hdom] Htr Hrun.
  assert (Hsize : event_size e = a ∧ event_group e = g
                  ∧ Solver.solve (Solver.fuel_for a) a w = Some g
                  ∧ (is_hit e = true ↔ a ∈ event_size <$> evs)
                  ∧ cache' = <[a := g]> cache).
  { apply intra_quant_group_for_inv in Hrun as [(Hc & -> & ->) | (Hc & Hs & -> & ->)].
    - repeat split; simpl; auto.
      + intros _. apply Hdom. eauto.
      + symmetry. apply insert_id. exact Hc.
    - repeat split; simpl; auto; [discriminate |].
      intros Hin. apply Hdom in Hin. rewrite Hc in Hin.
      destruct Hin; discriminate. }
  destruct Hsize as (Hsz & Hgr & Hs & Hhit & ->). split.
  - split.
    + intros a' g'. rewrite lookup_insert. case_decide as Heq.
      * intros [= <-]. subst a'. exact Hs.
      * apply Hval.
    + intros a'. rewrite fmap_app, elem_of_app. simpl.
      rewrite list_elem_of_singleton, Hsz, <- Hdom, lookup_insert.
      case_decide as Heq.
      * subst a'. split; [auto | eauto].
      * split; [auto | intros [? | ?]; [assumption | congruence]].
  - intros k e' Hk.
    destruct (decide (k < length evs)) as [Hlt | Hge].
    + rewrite lookup_app_l in Hk by exact Hlt.
      rewrite take_app_le by lia. apply Htr, Hk.
    + rewrite lookup_app_r in Hk by lia.
      destruct (k - length evs) as [| k'] eqn:Hk'; [| destruct k'; discriminate].
      injection Hk as <-. assert (k = length evs) as -> by lia.
      rewrite take_app_length, Hsz, Hgr. auto.
Qed.

Lemma reduce_one_trace (topo : topology) (num_nodes : nat)
    (st st' : loop_state) (idx : nat) (tensor : Tensor) (σ σ' : process) :
  let w := Z.of_nat (global_world_size topo) in
  cache_inv w (intra_group_cache st) (events st) → trace_ok w (events st) →
  reduce_one uninit quantized_exchange peers topo num_nodes st idx tensor σ
    = Ok (st', σ') →
  cache_inv w (intra_group_cache st') (events st')
  ∧ trace_ok w (events st').
Proof.
  intros w Hinv Htr H. unfold reduce_one in H.
  destruct (decide (dim tensor = 1)).
  - do 2 inv_bind H. apply ret_inv in H. injection H as ? ?; subst. auto.
  - do 6 inv_bind H. apply ret_inv in H. injection H as ? ?; subst. simpl.
    destruct a0 as [[g cache'] e]. simpl.
    eapply lookup_step; eauto.
Qed.

Lemma reduce_each_trace (topo : topology) (num_nodes : nat)
    (tensors : list Tensor) (st st' : loop_state) (idx : nat)
    (σ σ' : process) :
  let w := Z.of_nat (global_world_size topo) in
  cache_inv w (intra_group_cache st) (events st) → trace_ok w (events st) →
  reduce_each uninit quantized_exchange peers topo num_nodes st idx tensors σ
    = Ok (st', σ') →
  trace_ok w (events st').
Proof.
  intros w. revert st idx σ.
  induction tensors as [| tensor rest IH]; intros st idx σ Hinv Htr H; simpl in H.
  - apply ret_inv in H. injection H as ? ?; subst. exact Htr.
  - inv_bind H.
    destruct (reduce_one_trace _ _ _ _ _ _ _ _ Hinv Htr Hrun) as [Hinv' Htr'].
    eapply IH; eauto.
Qed.

(** A call that returns leaves a trace that starts from an empty
    cache. *)
Lemma traced_call_trace (topo : topology) (tensors : list Tensor)
    (σ σ' : process) (outs : list (option Tensor)) (evs : list cache_event) :
  all_to_all_quant_reduce_traced uninit quantized_exchange peers topo tensors σ
    = Ok ((outs, evs), σ') →
  trace_ok (Z.of_nat (global_world_size topo)) evs.
Proof.
  intros H. unfold all_to_all_quant_reduce_traced in H.
  do 6 inv_bind H. apply ret_inv in H. injection H as ? ? ?; subst.
  eapply reduce_each_trace; [| | exact Hrun4].
  - split; simpl.
    + intros a' g'. rewrite lookup_empty. discriminate.
    + intros a'. rewrite lookup_empty. split; [intros []; discriminate |].
      intros Hin. apply elem_of_nil in Hin. destruct Hin.
  - intros k e Hk. simpl in Hk. rewrite lookup_nil in Hk. discriminate.
Qed.

End CacheFacts.

(** ** Views and the heap *)

Section HeapFacts.
Implicit Types (h : list (list Q)) (t o : Tensor) (vs : list Q).

Lemma heap_set_heap h (σ : process) : heap (set_heap h σ) = h.
Proof. reflexivity. Qed.

Lemma length_contents h t : wf_tensor h t → length (contents h t) = numel t.
Proof.
  intros (s & Hs & Hlen). unfold contents. rewrite Hs. simpl.
  rewrite length_take, length_drop. lia.
Qed.

Lemma wf_tensor_valid h t : wf_tensor h t → storage t < length h.
Proof. intros (s & Hs & _). eapply lookup_lt_Some, Hs. Qed.

Lemma contents_prefix h h' t :
  h `prefix_of` h' → storage t < length h → contents h' t = contents h t.
Proof.
  intros [e ->] Hlt. unfold contents. rewrite lookup_app_l by exact Hlt.
  reflexivity.
Qed.

Lemma wf_tensor_prefix h h' t :
  h `prefix_of` h' → wf_tensor h t → wf_tensor h' t.
Proof.
  intros [e ->] (s & Hs & Hlen). exists s. split; [| exact Hlen].
  rewrite lookup_app_l; [exact Hs | eapply lookup_lt_Some, Hs].
Qed.

Lemma contents_view_flat h t : contents h (Torch.view_flat t) = contents h t.
Proof. reflexivity. Qed.

Lemma wf_view_flat h t : wf_tensor h t → wf_tensor h (Torch.view_flat t).
Proof. intros H. exact H. Qed.

(** A slice denotes the corresponding stretch of the elements. *)
Lemma contents_slice h t a b :
  wf_tensor h t →
  contents h (Torch.slice t a b)
  = take (b `min` numel t - a `min` numel t)
         (drop (a `min` numel t) (contents h t)).
Proof.
  intros (s & Hs & Hlen). unfold contents, Torch.slice. simpl. rewrite Hs. simpl.
  set (n := numel t). set (lo := a `min` n). set (hi := b `min` n).
  assert (Hlo : lo ≤ n) by lia.
  replace (take n (drop (offset t) s)) with
    (take lo (drop (offset t) s) ++ take (n - lo) (drop (offset t + lo) s)).
  - rewrite drop_app_length'; [| rewrite length_take, length_drop; lia].
    rewrite take_take. f_equal. lia.
  - rewrite <- (take_drop lo (take n (drop (offset t) s))) at 1.
    rewrite take_take, (Nat.min_l lo n Hlo). f_equal.
    rewrite <- drop_drop. rewrite (take_drop_commute _ (n - lo) lo).
    replace (lo + (n - lo)) with n by lia. reflexivity.
Qed.

Lemma wf_slice h t a b : wf_tensor h t → wf_tensor h (Torch.slice t a b).
Proof.
  intros (s & Hs & Hlen). exists s. split; [exact Hs |]. simpl. lia.
Qed.

Lemma store_lookup h t vs s :
  h !! storage t = Some s →
  store h t vs !! storage t
  = Some (take (offset t) s ++ vs ++ drop (offset t + numel t) s).
Proof.
  intros Hs. unfold store. rewrite list_lookup_alter, decide_True by reflexivity.
  rewrite Hs. reflexivity.
Qed.

Lemma store_lookup_ne h t vs l :
  l ≠ storage t → store h t vs !! l = h !! l.
Proof. intros Hne. unfold store. apply list_lookup_alter_ne. congruence. Qed.

Lemma length_store h t vs : length (store h t vs) = length h.
Proof. apply length_alter. Qed.

Lemma contents_store_ne h t vs o :
  storage o ≠ storage t → contents (store h t vs) o = contents h o.
Proof.
  intros Hne. unfold contents. rewrite store_lookup_ne by exact Hne.
  reflexivity.
Qed.

Lemma wf_store h t vs o :
  wf_tensor h t → length vs = numel t → wf_tensor h o →
  wf_tensor (store h t vs) o.
Proof.
  intros (s & Hs & Hlen) Hvs (s' & Hs' & Hlen').
  destruct (decide (storage o = storage t)) as [Heq | Hne].
  - eexists. split; [rewrite Heq; apply store_lookup, Hs |].
    rewrite Heq in Hs'. assert (s' = s) as -> by congruence.
    rewrite !length_app, length_take, length_drop. lia.
  - exists s'. split; [| exact Hlen']. rewrite store_lookup_ne; assumption.
Qed.

(** Reading a window of a view that has just been written. *)
Lemma contents_store_window h t vs o a :
  wf_tensor h t → length vs = numel t →
  storage o = storage t → offset o = offset t + a → a + numel o ≤ numel t →
  contents (store h t vs) o = take (numel o) (drop a vs).
Proof.
  intros (s & Hs & Hlen) Hvs Hst Hoff Hin. unfold contents.
  rewrite Hst, (store_lookup _ _ _ _ Hs), Hoff. simpl.
  rewrite <- drop_drop, drop_app_length'
    by (rewrite length_take; lia).
  rewrite drop_app_le by lia. rewrite take_app_le; [reflexivity |].
  rewrite length_drop. lia.
Qed.

Lemma split_window (s : list Q) (off a m n : nat) :
  off + n ≤ length s → a + m ≤ n →
  ∃ pre x1 x2 x3 post,
    s = pre ++ x1 ++ x2 ++ x3 ++ post
    ∧ length pre = off ∧ length x1 = a ∧ length x2 = m
    ∧ length x3 = n - a - m.
Proof.
  intros Hlen Hin.
  exists (take off s), (take a (drop off s)), (take m (drop (off + a) s)),
    (take (n - a - m) (drop (off + a + m) s)), (drop (off + n) s).
  rewrite !length_take, !length_drop.
  split; [| lia].
  rewrite <- (take_drop off s) at 1. f_equal.
  rewrite <- (take_drop a (drop off s)) at 1. f_equal.
  rewrite drop_drop.
  rewrite <- (take_drop m (drop (off + a) s)) at 1. f_equal.
  rewrite drop_drop.
  rewrite <- (take_drop (n - a - m) (drop (off + a + m) s)) at 1. f_equal.
  rewrite drop_drop. f_equal. lia.
Qed.

(** Reading a view after one of its windows has been written. *)
Lemma contents_store_around h t vs o a :
  wf_tensor h t → length vs = numel o →
  storage o = storage t → offset o = offset t + a → a + numel o ≤ numel t →
  contents (store h o vs) t
  = take a (contents h t) ++ vs ++ drop (a + numel o) (contents h t).
Proof.
  intros (s & Hs & Hlen) Hvs Hst Hoff Hin. unfold contents.
  rewrite <- Hst. rewrite (store_lookup h o vs s) by (rewrite Hst; exact Hs).
  rewrite Hst, Hs. simpl. rewrite Hoff.
  destruct (split_window s (offset t) a (numel o) (numel t) Hlen Hin)
    as (pre & x1 & x2 & x3 & post & -> & Hpre & Hx1 & Hx2 & Hx3).
  rewrite (drop_app_length' pre _ (offset t)) by lia.
  replace (take (numel t) (x1 ++ x2 ++ x3 ++ post)) with (x1 ++ x2 ++ x3).
  2:{ rewrite !app_assoc. symmetry. apply take_app_length'.
      rewrite !length_app. lia. }
  rewrite (take_app_length' x1 _ a) by lia.
  rewrite (app_assoc x1 x2 x3), (drop_app_length' (x1 ++ x2) x3) by (rewrite length_app; lia).
  rewrite (app_assoc pre x1), (take_app_length' (pre ++ x1)) by (rewrite length_app; lia).
  replace (drop (offset t + a + numel o) ((pre ++ x1) ++ x2 ++ x3 ++ post))
    with (x3 ++ post).
  2:{ rewrite (app_assoc (pre ++ x1) x2). symmetry. apply drop_app_length'.
      rewrite !length_app. lia. }
  rewrite <- !app_assoc. rewrite (drop_app_length' pre _ (offset t)) by lia.
  rewrite (app_assoc x1 vs), (app_assoc (x1 ++ vs) x3).
  rewrite take_app_length'; [rewrite <- app_assoc; reflexivity |].
  rewrite !length_app. lia.
Qed.

End HeapFacts.

(** ** Lists of blocks *)

Section Blocks.
Context {A : Type}.
Implicit Types (l : list A) (ls : list (list A)).

(** Skipping the first [i] blocks of a concatenation. *)
Lemma drop_concat_sized (ns : list nat) ls i l :
  Forall2 (λ n l, length l = n) ns ls → ls !! i = Some l →
  drop (sum_list (take i ns)) (concat ls) = l ++ concat (drop (S i) ls).
Proof.
  intros Hall. revert i. induction Hall as [| n l0 ns ls Hn Hall IH]; intros i Hi.
  - rewrite lookup_nil in Hi. discriminate.
  - destruct i as [| i]; simpl in *.
    + injection Hi as ->. rewrite drop_0. reflexivity.
    + rewrite <- Hn, drop_app_add. apply IH, Hi.
Qed.

Lemma length_concat_sized (ns : list nat) ls :
  Forall2 (λ n l, length l = n) ns ls → length (concat ls) = sum_list ns.
Proof.
  induction 1 as [| n l0 ns ls Hn Hall IH]; [reflexivity |].
  simpl. rewrite length_app, IH, Hn. reflexivity.
Qed.

Lemma sized_uniform (n : nat) ls :
  Forall (λ l, length l = n) ls →
  Forall2 (λ n l, length l = n) (replicate (length ls) n) ls.
Proof. induction 1; simpl; constructor; assumption. Qed.

Lemma sum_list_replicate (k n : nat) : sum_list (replicate k n) = k * n.
Proof. induction k as [| k IH]; simpl; [reflexivity | rewrite IH; lia]. Qed.

(** The same when all blocks have the same length. *)
Lemma drop_concat_uniform (n : nat) ls k l :
  Forall (λ l, length l = n) ls → ls !! k = Some l →
  drop (k * n) (concat ls) = l ++ concat (drop (S k) ls).
Proof.
  intros Hall Hk.
  rewrite <- (drop_concat_sized _ _ _ _ (sized_uniform n ls Hall) Hk).
  f_equal. rewrite take_replicate, sum_list_replicate.
  apply lookup_lt_Some in Hk. f_equal. lia.
Qed.

Lemma length_concat_uniform (n : nat) ls :
  Forall (λ l, length l = n) ls → length (concat ls) = length ls * n.
Proof.
  intros Hall. rewrite (length_concat_sized _ _ (sized_uniform n ls Hall)).
  apply sum_list_replicate.
Qed.

End Blocks.

(** ** Running the first half of [reduce_scatter_coalesced] *)

Lemma bind_ok {A B} (c : M A) (k : A → M B) (σ σ' : process) (a : A) :
  c σ = Ok (a, σ') → bind c k σ = k a σ'.
Proof. intros H. unfold bind. rewrite H. reflexivity. Qed.

Lemma forM_pure {A B} (l : list A) (f : A → M B) (g : A → B) (σ : process) :
  (∀ a, a ∈ l → f a σ = Ok (g a, σ)) → forM l f σ = Ok (g <$> l, σ).
Proof.
  induction l as [| a l IH]; intros Hf; [reflexivity |]. simpl.
  rewrite (bind_ok _ _ _ _ _ (Hf a (list_elem_of_here _ _))).
  rewrite (bind_ok _ _ _ _ _ (IH (λ b Hb, Hf b (list_elem_of_further _ _ _ Hb)))).
  reflexivity.
Qed.

Lemma index_ok {A} (l : list A) (i : nat) (a : A) (σ : process) :
  l !! i = Some a → index l i σ = Ok (a, σ).
Proof. intros H. unfold index. rewrite H. reflexivity. Qed.

Section FlatBuffer.
Variable uninit : nat → nat → Q.
Variable world_sz : nat.
Hypothesis world_pos : 0 < world_sz.

Lemma ceil_div_ok (n : nat) (σ : process) :
  ceil_div n world_sz σ = Ok (chunk_sz world_sz n, σ).
Proof. unfold ceil_div. rewrite decide_False by lia. reflexivity. Qed.

Lemma partition_lst_ok (tensors : list Tensor) (σ : process) :
  partition_lst tensors world_sz σ
  = Ok ((λ t, part world_sz t <$> seq 0 world_sz) <$> tensors, σ).
Proof.
  unfold partition_lst. apply forM_pure. intros t _.
  rewrite (bind_ok _ _ _ _ _ (ceil_div_ok _ _)). reflexivity.
Qed.

Lemma padded_partition_sz_ok (tensors : list Tensor) (σ : process) :
  padded_partition_sz tensors world_sz σ
  = Ok ((λ t, chunk_sz world_sz (numel t)) <$> tensors, σ).
Proof.
  unfold padded_partition_sz. apply forM_pure. intros t _.
  apply ceil_div_ok.
Qed.

Lemma numel_part (t : Tensor) (rank : nat) :
  numel (part world_sz t rank) = partition_length world_sz (numel t) rank.
Proof. unfold part, partition_length. simpl. lia. Qed.

Lemma partition_length_le (n rank : nat) :
  partition_length world_sz n rank ≤ chunk_sz world_sz n.
Proof. unfold partition_length. lia. Qed.

Lemma contents_part (h : list (list Q)) (t : Tensor) (rank : nat) :
  wf_tensor h t →
  contents h (part world_sz t rank)
  = partition_of world_sz rank (contents h t).
Proof.
  intros Hwf. unfold part, partition_of.
  rewrite contents_slice by (apply wf_view_flat, Hwf).
  rewrite contents_view_flat, (length_contents _ _ Hwf). simpl.
  set (c := chunk_sz world_sz (numel t)). set (x := contents h t).
  assert (Hx : length x = numel t) by apply length_contents, Hwf.
  destruct (decide (rank * c ≤ numel t)) as [Hle | Hgt].
  - rewrite (Nat.min_l (rank * c)) by lia.
    rewrite <- (take_ge (drop (rank * c) x) (numel t - rank * c))
      by (rewrite length_drop; lia).
    rewrite !take_take. f_equal. lia.
  - rewrite (Nat.min_r (rank * c)) by lia.
    rewrite !drop_ge by lia. rewrite !take_nil. reflexivity.
Qed.

(** The body of the inner loop. *)
Lemma append_partition_ok (tensors : list Tensor) (rank idx : nat)
    (t : Tensor) (acc : list Tensor) (σ : process) :
  tensors !! idx = Some t → rank < world_sz →
  append_partition uninit
    ((λ t, part world_sz t <$> seq 0 world_sz) <$> tensors)
    ((λ t, chunk_sz world_sz (numel t)) <$> tensors) rank acc idx σ
  = let p := part world_sz t rank in
    let padding_sz := chunk_sz world_sz (numel t) - numel p in
    if decide (0 < padding_sz)
    then Ok (acc ++ [p] ++ [mkTensor (length (heap σ)) 0 padding_sz 1],
             set_heap (heap σ ++ [uninit (length (heap σ)) <$> seq 0 padding_sz]) σ)
    else Ok (acc ++ [p], σ).
Proof.
  intros Ht Hrank. unfold append_partition.
  assert (H1 : ((λ t, part world_sz t <$> seq 0 world_sz) <$> tensors) !! idx
               = Some (part world_sz t <$> seq 0 world_sz))
    by (rewrite list_lookup_fmap, Ht; reflexivity).
  assert (H2 : (part world_sz t <$> seq 0 world_sz) !! rank
               = Some (part world_sz t rank))
    by (rewrite list_lookup_fmap, lookup_seq_lt by lia; reflexivity).
  assert (H3 : ((λ t, chunk_sz world_sz (numel t)) <$> tensors) !! idx = Some (chunk_sz world_sz (numel t)))
    by (rewrite list_lookup_fmap, Ht; reflexivity).
  rewrite (bind_ok _ _ _ _ _ (index_ok _ _ _ σ H1)).
  rewrite (bind_ok _ _ _ _ _ (index_ok _ _ _ σ H2)).
  rewrite (bind_ok _ _ _ _ _ (index_ok _ _ _ σ H3)).
  cbv zeta. destruct (decide (0 < chunk_sz world_sz (numel t) - numel (part world_sz t rank)));
    [| reflexivity].
  unfold bind, Torch.empty, ret. rewrite <- app_assoc. reflexivity.
Qed.

Lemma buffered_snoc (h0 : list (list Q)) (acc : list Tensor) (σ : process)
    (data : list Q) (p : Tensor) :
  buffered h0 acc σ data → wf_tensor h0 p →
  buffered h0 (acc ++ [p]) σ (data ++ contents h0 p).
Proof.
  intros (Hpre & Hval & Hdata) Hp. split; [exact Hpre |]. split.
  - apply Forall_app. split; [exact Hval |]. apply Forall_singleton.
    apply wf_tensor_valid. eapply wf_tensor_prefix; eassumption.
  - rewrite fmap_app, concat_app, Hdata. simpl. rewrite app_nil_r.
    f_equal. apply contents_prefix; [exact Hpre |].
    apply wf_tensor_valid, Hp.
Qed.

Lemma buffered_alloc (h0 : list (list Q)) (acc : list Tensor) (σ : process)
    (data vs : list Q) :
  buffered h0 acc σ data →
  buffered h0 (acc ++ [mkTensor (length (heap σ)) 0 (length vs) 1])
           (set_heap (heap σ ++ [vs]) σ) (data ++ vs).
Proof.
  intros (Hpre & Hval & Hdata). split; [| split]; simpl.
  - etransitivity; [exact Hpre | apply prefix_app_r; reflexivity].
  - apply Forall_app. split.
    + eapply Forall_impl; [exact Hval |]. intros t Ht. simpl in Ht.
      rewrite length_app. simpl. lia.
    + apply Forall_singleton. simpl. rewrite length_app. simpl. lia.
  - rewrite fmap_app, concat_app. simpl. rewrite app_nil_r. f_equal.
    + rewrite <- Hdata. f_equal. apply Forall_fmap_ext.
      eapply Forall_impl; [exact Hval |]. intros t Ht. simpl in Ht.
      apply contents_prefix; [apply prefix_app_r; reflexivity | exact Ht].
    + unfold contents. simpl. rewrite lookup_app_r by lia.
      rewrite Nat.sub_diag. simpl. apply take_ge. lia.
Qed.

Lemma inner_loop (h0 : list (list Q)) (tensors : list Tensor) (rank : nat) :
  rank < world_sz → Forall (wf_tensor h0) tensors →
  ∀ ts i acc σ data,
    drop i tensors = ts → buffered h0 acc σ data →
    ∃ acc' σ' blocks,
      foldlM (append_partition uninit
                ((λ t, part world_sz t <$> seq 0 world_sz) <$> tensors)
                ((λ t, chunk_sz world_sz (numel t)) <$> tensors) rank)
             acc (seq i (length ts)) σ = Ok (acc', σ')
      ∧ buffered h0 acc' σ' (data ++ concat blocks)
      ∧ Forall2 (block_of uninit world_sz h0 rank) ts blocks
      ∧ quantizer_module σ' = quantizer_module σ
      ∧ length acc + length ts ≤ length acc'.
Proof.
  intros Hrank Hwf ts. induction ts as [| t ts IH]; intros i acc σ data Hdrop Hbuf.
  - exists acc, σ, []. simpl. rewrite app_nil_r.
    repeat split; try apply Hbuf; [constructor | lia].
  - assert (Ht : tensors !! i = Some t).
    { rewrite <- (Nat.add_0_r i), <- lookup_drop, Hdrop. reflexivity. }
    assert (Hdrop' : drop (S i) tensors = ts).
    { rewrite <- (Nat.add_1_r i), <- drop_drop, Hdrop. reflexivity. }
    assert (Hwt : wf_tensor h0 t).
    { eapply Forall_lookup_1; eassumption. }
    assert (Hwp : wf_tensor h0 (part world_sz t rank)).
    { apply wf_slice, wf_view_flat, Hwt. }
    pose proof (length_contents _ _ Hwp) as Hlen.
    pose proof (partition_length_le (numel t) rank) as Hle.
    rewrite <- numel_part in Hle.
    pose proof (append_partition_ok tensors rank i t acc σ Ht Hrank) as Hstep.
    cbv zeta in Hstep. simpl.
    destruct (decide (0 < chunk_sz world_sz (numel t) - numel (part world_sz t rank)))
      as [Hpad | Hpad]; rewrite (bind_ok _ _ _ _ _ Hstep); clear Hstep.
    + set (padding_sz := chunk_sz world_sz (numel t) - numel (part world_sz t rank)) in *.
      set (fill := uninit (length (heap σ)) <$> seq 0 padding_sz).
      assert (Hfill : length fill = padding_sz)
        by (unfold fill; rewrite length_fmap, length_seq; reflexivity).
      pose proof (buffered_snoc _ _ _ _ _ Hbuf Hwp) as Hbuf1.
      pose proof (buffered_alloc _ _ _ _ fill Hbuf1) as Hbuf2.
      rewrite Hfill, <- !app_assoc in Hbuf2.
      destruct (IH (S i) _ _ _ Hdrop' Hbuf2)
        as (acc' & σ' & blocks & Hrun & Hbuf' & Hblocks & Hq & Hlen').
      exists acc', σ', ((contents h0 (part world_sz t rank) ++ fill) :: blocks).
      split; [exact Hrun |]. split; [| split; [| split]].
      * simpl. rewrite <- !app_assoc in Hbuf'. rewrite <- !app_assoc. exact Hbuf'.
      * constructor; [| exact Hblocks]. exists fill.
        split; [reflexivity |]. split; [rewrite length_app; lia |].
        unfold fill. apply Forall_fmap, Forall_forall. intros j _.
        exists (length (heap σ)), j. reflexivity.
      * exact Hq.
      * rewrite !length_app in Hlen'. simpl in *. lia.
    + pose proof (buffered_snoc _ _ _ _ _ Hbuf Hwp) as Hbuf1.
      destruct (IH (S i) _ _ _ Hdrop' Hbuf1)
        as (acc' & σ' & blocks & Hrun & Hbuf' & Hblocks & Hq & Hlen').
      exists acc', σ', ((contents h0 (part world_sz t rank) ++ []) :: blocks).
      split; [exact Hrun |]. split; [| split; [| split]].
      * simpl. rewrite app_nil_r, <- app_assoc in *. exact Hbuf'.
      * constructor; [| exact Hblocks]. exists [].
        split; [reflexivity |]. split; [rewrite app_nil_r; lia | constructor].
      * exact Hq.
      * rewrite !length_app in Hlen'. simpl in *. lia.
Qed.

Lemma outer_loop (h0 : list (list Q)) (tensors : list Tensor) :
  Forall (wf_tensor h0) tensors →
  ∀ n r acc σ data,
    r + n = world_sz → buffered h0 acc σ data →
    ∃ acc' σ' blockss,
      foldlM (λ acc rank,
                foldlM (append_partition uninit
                          ((λ t, part world_sz t <$> seq 0 world_sz) <$> tensors)
                          ((λ t, chunk_sz world_sz (numel t)) <$> tensors) rank)
                       acc (seq 0 (length tensors)))
             acc (seq r n) σ = Ok (acc', σ')
      ∧ buffered h0 acc' σ' (data ++ concat (@concat Q <$> blockss))
      ∧ length blockss = n
      ∧ (∀ k blocks, blockss !! k = Some blocks →
                     Forall2 (block_of uninit world_sz h0 (r + k)) tensors blocks)
      ∧ quantizer_module σ' = quantizer_module σ
      ∧ length acc + n * length tensors ≤ length acc'.
Proof.
  intros Hwf n. induction n as [| n IH]; intros r acc σ data Hr Hbuf.
  - exists acc, σ, []. simpl. rewrite app_nil_r.
    repeat split; try apply Hbuf; [| lia].
    intros k blocks Hk. rewrite lookup_nil in Hk. discriminate.
  - destruct (inner_loop h0 tensors r ltac:(lia) Hwf tensors 0 acc σ data
                (drop_0 _) Hbuf)
      as (acc1 & σ1 & blocks & Hrun1 & Hbuf1 & Hblocks & Hq1 & Hlen1).
    destruct (IH (S r) acc1 σ1 _ ltac:(lia) Hbuf1)
      as (acc' & σ' & blockss & Hrun & Hbuf' & Hlen & Hall & Hq & Hlen').
    exists acc', σ', (blocks :: blockss). simpl.
    rewrite (bind_ok _ _ _ _ _ Hrun1).
    split; [exact Hrun |]. split; [| split; [| split; [| split]]].
    + rewrite <- app_assoc in Hbuf'. exact Hbuf'.
    + simpl. lia.
    + intros [| k] bs Hk; simpl in Hk.
      * injection Hk as <-. rewrite Nat.add_0_r. exact Hblocks.
      * replace (r + S k) with (S r + k) by lia. apply Hall, Hk.
    + congruence.
    + lia.
Qed.

Lemma read_all (ts : list Tensor) (σ : process) :
  forM ts read σ = Ok (contents (heap σ) <$> ts, σ).
Proof. apply forM_pure. reflexivity. Qed.

Lemma cat_ok (ts : list Tensor) (σ : process) :
  ts ≠ [] →
  Torch.cat ts σ
  = Ok (mkTensor (length (heap σ)) 0
                 (length (concat (contents (heap σ) <$> ts))) 1,
        set_heap (heap σ ++ [concat (contents (heap σ) <$> ts)]) σ).
Proof.
  intros Hne. unfold Torch.cat. destruct ts as [| t ts]; [congruence |].
  rewrite (bind_ok _ _ _ _ _ (read_all _ _)). reflexivity.
Qed.

Lemma interleave_ok (tensors : list Tensor) (σ : process) :
  tensors ≠ [] → Forall (wf_tensor (heap σ)) tensors →
  ∃ buf σ' flat,
    interleave uninit tensors world_sz
      ((λ t, part world_sz t <$> seq 0 world_sz) <$> tensors)
      ((λ t, chunk_sz world_sz (numel t)) <$> tensors) σ = Ok (buf, σ')
    ∧ interleaved uninit world_sz (heap σ) tensors flat
    ∧ heap σ `prefix_of` heap σ'
    ∧ quantizer_module σ' = quantizer_module σ
    ∧ heap σ' !! storage buf = Some flat
    ∧ length (heap σ) ≤ storage buf
    ∧ offset buf = 0 ∧ numel buf = length flat.
Proof.
  intros Hne Hwf.
  destruct (outer_loop (heap σ) tensors Hwf world_sz 0 [] σ [] eq_refl)
    as (acc & σ1 & blockss & Hrun & (Hpre & Hval & Hdata) & Hlen & Hall & Hq & Hacc).
  { split; [reflexivity |]. split; [constructor | reflexivity]. }
  simpl in Hdata, Hacc.
  assert (Hacc' : acc ≠ []).
  { destruct tensors; [congruence |]. destruct acc; [| discriminate].
    simpl in Hacc. destruct world_sz; simpl in *; lia. }
  eexists _, _, (concat (@concat Q <$> blockss)). unfold interleave.
  rewrite (bind_ok _ _ _ _ _ Hrun), (cat_ok _ _ Hacc'), Hdata.
  split; [reflexivity |]. split; [exists blockss; auto |]. simpl.
  split; [etransitivity; [exact Hpre | apply prefix_app_r; reflexivity] |].
  split; [exact Hq |].
  split; [rewrite lookup_app_r, Nat.sub_diag by lia; reflexivity |].
  split; [apply prefix_length, Hpre | auto].
Qed.

Lemma blocks_sized (h0 : list (list Q)) (tensors : list Tensor) (rank : nat)
    (blocks : list (list Q)) :
  Forall2 (block_of uninit world_sz h0 rank) tensors blocks →
  Forall2 (λ n b, length b = n) (chunk_sz world_sz ∘ numel <$> tensors) blocks.
Proof.
  intros H. apply Forall2_fmap_l. eapply Forall2_impl; [exact H |].
  intros t b (fill & _ & Hlen & _). exact Hlen.
Qed.

Lemma interleaved_layout (h0 : list (list Q)) (tensors : list Tensor)
    (flat : list Q) :
  Forall (wf_tensor h0) tensors → interleaved uninit world_sz h0 tensors flat →
  layout world_sz h0 tensors flat.
Proof.
  intros Hwf (blockss & -> & Hlen & Hall). unfold layout.
  set (S := shard_length world_sz tensors).
  assert (Huni : Forall (λ l : list Q, length l = S) (@concat Q <$> blockss)).
  { apply Forall_fmap, Forall_lookup. intros k blocks Hk. simpl.
    apply (length_concat_sized _ _ (blocks_sized _ _ _ _ (Hall k blocks Hk))). }
  split.
  - rewrite (length_concat_uniform S _ Huni), length_fmap, Hlen. reflexivity.
  - intros rank i t Hrank Ht.
    destruct (lookup_lt_is_Some_2 blockss rank ltac:(lia)) as [blocks Hblocks].
    pose proof (Hall rank blocks Hblocks) as Hb.
    destruct (Forall2_lookup_l _ _ _ _ _ Hb Ht) as (b & Hbi & fill & -> & Hblen & _).
    rewrite <- drop_drop.
    rewrite (drop_concat_uniform S _ rank (concat blocks) Huni)
      by (rewrite list_lookup_fmap, Hblocks; reflexivity).
    rewrite drop_app.
    unfold shard_offset.
    rewrite (drop_concat_sized _ _ _ _ (blocks_sized _ _ _ _ Hb) Hbi).
    rewrite <- !app_assoc. apply take_app_length'.
    rewrite <- numel_part. symmetry. apply length_contents.
    apply wf_slice, wf_view_flat. eapply Forall_lookup_1; eassumption.
Qed.

Lemma chunk_sz_exact (n : nat) :
  n `mod` world_sz = 0 → world_sz * chunk_sz world_sz n = n.
Proof.
  intros Hmod. unfold chunk_sz.
  pose proof (Nat.div_mod_eq n world_sz) as Hn. rewrite Hmod in Hn.
  rewrite Hn at 1.
  replace (world_sz * (n `div` world_sz) + 0 + world_sz - 1)
    with (n `div` world_sz * world_sz + (world_sz - 1)) by lia.
  rewrite Nat.div_add_l by lia. rewrite (Nat.div_small (world_sz - 1)) by lia.
  lia.
Qed.

Lemma fast_layout (h0 : list (list Q)) (t0 : Tensor) :
  wf_tensor h0 t0 → numel t0 `mod` world_sz = 0 →
  layout world_sz h0 [t0] (contents h0 t0).
Proof.
  intros Hwf Hmod. pose proof (length_contents _ _ Hwf) as Hlen.
  unfold layout, shard_length, shard_offset. simpl. rewrite Nat.add_0_r.
  split; [rewrite chunk_sz_exact; assumption |].
  intros rank [| i] t Hrank Ht; [| destruct i; discriminate].
  injection Ht as <-. simpl. rewrite Nat.add_0_r.
  rewrite (contents_part _ _ _ Hwf). unfold partition_of, partition_length.
  rewrite Hlen.
  rewrite <- (take_ge (drop (rank * chunk_sz world_sz (numel t0)) (contents h0 t0))
                (numel t0 - rank * chunk_sz world_sz (numel t0))) at 2
    by (rewrite length_drop; lia).
  rewrite take_take. reflexivity.
Qed.

End FlatBuffer.

(** ** Sums of buffers *)

Section Sums.
Import Dist.

Lemma length_vsum (n : nat) (bufs : list (list Q)) :
  Forall (λ b, length b = n) bufs → length (vsum n bufs) = n.
Proof.
  induction 1 as [| b bufs Hb _ IH]; simpl.
  - apply length_replicate.
  - rewrite length_zip_with, IH, Hb. lia.
Qed.

(** A window of a sum is the sum of the windows. *)
Lemma vsum_window (n off m : nat) (bufs : list (list Q)) :
  m ≤ n - off →
  take m (drop off (vsum n bufs))
  = vsum m ((λ b, take m (drop off b)) <$> bufs).
Proof.
  intros Hle. induction bufs as [| b bufs IH]; simpl.
  - rewrite drop_replicate, take_replicate. f_equal. lia.
  - rewrite zip_with_drop, zip_with_take, IH. reflexivity.
Qed.

Lemma shard_window (S rank off m : nat) (b : list Q) :
  off + m ≤ S →
  take m (drop off (shard S rank b)) = take m (drop (rank * S + off) b).
Proof.
  intros Hle. unfold shard.
  rewrite <- drop_drop.
  rewrite (take_drop_commute (take S (drop (rank * S) b)) m off), take_take.
  rewrite (take_drop_commute (drop (rank * S) b) m off).
  do 2 f_equal. lia.
Qed.

Lemma length_shard (W S rank : nat) (b : list Q) :
  rank < W → length b = W * S → length (shard S rank b) = S.
Proof.
  intros Hrank Hb. unfold shard. rewrite length_take, length_drop, Hb. nia.
Qed.

End Sums.

(** ** Running [reduce_scatter_coalesced] *)

Section FlatBufferPaths.
Variable uninit : nat → nat → Q.
Variable world_sz : nat.
Hypothesis world_pos : 0 < world_sz.

Lemma flat_buffer_fast (t0 : Tensor) (σ : process) ps pd :
  numel t0 `mod` world_sz = 0 →
  flat_buffer uninit [t0] world_sz ps pd σ
  = Ok (Torch.view_flat t0,
        set_heap (store (heap σ) (Torch.view_flat t0)
                        (div_by world_sz <$> contents (heap σ) t0)) σ).
Proof.
  intros Hmod. unfold flat_buffer. rewrite decide_True by exact Hmod.
  reflexivity.
Qed.

Lemma flat_buffer_general (tensors : list Tensor) (σ : process) ps pd :
  general_path world_sz tensors →
  flat_buffer uninit tensors world_sz ps pd σ
  = (let* buf := interleave uninit tensors world_sz ps pd in
     Torch.div_ buf world_sz;; ret buf) σ.
Proof.
  intros Hgen. unfold flat_buffer.
  destruct tensors as [| t0 [| t1 rest]]; try reflexivity.
  simpl in Hgen. rewrite decide_False by exact Hgen. reflexivity.
Qed.

(** The buffer handed to the collective, on either path. *)
Lemma flat_buffer_ok (tensors : list Tensor) (σ : process) :
  tensors ≠ [] → Forall (wf_tensor (heap σ)) tensors →
  ∃ buf σ' flat,
    flat_buffer uninit tensors world_sz ((λ t, part world_sz t <$> seq 0 world_sz) <$> tensors) ((λ t, chunk_sz world_sz (numel t)) <$> tensors) σ
      = Ok (buf, σ')
    ∧ layout world_sz (heap σ) tensors flat
    ∧ wf_tensor (heap σ') buf
    ∧ contents (heap σ') buf = div_by world_sz <$> flat
    ∧ numel buf = world_sz * shard_length world_sz tensors
    ∧ quantizer_module σ' = quantizer_module σ.
Proof.
  intros Hne Hwf.
  assert (Hcase : general_path world_sz tensors
                  ∨ ∃ t0, tensors = [t0] ∧ numel t0 `mod` world_sz = 0).
  { destruct tensors as [| t0 [| t1 rest]]; simpl; auto.
    destruct (decide (numel t0 `mod` world_sz = 0)); eauto. }
  destruct Hcase as [Hgen | (t0 & -> & Hmod)].
  - destruct (interleave_ok uninit world_sz world_pos tensors σ Hne Hwf)
      as (buf & σ1 & flat & Hrun & Hint & Hpre & Hq & Hbuf & Hfresh & Hoff & Hnum).
    assert (Hlay : layout world_sz (heap σ) tensors flat)
      by (eapply interleaved_layout; eassumption).
    assert (Hwb : wf_tensor (heap σ1) buf).
    { exists flat. split; [exact Hbuf | lia]. }
    assert (Hcb : contents (heap σ1) buf = flat).
    { unfold contents. rewrite Hbuf, Hoff, Hnum. simpl. apply take_ge. lia. }
    exists buf, (set_heap (store (heap σ1) buf (div_by world_sz <$> flat)) σ1), flat.
    split; [| split; [exact Hlay | split; [| split; [| split]]]].
    + rewrite (flat_buffer_general _ _ _ _ Hgen), (bind_ok _ _ _ _ _ Hrun).
      unfold Torch.div_, bind, read, write, ret. rewrite Hcb. reflexivity.
    + simpl. apply wf_store; [exact Hwb | | exact Hwb].
      rewrite length_fmap. lia.
    + simpl. rewrite (contents_store_window _ buf _ buf 0); try (reflexivity || lia).
      * rewrite drop_0. apply take_ge. rewrite length_fmap. lia.
      * exact Hwb.
      * rewrite length_fmap. lia.
    + rewrite Hnum. apply Hlay.
    + exact Hq.
  - apply (proj1 (Forall_singleton _ _)) in Hwf.
    assert (Hlay : layout world_sz (heap σ) [t0] (contents (heap σ) t0))
      by (apply fast_layout; [exact world_pos | exact Hwf | exact Hmod]).
    pose proof (length_contents _ _ Hwf) as Hlen.
    eexists _, _, (contents (heap σ) t0).
    split; [apply flat_buffer_fast, Hmod |].
    split; [exact Hlay |]. simpl.
    split; [| split; [| split]].
    + apply wf_store; try apply wf_view_flat, Hwf. rewrite length_fmap. exact Hlen.
    + rewrite (contents_store_window _ (Torch.view_flat t0) _ (Torch.view_flat t0) 0);
        try (reflexivity || (simpl; lia)).
      * rewrite drop_0. apply take_ge. rewrite length_fmap. simpl. lia.
      * apply wf_view_flat, Hwf.
      * rewrite length_fmap. exact Hlen.
    + destruct Hlay as [Htot _]. rewrite <- Htot. symmetry. exact Hlen.
    + reflexivity.
Qed.

Lemma shard_offset_S (tensors : list Tensor) (i : nat) (t : Tensor) :
  tensors !! i = Some t →
  shard_offset world_sz tensors (S i)
  = shard_offset world_sz tensors i + chunk_sz world_sz (numel t).
Proof.
  intros Ht. unfold shard_offset.
  rewrite (take_S_r _ _ (chunk_sz world_sz (numel t)))
    by (rewrite list_lookup_fmap, Ht; reflexivity).
  rewrite sum_list_with_app. simpl. lia.
Qed.

Lemma shard_offset_le (tensors : list Tensor) (i : nat) :
  shard_offset world_sz tensors i ≤ shard_length world_sz tensors.
Proof.
  unfold shard_offset, shard_length.
  rewrite <- (take_drop i (chunk_sz world_sz ∘ numel <$> tensors)) at 2.
  rewrite sum_list_with_app. lia.
Qed.

Lemma shard_offset_0 (tensors : list Tensor) :
  shard_offset world_sz tensors 0 = 0.
Proof. reflexivity. Qed.

End FlatBufferPaths.

Section ReduceScatter.
Variable uninit : nat → nat → Q.
Variable world_sz this_rank : nat.
Hypothesis world_pos : 0 < world_sz.
Hypothesis rank_lt : this_rank < world_sz.

Lemma shard_view_fields (buf : Tensor) (S : nat) :
  numel buf = world_sz * S →
  storage (shard_view this_rank buf S) = storage buf
  ∧ offset (shard_view this_rank buf S) = offset buf + this_rank * S
  ∧ numel (shard_view this_rank buf S) = S.
Proof.
  intros Hn. unfold shard_view. simpl.
  assert (this_rank * S + S ≤ world_sz * S) by nia.
  repeat split; lia.
Qed.

Lemma chunk_even (buf : Tensor) (S : nat) (σ : process) :
  numel buf = world_sz * S →
  ∃ chunks, Torch.chunk buf world_sz σ = Ok (chunks, σ)
            ∧ chunks !! this_rank = Some (shard_view this_rank buf S).
Proof.
  intros Hn. unfold Torch.chunk. rewrite decide_False by lia.
  assert (Hsplit : (numel buf + world_sz - 1) `div` world_sz = S).
  { rewrite Hn.
    replace (world_sz * S + world_sz - 1) with (S * world_sz + (world_sz - 1))
      by lia.
    rewrite Nat.div_add_l, Nat.div_small; lia. }
  rewrite Hsplit. destruct (decide (S = 0)) as [-> | HS].
  - eexists. split; [reflexivity |].
    rewrite lookup_replicate_2 by lia. unfold shard_view.
    rewrite Nat.mul_0_r. reflexivity.
  - assert (Hpieces : (numel buf + S - 1) `div` S = world_sz).
    { rewrite Hn.
      replace (world_sz * S + S - 1) with (world_sz * S + (S - 1)) by lia.
      rewrite Nat.div_add_l, Nat.div_small; lia. }
    rewrite Hpieces. eexists. split; [reflexivity |].
    rewrite list_lookup_fmap, lookup_seq_lt by lia. reflexivity.
Qed.

Lemma reduce_scatter_ok (peers : list (list Q)) (buf mine : Tensor)
    (σ : process) :
  numel buf = length peers * numel mine →
  _torch_reduce_scatter_fn peers this_rank buf mine σ
  = Ok ((), set_heap
              (store (heap σ) mine
                 (Dist.vsum (numel mine)
                    (Dist.shard (numel mine) this_rank
                       <$> <[this_rank := contents (heap σ) buf]> peers))) σ).
Proof.
  intros Hn. unfold _torch_reduce_scatter_fn, Dist.reduce_scatter_fn.
  unfold bind, read. rewrite decide_True by exact Hn. reflexivity.
Qed.

Lemma slice_output_ok (tensors : list Tensor) (mine : Tensor) (i : nat)
    (t : Tensor) (outs : list Tensor) (σ : process) :
  tensors !! i = Some t →
  numel mine = shard_length world_sz tensors →
  slice_output this_rank ((λ t, part world_sz t <$> seq 0 world_sz) <$> tensors) ((λ t, chunk_sz world_sz (numel t)) <$> tensors) mine
    (outs, shard_offset world_sz tensors i) i σ
  = Ok ((outs ++ [output_view world_sz this_rank mine tensors i t],
         shard_offset world_sz tensors (S i)), σ).
Proof.
  intros Ht Hmine. unfold slice_output.
  assert (H1 : ((λ t, part world_sz t <$> seq 0 world_sz) <$> tensors) !! i = Some (part world_sz t <$> seq 0 world_sz))
    by (rewrite list_lookup_fmap, Ht; reflexivity).
  assert (H2 : (part world_sz t <$> seq 0 world_sz) !! this_rank
               = Some (part world_sz t this_rank))
    by (rewrite list_lookup_fmap, lookup_seq_lt by lia; reflexivity).
  assert (H3 : ((λ t, chunk_sz world_sz (numel t)) <$> tensors) !! i = Some (chunk_sz world_sz (numel t)))
    by (rewrite list_lookup_fmap, Ht; reflexivity).
  rewrite (bind_ok _ _ _ _ _ (index_ok _ _ _ σ H1)).
  rewrite (bind_ok _ _ _ _ _ (index_ok _ _ _ σ H2)).
  pose proof (shard_offset_S world_sz world_pos tensors i t Ht) as HS.
  pose proof (shard_offset_le world_sz world_pos tensors (S i)) as Hle.
  assert (Hpl : partition_length world_sz (numel t) this_rank
                ≤ chunk_sz world_sz (numel t))
    by (unfold partition_length; lia).
  unfold Torch.narrow. cbn [fst snd].
  rewrite decide_True by (rewrite numel_part by exact world_pos; lia).
  unfold bind at 1. unfold ret at 1.
  rewrite (bind_ok _ _ _ _ _ (index_ok _ _ _ σ H3)).
  unfold ret, output_view. rewrite numel_part, HS by exact world_pos. reflexivity.
Qed.

Lemma deinterleave_loop (tensors : list Tensor) (mine : Tensor) :
  numel mine = shard_length world_sz tensors →
  ∀ ts i outs σ,
    drop i tensors = ts →
    foldlM (slice_output this_rank ((λ t, part world_sz t <$> seq 0 world_sz) <$> tensors) ((λ t, chunk_sz world_sz (numel t)) <$> tensors) mine)
           (outs, shard_offset world_sz tensors i) (seq i (length ts)) σ
    = Ok ((outs ++ imap (λ k t, output_view world_sz this_rank mine tensors (i + k) t) ts,
           shard_offset world_sz tensors (i + length ts)), σ).
Proof.
  intros Hmine ts. induction ts as [| t ts IH]; intros i outs σ Hdrop.
  - simpl. rewrite app_nil_r, Nat.add_0_r. reflexivity.
  - assert (Ht : tensors !! i = Some t).
    { rewrite <- (Nat.add_0_r i), <- lookup_drop, Hdrop. reflexivity. }
    assert (Hdrop' : drop (S i) tensors = ts).
    { rewrite <- (Nat.add_1_r i), <- drop_drop, Hdrop. reflexivity. }
    simpl. rewrite (bind_ok _ _ _ _ _ (slice_output_ok _ _ _ _ outs σ Ht Hmine)).
    rewrite (IH (S i) _ σ Hdrop'). rewrite <- app_assoc. simpl.
    rewrite Nat.add_0_r, <- Nat.add_succ_comm. do 4 f_equal.
    f_equal. apply imap_ext. intros k x _. simpl. f_equal. lia.
Qed.

(** The whole call: the buffer of the first half, then the collective
    writing this rank's shard, then the output views into that shard. *)
Lemma reduce_scatter_coalesced_ok (peers : list (list Q))
    (tensors : list Tensor) (σ : process) :
  tensors ≠ [] → Forall (wf_tensor (heap σ)) tensors →
  length peers = world_sz →
  ∃ buf σ1 flat,
    flat_buffer uninit tensors world_sz ((λ t, part world_sz t <$> seq 0 world_sz) <$> tensors) ((λ t, chunk_sz world_sz (numel t)) <$> tensors) σ
      = Ok (buf, σ1)
    ∧ layout world_sz (heap σ) tensors flat
    ∧ wf_tensor (heap σ1) buf
    ∧ contents (heap σ1) buf = div_by world_sz <$> flat
    ∧ numel buf = world_sz * shard_length world_sz tensors
    ∧ quantizer_module σ1 = quantizer_module σ
    ∧ reduce_scatter_coalesced uninit peers this_rank world_sz tensors σ
      = let L := shard_length world_sz tensors in
        let mine := shard_view this_rank buf L in
        Ok (imap (output_view world_sz this_rank mine tensors) tensors,
            set_heap
              (store (heap σ1) mine
                 (Dist.vsum L
                    (Dist.shard L this_rank
                       <$> <[this_rank := div_by world_sz <$> flat]> peers)))
              σ1).
Proof.
  intros Hne Hwf Hpeers.
  destruct (flat_buffer_ok uninit world_sz world_pos tensors σ Hne Hwf)
    as (buf & σ1 & flat & Hrun & Hlay & Hwb & Hcb & Hnum & Hq).
  exists buf, σ1, flat. repeat (split; [assumption |]).
  unfold reduce_scatter_coalesced.
  rewrite (bind_ok _ _ _ _ _ (partition_lst_ok _ world_pos _ _)).
  rewrite (bind_ok _ _ _ _ _ (padded_partition_sz_ok _ world_pos _ _)).
  rewrite (bind_ok _ _ _ _ _ Hrun).
  destruct (chunk_even buf _ σ1 Hnum) as (chunks & Hchunk & Hmine).
  rewrite (bind_ok _ _ _ _ _ Hchunk).
  rewrite (bind_ok _ _ _ _ _ (index_ok _ _ _ σ1 Hmine)).
  destruct (shard_view_fields buf _ Hnum) as (Hst & Hoff & Hn).
  rewrite (bind_ok _ _ _ _ _ (reduce_scatter_ok peers buf _ σ1
             ltac:(rewrite Hn, Hpeers; exact Hnum))).
  rewrite Hn, Hcb. unfold deinterleave.
  pose proof (deinterleave_loop tensors _ Hn tensors 0 [] 
                (set_heap (store (heap σ1)
                   (shard_view this_rank buf (shard_length world_sz tensors))
                   (Dist.vsum (shard_length world_sz tensors)
                      (Dist.shard (shard_length world_sz tensors) this_rank
                         <$> <[this_rank := div_by world_sz <$> flat]> peers)))
                   σ1) (drop_0 _)) as Hloop.
  rewrite shard_offset_0 in Hloop.
  rewrite (bind_ok _ _ _ _ _ Hloop). reflexivity.
Qed.

(** What an output holds after the call. *)
Lemma output_contents (h1 : list (list Q)) (buf mine : Tensor)
    (bufs : list (list Q)) (tensors : list Tensor) (i : nat) (t : Tensor)
    (L m : nat) :
  L = shard_length world_sz tensors →
  m = partition_length world_sz (numel t) this_rank →
  mine = shard_view this_rank buf L →
  wf_tensor h1 buf → numel buf = world_sz * L →
  Forall (λ b, length b = world_sz * L) bufs →
  tensors !! i = Some t →
  contents (store h1 mine (Dist.vsum L (Dist.shard L this_rank <$> bufs)))
           (output_view world_sz this_rank mine tensors i t)
  = Dist.vsum m ((λ b, take m (drop (this_rank * L
                                     + shard_offset world_sz tensors i) b))
                   <$> bufs).
Proof.
  intros HL Hm Hmine Hwb Hnum Hbufs Ht.
  destruct (shard_view_fields buf L Hnum) as (Hst & Hoff & Hn).
  rewrite <- Hmine in Hst, Hoff, Hn.
  assert (Hfit : shard_offset world_sz tensors i + m ≤ L).
  { pose proof (shard_offset_S world_sz world_pos tensors i t Ht) as H1.
    pose proof (shard_offset_le world_sz world_pos tensors (S i)) as H2.
    rewrite Hm, HL. unfold partition_length. lia. }
  assert (Hin : this_rank * L + L ≤ world_sz * L) by nia.
  rewrite (contents_store_window _ mine _ _ (shard_offset world_sz tensors i)).
  - simpl. rewrite <- Hm.
    rewrite (vsum_window L (shard_offset world_sz tensors i) m _ ltac:(lia)),
      <- list_fmap_compose.
    f_equal. apply list_fmap_ext. intros k b _. simpl.
    apply shard_window, Hfit.
  - destruct Hwb as (s & Hs & Hlen). exists s.
    rewrite Hst, Hoff, Hn. split; [exact Hs | lia].
  - rewrite Hn. apply length_vsum.
    apply Forall_fmap. eapply Forall_impl; [exact Hbufs |].
    intros b Hb. simpl. eapply length_shard; [exact rank_lt | exact Hb].
  - reflexivity.
  - reflexivity.
  - simpl. rewrite Hn, <- Hm. exact Hfit.
Qed.

End ReduceScatter.

(** ** The alignment step and the group of ranks *)

Section Alignment.
Variable uninit : nat → nat → Q.

(** Lines 54-58: the aligned buffer holds the data, then what the
    allocator left in the rest. *)
Lemma align_ok (world : nat) (t : Tensor) (σ : process) :
  0 < world → wf_tensor (heap σ) t →
  let padding_size :=
    if decide (numel t `mod` world ≠ 0) then world - numel t `mod` world else 0 in
  ∃ flat_tensor σ',
    align uninit t world σ = Ok (flat_tensor, σ')
    ∧ numel flat_tensor = numel t + padding_size
    ∧ contents (heap σ') flat_tensor
      = contents (heap σ) t
        ++ (uninit (length (heap σ)) <$> seq (numel t) padding_size)
    ∧ take (length (heap σ)) (heap σ') = heap σ
    ∧ length (heap σ') = S (length (heap σ))
    ∧ quantizer_module σ' = quantizer_module σ.
Proof.
  intros Hw Hwf padding_size.
  set (l := length (heap σ)).
  set (aligned := numel t + padding_size).
  set (U := uninit l <$> seq 0 aligned).
  set (flat := mkTensor l 0 aligned 1).
  set (front := mkTensor l 0 (numel t) 1).
  set (h1 := heap σ ++ [U]).
  assert (Hrun : align uninit t world σ
                 = Ok (flat, set_heap (store h1 front (contents (heap σ) t)) σ)).
  { unfold align, modulo. rewrite decide_False by lia.
    unfold bind at 1. unfold ret at 1. fold padding_size. fold aligned.
    unfold bind at 1. unfold Torch.empty at 1. fold l. fold U. fold flat. fold h1.
    unfold Torch.narrow. rewrite decide_True by (simpl; lia).
    unfold bind at 1. unfold ret at 1. simpl offset. simpl dim.
    change (0 + 0) with 0. fold front.
    unfold Torch.copy_. rewrite decide_True by reflexivity.
    unfold bind, read, write, ret. simpl heap.
    rewrite contents_view_flat.
    rewrite (contents_prefix (heap σ) h1 t)
      by (try apply prefix_app_r; try reflexivity; apply wf_tensor_valid, Hwf).
    reflexivity. }
  exists flat, (set_heap (store h1 front (contents (heap σ) t)) σ).
  assert (Hwflat : wf_tensor h1 flat).
  { exists U. split.
    - unfold h1. rewrite lookup_app_r by (simpl; lia).
      simpl. rewrite Nat.sub_diag. reflexivity.
    - unfold U. rewrite length_fmap, length_seq. simpl. lia. }
  assert (HcU : contents h1 flat = U).
  { destruct Hwflat as (s & Hs & _). unfold contents. rewrite Hs. simpl.
    unfold h1 in Hs. rewrite lookup_app_r in Hs by (simpl; lia).
    simpl in Hs. rewrite Nat.sub_diag in Hs. injection Hs as <-.
    apply take_ge. unfold U. rewrite length_fmap, length_seq. lia. }
  split; [exact Hrun |]. split; [reflexivity |]. simpl heap.
  split; [| split; [| split]].
  - rewrite (contents_store_around h1 flat _ front 0);
      try (reflexivity || (simpl; lia) || assumption).
    + rewrite HcU, take_0. simpl. f_equal. unfold U.
      rewrite <- fmap_drop. f_equal. unfold aligned.
      rewrite drop_seq. f_equal; lia.
    + simpl. apply length_contents, Hwf.
  - unfold store, h1. simpl. rewrite alter_app_r_alt by (fold l; lia).
    apply take_app_length.
  - rewrite length_store. unfold h1. rewrite length_app. simpl. lia.
  - reflexivity.
Qed.

End Alignment.

Section Group.
Variable uninits : nat → nat → nat → Q.
Variable ranks : list (process * list Tensor).
Variable tensors : list Tensor.

(** All ranks pass valid tensors of the same sizes. *)
Hypothesis ranks_agree :
  ∀ r σr tr, ranks !! r = Some (σr, tr) →
    Forall (wf_tensor (heap σr)) tr ∧ numel <$> tr = numel <$> tensors.
Hypothesis tensors_ne : tensors ≠ [].
Hypothesis world_pos : 0 < length ranks.

Lemma padded_sizes_agree (tr : list Tensor) :
  numel <$> tr = numel <$> tensors →
  chunk_sz (length ranks) ∘ numel <$> tr = chunk_sz (length ranks) ∘ numel <$> tensors.
Proof.
  intros H. rewrite !(list_fmap_compose numel (chunk_sz (length ranks))), H.
  reflexivity.
Qed.

Lemma shard_length_agree (tr : list Tensor) :
  numel <$> tr = numel <$> tensors →
  shard_length (length ranks) tr = shard_length (length ranks) tensors.
Proof. intros H. unfold shard_length. rewrite (padded_sizes_agree _ H). reflexivity. Qed.

Lemma shard_offset_agree (tr : list Tensor) (i : nat) :
  numel <$> tr = numel <$> tensors →
  shard_offset (length ranks) tr i = shard_offset (length ranks) tensors i.
Proof. intros H. unfold shard_offset. rewrite (padded_sizes_agree _ H). reflexivity. Qed.

Lemma contribution_run (uninit : nat → nat → Q) (tr : list Tensor)
    (σr σ1 : process) (buf : Tensor) :
  flat_buffer uninit tr (length ranks)
    ((λ t, part (length ranks) t <$> seq 0 (length ranks)) <$> tr)
    ((λ t, chunk_sz (length ranks) (numel t)) <$> tr) σr = Ok (buf, σ1) →
  contribution uninit (length ranks) tr σr = Ok (contents (heap σ1) buf, σ1).
Proof.
  intros Hfb. unfold contribution.
  rewrite (bind_ok _ _ _ _ _ (partition_lst_ok _ world_pos _ _)).
  rewrite (bind_ok _ _ _ _ _ (padded_partition_sz_ok _ world_pos _ _)).
  rewrite (bind_ok _ _ _ _ _ Hfb). reflexivity.
Qed.

(** What rank [r] hands to the collective. *)
Lemma peer_buffer (r : nat) (σr : process) (tr : list Tensor) :
  ranks !! r = Some (σr, tr) →
  ∃ flat,
    collective_inputs uninits ranks !! r = Some (div_by (length ranks) <$> flat)
    ∧ layout (length ranks) (heap σr) tr flat.
Proof.
  intros Hr. destruct (ranks_agree r σr tr Hr) as [Hwf Hnum].
  assert (Hne : tr ≠ []).
  { intros ->. destruct tensors; [congruence | discriminate]. }
  destruct (flat_buffer_ok (uninits r) (length ranks) world_pos tr σr Hne Hwf)
    as (buf & σ1 & flat & Hfb & Hlay & _ & Hcb & _).
  exists flat. split; [| exact Hlay].
  unfold collective_inputs. rewrite list_lookup_imap, Hr. simpl.
  unfold contribution_of. simpl.
  rewrite (contribution_run _ _ _ _ _ Hfb), Hcb. reflexivity.
Qed.

Lemma peer_lengths :
  Forall (λ b, length b = (length ranks) * shard_length (length ranks) tensors)
         (collective_inputs uninits ranks).
Proof.
  apply Forall_lookup. intros r b Hb.
  destruct (lookup_lt_is_Some_2 ranks r) as [[σr tr] Hr].
  { apply lookup_lt_Some in Hb. unfold collective_inputs in Hb.
    rewrite length_imap in Hb. exact Hb. }
  destruct (peer_buffer r σr tr Hr) as (flat & Hp & Hlen & _).
  rewrite Hp in Hb. injection Hb as <-.
  rewrite length_fmap, Hlen.
  rewrite (shard_length_agree tr (proj2 (ranks_agree r σr tr Hr))). reflexivity.
Qed.

Lemma length_input (r i : nat) (p : process * list Tensor) (t : Tensor) :
  ranks !! r = Some p → tensors !! i = Some t →
  length (input_of p i) = numel t.
Proof.
  destruct p as [σr tr]. intros Hr Ht.
  destruct (ranks_agree r σr tr Hr) as [Hwf Hnum].
  assert (Hti : (numel <$> tr) !! i = Some (numel t))
    by (rewrite Hnum, list_lookup_fmap, Ht; reflexivity).
  rewrite list_lookup_fmap in Hti. unfold input_of. simpl.
  destruct (tr !! i) as [tri |] eqn:Htri; [| discriminate].
  injection Hti as <-. apply length_contents.
  eapply Forall_lookup_1; eassumption.
Qed.

(** The window of a peer's buffer that meets the output at [i] is the
    partition of its tensor at [i], divided. *)
Lemma peer_windows (this_rank i : nat) (t : Tensor) :
  this_rank < (length ranks) → tensors !! i = Some t →
  (λ b, take (partition_length (length ranks) (numel t) this_rank)
             (drop (this_rank * shard_length (length ranks) tensors
                    + shard_offset (length ranks) tensors i) b))
    <$> collective_inputs uninits ranks
  = (λ p, div_by (length ranks) <$> partition_of (length ranks) this_rank (input_of p i))
    <$> ranks.
Proof.
  intros Hrank Ht. apply list_eq. intros r.
  rewrite !list_lookup_fmap.
  destruct (ranks !! r) as [[σr tr] |] eqn:Hr; simpl.
  - destruct (peer_buffer r σr tr Hr) as (flat & -> & _ & Hlay). simpl.
    destruct (ranks_agree r σr tr Hr) as [Hwf Hnum].
    assert (Hti : (numel <$> tr) !! i = Some (numel t))
      by (rewrite Hnum, list_lookup_fmap, Ht; reflexivity).
    rewrite list_lookup_fmap in Hti.
    destruct (tr !! i) as [tri |] eqn:Htri; [| discriminate].
    injection Hti as Hn.
    specialize (Hlay this_rank i tri Hrank Htri).
    rewrite Hn, (shard_length_agree tr Hnum), (shard_offset_agree tr i Hnum) in Hlay.
    rewrite <- fmap_drop, <- fmap_take, Hlay.
    rewrite (contents_part (length ranks) world_pos)
      by (eapply Forall_lookup_1; eassumption).
    unfold input_of. simpl. rewrite Htri. reflexivity.
  - replace (collective_inputs uninits ranks !! r) with (@None (list Q));
      [reflexivity |].
    symmetry. apply lookup_ge_None. unfold collective_inputs.
    rewrite length_imap. apply lookup_ge_None, Hr.
Qed.

(** The partition of the sum is the sum of the partitions. *)
Lemma partition_of_vsum (this_rank i : nat) (t : Tensor) :
  tensors !! i = Some t →
  partition_of (length ranks) this_rank
    (Dist.vsum (numel t) ((λ p, input_of p i) <$> ranks))
  = Dist.vsum (partition_length (length ranks) (numel t) this_rank)
      ((λ p, partition_of (length ranks) this_rank (input_of p i)) <$> ranks).
Proof.
  intros Ht.
  assert (Hall : Forall (λ x : list Q, length x = numel t)
                   ((λ p, input_of p i) <$> ranks)).
  { apply Forall_fmap, Forall_lookup. intros r p Hr. simpl.
    eapply length_input; eassumption. }
  set (c := chunk_sz (length ranks) (numel t)).
  set (m := partition_length (length ranks) (numel t) this_rank).
  assert (Htake : ∀ x : list Q, length x = numel t →
            partition_of (length ranks) this_rank x = take m (drop (this_rank * c) x)).
  { intros x Hx. unfold partition_of. rewrite Hx. fold c.
    rewrite <- (take_ge (drop (this_rank * c) x) (numel t - this_rank * c)) at 1
      by (rewrite length_drop; lia).
    rewrite take_take. reflexivity. }
  rewrite (Htake _ (length_vsum _ _ Hall)).
  rewrite (vsum_window (numel t) (this_rank * c) m _
             ltac:(unfold m, partition_length; fold c; lia)).
  rewrite <- list_fmap_compose. f_equal.
  apply list_fmap_ext. intros r p Hr. simpl. symmetry. apply Htake.
  eapply length_input; eassumption.
Qed.

(** The call of one rank of the group: each output holds the sum, over
    the ranks, of their divided partitions. *)
Lemma group_outputs (this_rank : nat) (σ : process) :
  ranks !! this_rank = Some (σ, tensors) →
  ∃ outs σ',
    reduce_scatter_coalesced (uninits this_rank)
      (collective_inputs uninits ranks) this_rank (length ranks) tensors σ
      = Ok (outs, σ')
    ∧ length outs = length tensors
    ∧ ∀ i t, tensors !! i = Some t →
        ∃ out, outs !! i = Some out
          ∧ contents (heap σ') out
            = Dist.vsum (partition_length (length ranks) (numel t) this_rank)
                ((λ p, div_by (length ranks)
                         <$> partition_of (length ranks) this_rank (input_of p i))
                   <$> ranks).
Proof.
  intros Hself.
  assert (Hrank : this_rank < (length ranks)) by (eapply lookup_lt_Some, Hself).
  destruct (ranks_agree _ _ _ Hself) as [Hwf _].
  assert (Hpeers : length (collective_inputs uninits ranks) = (length ranks))
    by (unfold collective_inputs; apply length_imap).
  destruct (reduce_scatter_coalesced_ok (uninits this_rank) (length ranks) this_rank
              world_pos Hrank _ tensors σ tensors_ne Hwf Hpeers)
    as (buf & σ1 & flat & Hfb & _ & Hwb & Hcb & Hnum & _ & Hrun).
  cbv zeta in Hrun.
  assert (Hmine : collective_inputs uninits ranks !! this_rank
                  = Some (div_by (length ranks) <$> flat)).
  { unfold collective_inputs. rewrite list_lookup_imap, Hself. simpl.
    unfold contribution_of. simpl.
    rewrite (contribution_run _ _ _ _ _ Hfb), Hcb. reflexivity. }
  rewrite (list_insert_id _ _ _ Hmine) in Hrun.
  eexists _, _. split; [exact Hrun |]. split; [apply length_imap |].
  intros i t Ht. eexists. split; [rewrite list_lookup_imap, Ht; reflexivity |].
  rewrite heap_set_heap.
  rewrite (output_contents (length ranks) this_rank world_pos Hrank (heap σ1) buf _
             (collective_inputs uninits ranks) tensors i t _ _
             eq_refl eq_refl eq_refl Hwb Hnum peer_lengths Ht).
  apply f_equal. apply peer_windows; assumption.
Qed.

End Group.

(** ** Further facts about the solver *)

Section SolverOrder.
Local Open Scope Z_scope.
Import Solver.

(** Every group size the search loop passes over fails its test. *)
Lemma search_loop_skipped (n : nat) (a w g r : Z) :
  0 < w → search_loop n a w g = Some r →
  ∀ k, 0 ≤ k → g + k * w < r →
    g + k * w < a
    ∧ (a mod (g + k * w) =? 0) && within_limit a (g + k * w) = false.
Proof.
  intros Hw. revert g. induction n as [| n IH]; intros g H k Hk Hlt;
    [discriminate |].
  simpl in H. destruct (Z.ltb_spec g a) as [Hga | Hga].
  - destruct ((a mod g =? 0) && within_limit a g) eqn:Htest.
    + injection H as <-. nia.
    + destruct (Z.eq_dec k 0) as [-> | Hk0].
      * rewrite Z.mul_0_l, Z.add_0_r. auto.
      * replace (g + k * w) with (g + w + (k - 1) * w) in * by lia.
        apply (IH (g + w) H (k - 1)); lia.
  - injection H as <-. nia.
Qed.

Lemma search_loop_upper (n : nat) (a w g r : Z) :
  0 < w → a mod w = 0 → g mod w = 0 → g ≤ a →
  search_loop n a w g = Some r → r ≤ a.
Proof.
  intros Hw Ha. revert g. induction n as [| n IH]; intros g Hg Hle H;
    [discriminate |].
  simpl in H. destruct (Z.ltb_spec g a) as [Hga | Hga].
  - destruct ((a mod g =? 0) && within_limit a g).
    + injection H as <-. lia.
    + apply (IH (g + w)); [| | exact H].
      * rewrite Z.add_mod, Hg, Z.mod_same by lia. reflexivity.
      * apply next_multiple_le; assumption.
  - injection H as <-. lia.
Qed.

Lemma solve_is_search (fuel : nat) (a w g : Z) :
  0 < w → 0 < a → a mod w = 0 →
  solve fuel a w = Some g → search_loop fuel a w w = Some g.
Proof.
  intros Hw Ha Hmod H. unfold solve in H.
  destruct (search_loop fuel a w w) as [c |] eqn:Hs; [| discriminate].
  pose proof (candidate_within_limit fuel a w c Hw Ha Hmod Hs) as Hlim.
  destruct fuel as [| fuel]; [discriminate |]. simpl in H.
  rewrite (doubling_cond_within _ _ Hlim) in H. exact H.
Qed.

(** A buffer of at most 40960 elements per rank gets one group per
    rank. *)
Lemma solve_small (fuel : nat) (a w : Z) :
  0 < w → 0 < a → a mod w = 0 → a ≤ max_elems_per_intra_group * w →
  solve (S fuel) a w = Some w.
Proof.
  intros Hw Ha Hmod Hsmall.
  assert (Hlim : within_limit a w = true) by (apply within_limit_iff; lia).
  unfold solve. simpl. rewrite Hlim.
  apply Z.eqb_eq in Hmod. rewrite Hmod. simpl.
  destruct (w <? a); rewrite (doubling_cond_within _ _ Hlim); reflexivity.
Qed.

(** The solver never goes below one group per rank. *)
Lemma solve_ge_world (fuel : nat) (a w g : Z) :
  0 < w → 0 ≤ a → a mod w = 0 → solve fuel a w = Some g → w ≤ g.
Proof.
  intros Hw Ha Hmod H. unfold solve in H.
  destruct (search_loop fuel a w w) as [c |] eqn:Hs; [| discriminate].
  assert (Hrange : a = 0 ∨ w ≤ a).
  { destruct (Z.eq_dec a 0) as [| Hne]; [auto | right].
    apply positive_multiple_ge; [assumption | lia | assumption]. }
  destruct (search_loop_result fuel a w w c Hw Hw Hmod
              (Z.mod_same w ltac:(lia)) Hrange Hs) as (Hle & _ & _ & Hlim).
  destruct fuel as [| fuel]; [discriminate |]. simpl in H.
  rewrite (doubling_cond_within _ _ Hlim) in H. injection H as <-. exact Hle.
Qed.

End SolverOrder.

(** ** Further facts about the quantized path *)

Lemma bind_raise {A B} (c : M A) (k : A → M B) (σ : process) (e : exn) :
  c σ = Raise e → bind c k σ = Raise e.
Proof. intros H. unfold bind. rewrite H. reflexivity. Qed.

Lemma padded_size_bounds (world n : nat) :
  0 < world → n ≤ world * chunk_sz world n < n + world.
Proof.
  intros Hw. unfold chunk_sz.
  pose proof (Nat.div_mod_eq (n + world - 1) world) as Hdiv.
  pose proof (Nat.mod_upper_bound (n + world - 1) world ltac:(lia)) as Hmod.
  lia.
Qed.

(** The aligned size is the padded partition size times the world size. *)
Lemma aligned_size_of_spec (world n : nat) :
  0 < world →
  aligned_size_of world n = world * chunk_sz world n
  ∧ n ≤ aligned_size_of world n < n + world
  ∧ aligned_size_of world n `mod` world = 0
  ∧ aligned_size_of world n `div` world = chunk_sz world n.
Proof.
  intros Hw.
  pose proof (Nat.div_mod_eq n world) as Hn.
  pose proof (Nat.mod_upper_bound n world ltac:(lia)) as Hr.
  pose proof (padded_size_bounds world n Hw) as Hc.
  set (q := n `div` world) in *. set (r := n `mod` world) in *.
  set (c := chunk_sz world n) in *.
  assert (Ha : aligned_size_of world n = world * c).
  { unfold aligned_size_of. fold r. destruct (decide (r ≠ 0)) as [Hr0 | Hr0].
    - assert (c = q + 1) by nia. nia.
    - assert (c = q) by nia. nia. }
  rewrite Ha. split; [reflexivity |]. split; [lia |]. split.
  - rewrite Nat.mul_comm. apply Nat.Div0.mod_mul.
  - rewrite Nat.mul_comm. apply Nat.div_mul. lia.
Qed.

Section QuantizedFacts.
Variable uninit : nat → nat → Q.
Variable quantized_exchange : nat → topology → list Q → Z → Z → list Q.
Variable peers : nat → list (list Q).

(** The calls before the loop (lines 32-42). *)
Lemma traced_call_unfold (topo : topology) (tensors : list Tensor)
    (σ : process) :
  local_world_size topo ≠ 0 →
  all_to_all_quant_reduce_traced uninit quantized_exchange peers topo tensors σ
  = (let* st := reduce_each uninit quantized_exchange peers topo
                  (global_world_size topo `div` local_world_size topo)
                  {| output_lst := replicate (length tensors) None;
                     intra_group_cache := ∅;
                     events := [] |}
                  0 tensors in
     ret (output_lst st, events st)) (loaded σ).
Proof.
  intros Hl. unfold all_to_all_quant_reduce_traced, floor_div, modulo.
  rewrite !decide_False by exact Hl.
  destruct σ as [h [|]]; reflexivity.
Qed.

Lemma align_numel (t flat : Tensor) (world : nat) (σ σ' : process) :
  align uninit t world σ = Ok (flat, σ') →
  world ≠ 0 ∧ numel flat = aligned_size_of world (numel t).
Proof.
  unfold align, modulo. destruct (decide (world = 0)) as [| Hw];
    [discriminate |].
  intros H. split; [exact Hw |].
  inv_bind H. apply ret_inv in Hrun. injection Hrun as ? ?; subst.
  inv_bind H. unfold Torch.empty in Hrun. injection Hrun as ? ?; subst.
  do 2 inv_bind H. apply ret_inv in H. injection H as ? ?; subst.
  reflexivity.
Qed.

Lemma assert_inv (b : bool) (σ σ' : process) (u : unit) :
  assert b σ = Ok (u, σ') → b = true.
Proof. destruct b; [reflexivity | discriminate]. Qed.

Lemma narrow_inv (t out : Tensor) (start len : nat) (σ σ' : process) :
  Torch.narrow t start len σ = Ok (out, σ') → numel out = len.
Proof.
  unfold Torch.narrow. destruct (decide (start + len ≤ numel t));
    [| discriminate].
  intros H. apply ret_inv in H. injection H as ? ?; subst. reflexivity.
Qed.

(** One turn of the loop, when it does not raise. *)
Lemma reduce_one_inv (topo : topology) (num_nodes : nat)
    (st st' : loop_state) (idx : nat) (t : Tensor) (σ σ' : process) :
  reduce_one uninit quantized_exchange peers topo num_nodes st idx t σ
    = Ok (st', σ') →
  output_lst st !! idx = Some None →
  length (output_lst st') = length (output_lst st)
  ∧ (∀ j, j ≠ idx → output_lst st' !! j = output_lst st !! j)
  ∧ (∃ slot, output_lst st' !! idx = Some slot ∧ slot_ok topo t slot)
  ∧ length (events st')
    = length (events st) + (if decide (dim t = 1) then 0 else 1).
Proof.
  intros H Hidx. pose proof (lookup_lt_Some _ _ _ Hidx) as Hlt.
  unfold reduce_one in H. unfold slot_ok.
  destruct (decide (dim t = 1)) as [Hd | Hd].
  - do 2 inv_bind H. apply ret_inv in H. injection H as ? ?; subst. simpl.
    split; [apply length_insert |].
    split; [intros j Hj; apply list_lookup_insert_ne; congruence |].
    split; [| lia].
    eexists. split; [apply list_lookup_insert_eq; exact Hlt | eauto].
  - inv_bind H. rename a into flat_tensor.
    destruct (align_numel _ _ _ _ _ Hrun) as [Hw Hal].
    destruct (aligned_size_of_spec (global_world_size topo) (numel t)
                ltac:(lia)) as (_ & _ & _ & Hps).
    do 3 inv_bind H. inv_bind H. rename a2 into partition_size.
    unfold floor_div in Hrun3. rewrite decide_False in Hrun3 by exact Hw.
    apply ret_inv in Hrun3. injection Hrun3 as ? ?; subst.
    rewrite Hal, Hps in H.
    set (ps := chunk_sz (global_world_size topo) (numel t)) in *.
    apply bind_inv in H as (outs & σb & Hbr & H).
    apply ret_inv in H. injection H as ? ?; subst. simpl.
    rewrite length_app. simpl.
    destruct (decide (ps * this_rank topo < numel t
                      ∧ ps * this_rank topo + ps ≤ numel t)) as [[Hs He] | Hn].
    + apply bind_inv in Hbr as (out & σc & Hmean & Hbr).
      apply bind_inv in Hbr as (u & σd & Hassert & Hbr).
      apply ret_inv in Hbr. injection Hbr as ? ?; subst.
      apply assert_inv, bool_decide_eq_true in Hassert.
      split; [apply length_insert |].
      split; [intros j Hj; apply list_lookup_insert_ne; congruence |].
      split; [| lia]. eexists.
      split; [apply list_lookup_insert_eq; exact Hlt |].
      rewrite decide_True by exact Hs. eexists. split; [reflexivity |].
      split; [| left; exact He].
      rewrite Hassert. unfold partition_length. fold ps. lia.
    + destruct (decide (ps * this_rank topo < numel t)) as [Hs | Hs].
      * apply bind_inv in Hbr as (out & σc & Hmean & Hbr).
        apply bind_inv in Hbr as (cut & σd & Hnarrow & Hbr).
        apply bind_inv in Hbr as (u & σe & Hassert & Hbr).
        apply ret_inv in Hbr. injection Hbr as ? ?; subst.
        apply assert_inv, bool_decide_eq_true in Hassert.
        apply narrow_inv in Hnarrow.
        split; [apply length_insert |].
        split; [intros j Hj; apply list_lookup_insert_ne; congruence |].
        split; [| lia]. eexists.
        split; [apply list_lookup_insert_eq; exact Hlt |].
        eexists. split; [reflexivity |].
        split; [| right; exact Hassert].
        rewrite Hnarrow. unfold partition_length. fold ps. lia.
      * apply ret_inv in Hbr. injection Hbr as ? ?; subst.
        split; [reflexivity |]. split; [reflexivity |].
        split; [| lia]. exists None. split; [exact Hidx | reflexivity].
Qed.

(** The loop, when it does not raise. *)
Lemma reduce_each_inv (topo : topology) (num_nodes : nat)
    (tensors : list Tensor) :
  ∀ (st st' : loop_state) (idx : nat) (σ σ' : process),
    reduce_each uninit quantized_exchange peers topo num_nodes st idx tensors σ
      = Ok (st', σ') →
    (∀ k, k < length tensors → output_lst st !! (idx + k) = Some None) →
    length (output_lst st') = length (output_lst st)
    ∧ (∀ j, j < idx → output_lst st' !! j = output_lst st !! j)
    ∧ (∀ k t, tensors !! k = Some t →
         ∃ slot, output_lst st' !! (idx + k) = Some slot ∧ slot_ok topo t slot)
    ∧ length (events st')
      = length (events st) + length (filter (λ t, dim t ≠ 1) tensors).
Proof.
  induction tensors as [| t rest IH]; intros st st' idx σ σ' H Hnone;
    simpl in H.
  - apply ret_inv in H. injection H as ? ?; subst. simpl.
    repeat split; try lia. intros k t Hk. rewrite lookup_nil in Hk.
    discriminate.
  - inv_bind H.
    pose proof (Hnone 0 ltac:(simpl; lia)) as H0. rewrite Nat.add_0_r in H0.
    destruct (reduce_one_inv _ _ _ _ _ _ _ _ Hrun H0)
      as (Hlen1 & Hoth1 & (slot & Hslot & Hok) & Hev1).
    destruct (IH _ _ _ _ _ H) as (Hlen2 & Hoth2 & Hrest & Hev2).
    { intros k Hk. rewrite Hoth1 by lia.
      replace (S idx + k) with (idx + S k) by lia. apply Hnone. simpl. lia. }
    split; [congruence |].
    split; [intros j Hj; rewrite Hoth2 by lia; apply Hoth1; lia |].
    split.
    + intros [| k] t' Hk; simpl in Hk.
      * injection Hk as <-. rewrite Nat.add_0_r, Hoth2 by lia. eauto.
      * replace (idx + S k) with (S idx + k) by lia. apply Hrest, Hk.
    + rewrite Hev2, Hev1. rewrite filter_cons.
      destruct (decide (dim t = 1)) as [Hd | Hd].
      * rewrite decide_False by (intros Hne; apply Hne, Hd). lia.
      * rewrite decide_True by exact Hd. simpl. lia.
Qed.

(** The whole call, when it does not raise. *)
Lemma traced_call_inv (topo : topology) (tensors : list Tensor)
    (σ σ' : process) (outs : list (option Tensor)) (evs : list cache_event) :
  all_to_all_quant_reduce_traced uninit quantized_exchange peers topo tensors σ
    = Ok ((outs, evs), σ') →
  local_world_size topo ≠ 0
  ∧ length outs = length tensors
  ∧ (∀ i t, tensors !! i = Some t →
       ∃ slot, outs !! i = Some slot ∧ slot_ok topo t slot)
  ∧ length evs = length (filter (λ t, dim t ≠ 1) tensors).
Proof.
  intros H.
  assert (Hl : local_world_size topo ≠ 0).
  { intros Hl. unfold all_to_all_quant_reduce_traced, floor_div in H.
    rewrite Hl in H. destruct σ as [h [|]]; discriminate. }
  split; [exact Hl |].
  rewrite traced_call_unfold in H by exact Hl.
  apply bind_inv in H as (st & σ1 & Hloop & H).
  apply ret_inv in H. injection H as ? ? ?; subst.
  destruct (reduce_each_inv _ _ _ _ _ _ _ _ Hloop)
    as (Hlen & _ & Hslots & Hev).
  { intros k Hk. simpl. apply lookup_replicate_2. lia. }
  simpl in Hlen, Hev. rewrite length_replicate in Hlen.
  split; [exact Hlen |]. split; [| exact Hev].
  intros i t Hi. apply (Hslots i t Hi).
Qed.

End QuantizedFacts.

(** ** Claims about the solver *)

(** C5: for every aligned size that is a positive multiple of the world
    size, the solver (search loop, then doubling loop) terminates: with
    any fuel above the aligned size it returns the same group size [g];
    [g] is a multiple of the world size, divides the aligned size, and
    [aligned_size / g <= 40960]. *)
Theorem solver_terminates_within_ceiling (aligned_size global_world_size : Z) :
  (0 < global_world_size)%Z → (0 < aligned_size)%Z →
  (aligned_size `mod` global_world_size = 0)%Z →
  ∃ g : Z,
    (∀ fuel, Z.to_nat aligned_size < fuel →
             Solver.solve fuel aligned_size global_world_size = Some g)
    ∧ (g `mod` global_world_size = 0)%Z
    ∧ (aligned_size `mod` g = 0)%Z
    ∧ (Solver.true_div aligned_size g <= inject_Z 40960)%Q
    ∧ (aligned_size `div` g ≤ 40960)%Z.
Proof.
  intros Hw Ha Hmod.
  destruct (solve_spec aligned_size global_world_size Hw ltac:(lia) Hmod)
    as (g & Hsolve & Hg & Hgw & Hag & Hlim).
  exists g. repeat split; try assumption.
  - apply Qle_bool_iff. exact Hlim.
  - apply within_limit_iff in Hlim; [| exact Hg].
    unfold Solver.max_elems_per_intra_group in Hlim.
    apply Z.div_le_upper_bound; lia.
Qed.

Lemma solver_terminates_within_ceiling_witness :
  ∃ g : Z,
    (∀ fuel, Z.to_nat 24 < fuel → Solver.solve fuel 24 8 = Some g)
    ∧ (g `mod` 8 = 0)%Z ∧ (24 `mod` g = 0)%Z
    ∧ (Solver.true_div 24 g <= inject_Z 40960)%Q
    ∧ (24 `div` g ≤ 40960)%Z.
Proof.
  apply (solver_terminates_within_ceiling 24 8); [lia | lia | reflexivity].
Defined.

(** C6, as stated, fails: no aligned size that is a positive multiple of
    the world size reaches the doubling loop with the test of lines 69-70
    true. *)
Lemma doubling_loop_never_engages :
  ¬ ∃ (aligned_size global_world_size : Z) (fuel : nat) (candidate : Z),
      (0 < global_world_size)%Z ∧ (0 < aligned_size)%Z
      ∧ (aligned_size `mod` global_world_size = 0)%Z
      ∧ Solver.search_loop fuel aligned_size global_world_size
                           global_world_size = Some candidate
      ∧ Solver.doubling_cond aligned_size candidate = true.
Proof.
  intros (a & w & fuel & g & Hw & Ha & Hmod & Hsearch & Hcond).
  pose proof (candidate_within_limit fuel a w g Hw Ha Hmod Hsearch) as Hlim.
  rewrite (doubling_cond_within _ _ Hlim) in Hcond. discriminate.
Qed.

(** C6, amended: whenever the search loop hands a candidate to the
    doubling loop (aligned size a positive multiple of the world size),
    [aligned_size / candidate <= 40960] already holds, the test of the
    doubling loop is false, and the doubling loop returns the candidate
    unchanged. *)
Theorem doubling_loop_returns_candidate
    (aligned_size global_world_size : Z) (fuel : nat) (candidate : Z) :
  (0 < global_world_size)%Z → (0 < aligned_size)%Z →
  (aligned_size `mod` global_world_size = 0)%Z →
  Solver.search_loop fuel aligned_size global_world_size global_world_size
    = Some candidate →
  (Solver.true_div aligned_size candidate <= inject_Z 40960)%Q
  ∧ Solver.doubling_cond aligned_size candidate = false
  ∧ ∀ fuel', Solver.doubling_loop (S fuel') aligned_size candidate
             = Some candidate.
Proof.
  intros Hw Ha Hmod Hsearch.
  pose proof (candidate_within_limit fuel aligned_size global_world_size
                candidate Hw Ha Hmod Hsearch) as Hlim.
  split; [apply Qle_bool_iff; exact Hlim |].
  split; [apply doubling_cond_within; exact Hlim |].
  intros fuel'. simpl. rewrite (doubling_cond_within _ _ Hlim). reflexivity.
Qed.

Lemma doubling_loop_returns_candidate_witness :
  (Solver.true_div 24 8 <= inject_Z 40960)%Q
  ∧ Solver.doubling_cond 24 8 = false
  ∧ ∀ fuel', Solver.doubling_loop (S fuel') 24 8 = Some 8%Z.
Proof.
  apply (doubling_loop_returns_candidate 24 8 5 8); [lia | lia | reflexivity | reflexivity].
Defined.

(** C7, as stated, fails in both directions.  With world size 1 and a
    buffer of 5 elements the solver's single group ([g = 1],
    [aligned_size / g = 5 = numel]) passes every check; with world size 8
    and a buffer of 8 elements, [g = 8] divides the aligned size, is a
    multiple of the world size and has [aligned_size / g = 1 < numel],
    yet the call is refused. *)
Lemma numel_check_is_not_elems_per_group :
  (intra_quant_group_for ∅ 5 1 5 (Process [] false)
     = Ok ((1%Z, <[5%Z := 1%Z]> ∅, CacheMiss 5 1), Process [] false)
   ∧ ¬ (Solver.true_div 5 1 < inject_Z 5)%Q)
  ∧ (Solver.solve (Solver.fuel_for 8) 8 8 = Some 8%Z
     ∧ (Solver.true_div 8 8 < inject_Z 8)%Q
     ∧ intra_quant_group_for ∅ 8 8 8 (Process [] false)
       = Raise AssertionError).
Proof.
  split; [split | split; [| split]].
  - rewrite (intra_quant_group_for_miss ∅ 5 1 5 1); reflexivity.
  - apply Qle_not_lt. apply true_div_ge; lia.
  - reflexivity.
  - apply true_div_lt; lia.
  - rewrite (intra_quant_group_for_miss ∅ 8 8 8 8); reflexivity.
Qed.

(** C7, amended: on a cache miss, for a buffer of [numel] elements
    aligned to [aligned_size], the solver's result [g] divides the aligned
    size, is a multiple of the world size and has
    [aligned_size / g <= 40960]; the one check that can fail is
    [numel > g]: the call raises [AssertionError] exactly when
    [numel <= g], and otherwise caches and returns [g].  With a world size
    of at least 2 an accepted [g] also has [aligned_size / g < numel]. *)
Theorem solver_checks (cache : gmap Z Z)
    (tensor_numel aligned_size global_world_size : Z) (σ : process) :
  (0 < global_world_size)%Z →
  (tensor_numel ≤ aligned_size < tensor_numel + global_world_size)%Z →
  (0 ≤ tensor_numel)%Z →
  (aligned_size `mod` global_world_size = 0)%Z →
  cache !! aligned_size = None →
  ∃ g : Z,
    Solver.solve (Solver.fuel_for aligned_size) aligned_size global_world_size
      = Some g
    ∧ (g `mod` global_world_size = 0)%Z
    ∧ (aligned_size `mod` g = 0)%Z
    ∧ (Solver.true_div aligned_size g <= inject_Z 40960)%Q
    ∧ ((tensor_numel ≤ g)%Z →
         intra_quant_group_for cache aligned_size global_world_size
           tensor_numel σ = Raise AssertionError)
    ∧ ((g < tensor_numel)%Z →
         intra_quant_group_for cache aligned_size global_world_size
           tensor_numel σ
         = Ok ((g, <[aligned_size := g]> cache, CacheMiss aligned_size g), σ)
         ∧ ((2 ≤ global_world_size)%Z →
              (Solver.true_div aligned_size g < inject_Z tensor_numel)%Q)).
Proof.
  intros Hw Hrange Hn Hmod Hc.
  destruct (solve_spec aligned_size global_world_size Hw ltac:(lia) Hmod)
    as (g & Hsolve & Hg & Hgw & Hag & Hlim).
  specialize (Hsolve (Solver.fuel_for aligned_size) ltac:(unfold Solver.fuel_for; lia)).
  pose proof (intra_quant_group_for_miss cache _ _ tensor_numel g σ Hc Hsolve Hgw Hlim)
    as Hrun.
  exists g. split; [exact Hsolve |]. split; [exact Hgw |]. split; [exact Hag |].
  split; [apply Qle_bool_iff; exact Hlim |].
  split.
  - intros Hle. rewrite Hrun.
    destruct (Z.ltb_spec g tensor_numel); [lia | reflexivity].
  - intros Hlt. rewrite Hrun.
    destruct (Z.ltb_spec g tensor_numel); [| lia].
    split; [reflexivity |]. intros H2.
    apply true_div_lt; [exact Hg |].
    assert (global_world_size ≤ g)%Z
      by (apply positive_multiple_ge; assumption).
    assert (2 * tensor_numel ≤ tensor_numel * g)%Z by nia.
    lia.
Qed.

Lemma solver_checks_witness :
  ∃ g : Z,
    Solver.solve (Solver.fuel_for 24) 24 8 = Some g
    ∧ (g `mod` 8 = 0)%Z ∧ (24 `mod` g = 0)%Z
    ∧ (Solver.true_div 24 g <= inject_Z 40960)%Q
    ∧ ((17 ≤ g)%Z →
         intra_quant_group_for ∅ 24 8 17 (Process [] false)
         = Raise AssertionError)
    ∧ ((g < 17)%Z →
         intra_quant_group_for ∅ 24 8 17 (Process [] false)
         = Ok ((g, <[24%Z := g]> ∅, CacheMiss 24 g), Process [] false)
         ∧ ((2 ≤ 8)%Z → (Solver.true_div 24 g < inject_Z 17)%Q)).
Proof.
  apply (solver_checks ∅ 17 24 8 (Process [] false));
    [lia | lia | lia | reflexivity | reflexivity].
Defined.

(** C8, as stated, fails: a second call with the same buffer (8 elements,
    world size 4) does not find the group size of the first call; both
    calls run the solver ([CacheMiss]), the cache being a local variable
    created at line 42 of each call. *)
Lemma second_call_runs_solver_again :
  let exchange := λ (_ : nat) (_ : topology) (flat : list Q) (_ _ : Z), take 2 flat in
  let call := all_to_all_quant_reduce_traced (λ _ _, 0%Q) exchange (λ _, [])
                (Topology 4 4 1) [mkTensor 0 0 8 2] in
  match call (Process [replicate 8 1%Q] false) with
  | Ok ((_, events1), σ1) =>
      events1 = [CacheMiss 8 4]
      ∧ match call σ1 with
        | Ok ((_, events2), _) => events2 = [CacheMiss 8 4]
        | Raise _ => False
        end
  | Raise _ => False
  end.
Proof. vm_compute. split; reflexivity. Qed.

(** C8, amended: the cache is keyed by aligned element count and lives
    for one call.  In two consecutive calls that return, a lookup of the
    second call is a hit exactly when an earlier lookup of that same call
    had the same aligned size (so its first lookup always runs the
    solver, whatever the first call cached); every lookup, hit or miss,
    yields the solver's result, so equal aligned sizes get the identical
    group size in both calls. *)
Theorem cache_lives_for_one_call
    (uninit : nat → nat → Q)
    (exchange1 exchange2 : nat → topology → list Q → Z → Z → list Q)
    (peers1 peers2 : nat → list (list Q))
    (topo : topology) (tensors1 tensors2 : list Tensor)
    (σ σ1 σ2 : process) (outs1 outs2 : list (option Tensor))
    (events1 events2 : list cache_event) :
  all_to_all_quant_reduce_traced uninit exchange1 peers1 topo tensors1 σ
    = Ok ((outs1, events1), σ1) →
  all_to_all_quant_reduce_traced uninit exchange2 peers2 topo tensors2 σ1
    = Ok ((outs2, events2), σ2) →
  (∀ k e, events2 !! k = Some e →
          (is_hit e = true ↔ event_size e ∈ event_size <$> take k events2))
  ∧ (∀ e, head events2 = Some e → is_hit e = false)
  ∧ (∀ e1 e2, e1 ∈ events1 → e2 ∈ events2 →
              event_size e1 = event_size e2 → event_group e1 = event_group e2).
Proof.
  intros H1 H2.
  apply traced_call_trace in H1. apply traced_call_trace in H2.
  split; [| split].
  - intros k e Hk. apply (H2 k e Hk).
  - intros e He. destruct events2 as [| e0 rest]; [discriminate |].
    injection He as ->. destruct (H2 0 e eq_refl) as [_ Hhit].
    destruct (is_hit e); [| reflexivity].
    destruct Hhit as [Hin _]. specialize (Hin eq_refl).
    simpl in Hin. apply elem_of_nil in Hin. destruct Hin.
  - intros e1 e2 He1 He2 Hsz.
    apply list_elem_of_lookup in He1 as [k1 Hk1].
    apply list_elem_of_lookup in He2 as [k2 Hk2].
    destruct (H1 k1 e1 Hk1) as [Hs1 _]. destruct (H2 k2 e2 Hk2) as [Hs2 _].
    rewrite Hsz in Hs1. congruence.
Qed.

Lemma cache_lives_for_one_call_witness :
  let exchange := λ (_ : nat) (_ : topology) (flat : list Q) (_ _ : Z), take 2 flat in
  let σ1 := Process [replicate 8 1%Q; replicate 8 1%Q; replicate 2 1%Q;
                     [0 + 1; 0 + 1]%Q] true in
  let σ2 := Process [replicate 8 1%Q; replicate 8 1%Q; replicate 2 1%Q;
                     [0 + 1; 0 + 1]%Q; replicate 8 1%Q; replicate 2 1%Q;
                     [0 + 1; 0 + 1]%Q] true in
  let events := [CacheMiss 8 4] in
  (∀ k e, events !! k = Some e →
          (is_hit e = true ↔ event_size e ∈ event_size <$> take k events))
  ∧ (∀ e, head events = Some e → is_hit e = false)
  ∧ (∀ e1 e2, e1 ∈ events → e2 ∈ events →
              event_size e1 = event_size e2 → event_group e1 = event_group e2).
Proof.
  intros exchange σ1 σ2 events.
  apply (cache_lives_for_one_call (λ _ _, 0%Q) exchange exchange (λ _, []) (λ _, [])
           (Topology 4 4 1) [mkTensor 0 0 8 2] [mkTensor 0 0 8 2]
           (Process [replicate 8 1%Q] false) σ1 σ2
           [Some (mkTensor 3 0 2 1)] [Some (mkTensor 6 0 2 1)]).
  - vm_compute. reflexivity.
  - vm_compute. reflexivity.
Defined.

(** ** The last step of the quantized path (lines 99-110) *)

(** C2 at the failing input: world size 8 on one node, a two-dimensional
    buffer of 17 elements (aligned size 24, partitions of 3).  The window
    of rank 6 starts at 18, past the data: neither branch of lines 102-110
    assigns the slot, and the call returns [[None]]. *)
Theorem output_slot_left_unfilled
    (uninit : nat → nat → Q)
    (quantized_exchange : nat → topology → list Q → Z → Z → list Q)
    (peers : nat → list (list Q)) :
  ∃ σ',
    all_to_all_quant_reduce uninit quantized_exchange peers
      (Topology 8 8 6) [mkTensor 0 0 17 2] (Process [replicate 17 1%Q] false)
    = Ok ([None], σ').
Proof. eexists. vm_compute. reflexivity. Qed.

(** C9 at the failing input: same buffer, rank 5.  Its window [15, 18)
    runs past the 17 elements, the output is cut to 2 elements, and the
    assertion of line 110 fails, rank 5 not being the last rank. *)
Theorem truncation_assertion_fails
    (uninit : nat → nat → Q) (peers : nat → list (list Q)) (a b c : Q) :
  all_to_all_quant_reduce uninit (λ _ _ _ _ _, [a; b; c]) peers
    (Topology 8 8 5) [mkTensor 0 0 17 2] (Process [replicate 17 1%Q] false)
  = Raise AssertionError.
Proof. vm_compute. reflexivity. Qed.

(** ** Claims about [reduce_scatter_coalesced] *)




Lemma chunk_sz_ceiling (world_sz n : nat) :
  0 < world_sz →
  n ≤ world_sz * chunk_sz world_sz n < n + world_sz.
Proof.
  intros Hw. unfold chunk_sz.
  pose proof (Nat.div_mod_eq (n + world_sz - 1) world_sz) as Hdiv.
  pose proof (Nat.mod_upper_bound (n + world_sz - 1) world_sz ltac:(lia)) as Hmod.
  lia.
Qed.

(** C4: for every list of input buffers, every world size above 0 and
    every rank of the group, the call returns one output per input and the
    output at [i] has exactly [partition_length] elements, that is
    [min (ceil (numel / world_sz), max (0, numel - rank * ceil (numel / world_sz)))]:
    the length of the partition sliced for this rank before the
    interleaving, the short tail partition included. *)
Theorem output_has_partition_length
    (uninit : nat → nat → Q) (peers : list (list Q))
    (world_sz this_rank : nat) (tensors : list Tensor) (σ : process)
    (i : nat) (t : Tensor) :
  0 < world_sz → this_rank < world_sz → length peers = world_sz →
  Forall (wf_tensor (heap σ)) tensors →
  tensors !! i = Some t →
  ∃ outs σ' out,
    reduce_scatter_coalesced uninit peers this_rank world_sz tensors σ
      = Ok (outs, σ')
    ∧ length outs = length tensors
    ∧ outs !! i = Some out
    ∧ numel out = numel (part world_sz t this_rank)
    ∧ numel out = partition_length world_sz (numel t) this_rank
    ∧ (let c := Z.of_nat (chunk_sz world_sz (numel t)) in
       Z.of_nat (numel out)
       = c `min` (0 `max` (Z.of_nat (numel t) - Z.of_nat this_rank * c)))%Z
    ∧ numel t ≤ world_sz * chunk_sz world_sz (numel t) < numel t + world_sz.
Proof.
  intros Hw Hrank Hpeers Hwf Ht.
  assert (Hne : tensors ≠ []) by (intros ->; discriminate).
  destruct (reduce_scatter_coalesced_ok uninit world_sz this_rank Hw Hrank
              peers tensors σ Hne Hwf Hpeers)
    as (buf & σ1 & flat & _ & _ & _ & _ & _ & _ & Hrun).
  cbv zeta in Hrun. eexists _, _, _. split; [exact Hrun |].
  split; [apply length_imap |].
  split; [rewrite list_lookup_imap, Ht; reflexivity |].
  split; [symmetry; apply numel_part, Hw |].
  split; [reflexivity |]. split; [| apply chunk_sz_ceiling, Hw].
  simpl. unfold partition_length. lia.
Qed.

Lemma output_has_partition_length_witness :
  ∃ outs σ' out,
    reduce_scatter_coalesced (λ _ _, 0%Q) (replicate 4 (replicate 12 1%Q)) 3 4
      [mkTensor 0 0 10 1] (Process [replicate 10 1%Q] false)
      = Ok (outs, σ')
    ∧ length outs = 1
    ∧ outs !! 0 = Some out
    ∧ numel out = numel (part 4 (mkTensor 0 0 10 1) 3)
    ∧ numel out = partition_length 4 10 3
    ∧ (let c := Z.of_nat (chunk_sz 4 10) in
       Z.of_nat (numel out)
       = c `min` (0 `max` (Z.of_nat 10 - Z.of_nat 3 * c)))%Z
    ∧ 10 ≤ 4 * chunk_sz 4 10 < 10 + 4.
Proof.
  apply (output_has_partition_length (λ _ _, 0%Q) (replicate 4 (replicate 12 1%Q))
           4 3 [mkTensor 0 0 10 1] (Process [replicate 10 1%Q] false) 0
           (mkTensor 0 0 10 1)); [lia | lia | reflexivity | | reflexivity].
  apply Forall_singleton. exists (replicate 10 1%Q). split; [reflexivity |].
  simpl. lia.
Defined.

(** C3, as stated, fails: the filler is what the allocator leaves in a
    [torch.empty] buffer.  With an allocator whose fresh memory holds
    ones, the interleaved buffer of a 10-element tensor over 4 ranks ends
    in two ones (the padding of the last partition), and the aligned
    buffer of a 5-element tensor for 4 ranks ends in three ones. *)
Lemma filler_not_zero :
  let ones := λ _ _ : nat, 1%Q in
  match (let* partition_lst_for_each_tensor := partition_lst [mkTensor 0 0 10 1] 4 in
         let* padded_partition_sz_for_each_tensor :=
           padded_partition_sz [mkTensor 0 0 10 1] 4 in
         let* flat_buffer :=
           interleave ones [mkTensor 0 0 10 1] 4 partition_lst_for_each_tensor
                      padded_partition_sz_for_each_tensor in
         read flat_buffer) (Process [replicate 10 0%Q] false) with
  | Ok (flat, _) => drop 10 flat = [1%Q; 1%Q]
  | Raise _ => False
  end
  ∧ match (let* flat_tensor := align ones (mkTensor 0 0 5 2) 4 in
           read flat_tensor) (Process [replicate 5 0%Q] false) with
    | Ok (flat, _) => drop 5 flat = [1%Q; 1%Q; 1%Q]
    | Raise _ => False
    end.
Proof. vm_compute. split; reflexivity. Qed.

(** C3, amended: the filler elements are not initialised.  In the general
    path of [reduce_scatter_coalesced] the interleaved buffer holds, for
    each rank in turn and each tensor, the partition followed by filler
    up to the padded partition size, and every filler element is a value
    the allocator handed out; in the alignment step of
    [all_to_all_quant_reduce] the aligned buffer holds the data followed
    by [padding_size] elements of the freshly allocated storage, exactly
    as the allocator left them. *)
Theorem filler_is_uninitialised
    (uninit : nat → nat → Q) (world_sz : nat) (tensors : list Tensor)
    (σ : process) :
  0 < world_sz → tensors ≠ [] → Forall (wf_tensor (heap σ)) tensors →
  (∃ buf σ' flat,
     (let* partition_lst_for_each_tensor := partition_lst tensors world_sz in
      let* padded_partition_sz_for_each_tensor :=
        padded_partition_sz tensors world_sz in
      interleave uninit tensors world_sz partition_lst_for_each_tensor
                 padded_partition_sz_for_each_tensor) σ = Ok (buf, σ')
     ∧ contents (heap σ') buf = flat
     ∧ interleaved uninit world_sz (heap σ) tensors flat)
  ∧ ∀ t, t ∈ tensors →
      let padding_size :=
        if decide (numel t `mod` world_sz ≠ 0)
        then world_sz - numel t `mod` world_sz else 0 in
      ∃ flat_tensor σ',
        align uninit t world_sz σ = Ok (flat_tensor, σ')
        ∧ numel flat_tensor = numel t + padding_size
        ∧ contents (heap σ') flat_tensor
          = contents (heap σ) t
            ++ (uninit (length (heap σ)) <$> seq (numel t) padding_size).
Proof.
  intros Hw Hne Hwf. split.
  - destruct (interleave_ok uninit world_sz Hw tensors σ Hne Hwf)
      as (buf & σ' & flat & Hrun & Hint & _ & _ & Hbuf & _ & Hoff & Hnum).
    exists buf, σ', flat.
    rewrite (bind_ok _ _ _ _ _ (partition_lst_ok _ Hw _ _)).
    rewrite (bind_ok _ _ _ _ _ (padded_partition_sz_ok _ Hw _ _)).
    split; [exact Hrun |]. split; [| exact Hint].
    unfold contents. rewrite Hbuf, Hoff, Hnum. simpl. apply take_ge. lia.
  - intros t Ht padding_size.
    assert (Hwt : wf_tensor (heap σ) t).
    { eapply (proj1 (Forall_forall _ _)); eassumption. }
    destruct (align_ok uninit world_sz t σ Hw Hwt)
      as (flat_tensor & σ' & Hrun & Hnum & Hcont & _).
    exists flat_tensor, σ'. auto.
Qed.

Lemma filler_is_uninitialised_witness :
  let uninit := λ _ _ : nat, 1%Q in
  let tensors := [mkTensor 0 0 10 2] in
  let σ := Process [replicate 10 0%Q] false in
  (∃ buf σ' flat,
     (let* partition_lst_for_each_tensor := partition_lst tensors 4 in
      let* padded_partition_sz_for_each_tensor := padded_partition_sz tensors 4 in
      interleave uninit tensors 4 partition_lst_for_each_tensor
                 padded_partition_sz_for_each_tensor) σ = Ok (buf, σ')
     ∧ contents (heap σ') buf = flat
     ∧ interleaved uninit 4 (heap σ) tensors flat)
  ∧ ∀ t, t ∈ tensors →
      let padding_size :=
        if decide (numel t `mod` 4 ≠ 0) then 4 - numel t `mod` 4 else 0 in
      ∃ flat_tensor σ',
        align uninit t 4 σ = Ok (flat_tensor, σ')
        ∧ numel flat_tensor = numel t + padding_size
        ∧ contents (heap σ') flat_tensor
          = contents (heap σ) t
            ++ (uninit (length (heap σ)) <$> seq (numel t) padding_size).
Proof.
  intros uninit tensors σ.
  apply (filler_is_uninitialised uninit 4 tensors σ); [lia | discriminate |].
  apply Forall_singleton. exists (replicate 10 0%Q). split; [reflexivity |].
  simpl. lia.
Defined.

(** C10: on the fast path (one tensor, element count a multiple of the
    world size) nothing is allocated and the caller's tensor is written
    in place: after the call it holds its elements divided by the world
    size, except for the chunk of this rank, which holds the
    reduce-scattered result; the returned output is a view of that chunk
    in the caller's storage. *)
Theorem fast_path_overwrites_input
    (uninit : nat → nat → Q) (peers : list (list Q))
    (world_sz this_rank : nat) (t0 : Tensor) (σ : process) :
  0 < world_sz → this_rank < world_sz →
  wf_tensor (heap σ) t0 → numel t0 `mod` world_sz = 0 →
  length peers = world_sz → Forall (λ b, length b = numel t0) peers →
  let c := chunk_sz world_sz (numel t0) in
  let divided := div_by world_sz <$> contents (heap σ) t0 in
  let reduced :=
    Dist.vsum c (Dist.shard c this_rank <$> <[this_rank := divided]> peers) in
  ∃ out σ',
    reduce_scatter_coalesced uninit peers this_rank world_sz [t0] σ
      = Ok ([out], σ')
    ∧ world_sz * c = numel t0
    ∧ length (heap σ') = length (heap σ)
    ∧ contents (heap σ') t0
      = take (this_rank * c) divided ++ reduced
        ++ drop (this_rank * c + c) divided
    ∧ (∀ j x, contents (heap σ) t0 !! j = Some x →
              j < this_rank * c ∨ this_rank * c + c ≤ j →
              contents (heap σ') t0 !! j = Some (div_by world_sz x))
    ∧ storage out = storage t0
    ∧ offset out = offset t0 + this_rank * c
    ∧ numel out = c
    ∧ contents (heap σ') out = reduced.
Proof.
  intros Hw Hrank Hwf Hmod Hpeers Hlens c divided reduced.
  assert (Hc : world_sz * c = numel t0) by (apply chunk_sz_exact; assumption).
  assert (HL : shard_length world_sz [t0] = c)
    by (unfold shard_length; simpl; unfold c; lia).
  pose proof (length_contents _ _ Hwf) as Hlen.
  destruct (reduce_scatter_coalesced_ok uninit world_sz this_rank Hw Hrank
              peers [t0] σ ltac:(discriminate)
              ltac:(apply Forall_singleton; exact Hwf) Hpeers)
    as (buf & σ1 & flat & Hfb & _ & Hwb & Hcb & Hnum & _ & Hrun).
  rewrite (flat_buffer_fast uninit world_sz t0 σ _ _ Hmod) in Hfb.
  injection Hfb as <- <-.
  rewrite heap_set_heap in Hcb, Hrun, Hwb.
  change (div_by world_sz <$> contents (heap σ) t0) with divided in Hcb, Hrun, Hwb.
  set (h1 := store (heap σ) (Torch.view_flat t0) divided) in *.
  assert (Hdiv : contents h1 (Torch.view_flat t0) = divided).
  { unfold h1.
    rewrite (contents_store_window _ (Torch.view_flat t0) _ (Torch.view_flat t0) 0);
      try (reflexivity || (simpl; lia)).
    - rewrite drop_0. apply take_ge. unfold divided. rewrite length_fmap. simpl. lia.
    - apply wf_view_flat, Hwf.
    - unfold divided. rewrite length_fmap. exact Hlen. }
  rewrite Hdiv in Hcb. rewrite <- Hcb in Hrun.
  cbv zeta in Hrun. rewrite HL in Hrun. fold reduced in Hrun.
  simpl imap in Hrun.
  destruct (shard_view_fields world_sz this_rank Hw Hrank (Torch.view_flat t0) c
              ltac:(simpl; lia)) as (Hst & Hoff & Hn).
  set (mine := shard_view this_rank (Torch.view_flat t0) c) in *.
  assert (Hred : length reduced = c).
  { unfold reduced. apply length_vsum, Forall_fmap.
    assert (Hall : Forall (λ b : list Q, length b = world_sz * c)
                     (<[this_rank := divided]> peers)).
    { apply Forall_insert.
      - eapply Forall_impl; [exact Hlens |]. simpl. intros b Hb. lia.
      - unfold divided. rewrite length_fmap. lia. }
    eapply Forall_impl; [exact Hall |]. intros b Hb. simpl.
    eapply length_shard; eassumption. }
  assert (Hin : this_rank * c + c ≤ world_sz * c) by nia.
  eexists _, _. split; [exact Hrun |]. rewrite !heap_set_heap.
  split; [exact Hc |].
  split; [unfold h1; rewrite !length_store; reflexivity |].
  assert (Hnew : contents (store h1 mine reduced) t0
                 = take (this_rank * c) divided ++ reduced
                   ++ drop (this_rank * c + c) divided).
  { rewrite (contents_store_around h1 t0 reduced mine (this_rank * c)).
    - change (contents h1 t0) with (contents h1 (Torch.view_flat t0)).
      rewrite Hdiv, Hn. reflexivity.
    - apply wf_store; [apply wf_view_flat, Hwf | | exact Hwf].
      unfold divided. rewrite length_fmap. exact Hlen.
    - rewrite Hn. exact Hred.
    - exact Hst.
    - exact Hoff.
    - rewrite Hn. lia. }
  assert (Hdlen : length divided = numel t0)
    by (unfold divided; rewrite length_fmap; exact Hlen).
  split; [exact Hnew |].
  split; [| split; [exact Hst | split; [| split]]].
  - intros j x Hj Hout.
    assert (Hdj : divided !! j = Some (div_by world_sz x))
      by (unfold divided; rewrite list_lookup_fmap, Hj; reflexivity).
    rewrite Hnew. destruct Hout as [Hlt | Hge].
    + rewrite lookup_app_l by (rewrite length_take; lia).
      rewrite lookup_take_lt by exact Hlt. exact Hdj.
    + rewrite lookup_app_r by (rewrite length_take; lia).
      rewrite lookup_app_r by (rewrite length_take; lia).
      rewrite lookup_drop, length_take, Hred. rewrite <- Hdj. f_equal. lia.
  - unfold output_view. cbn [offset]. rewrite Hoff. unfold shard_offset.
    simpl. lia.
  - unfold output_view. cbn [numel]. unfold partition_length. fold c. lia.
  - assert (Hout : partition_length world_sz (numel t0) this_rank = c)
      by (unfold partition_length; fold c; lia).
    rewrite (contents_store_window h1 mine reduced _ 0).
    + unfold output_view. cbn [numel]. rewrite Hout, drop_0.
      apply take_ge. lia.
    + destruct Hwb as (s & Hs & Hl). exists s.
      rewrite Hst, Hoff, Hn. split; [exact Hs |]. simpl in Hl. simpl. lia.
    + rewrite Hn. exact Hred.
    + reflexivity.
    + unfold output_view. cbn [offset]. unfold shard_offset. simpl. lia.
    + unfold output_view. cbn [numel]. rewrite Hout, Hn. lia.
Qed.

Lemma fast_path_overwrites_input_witness :
  let uninit := λ _ _ : nat, 0%Q in
  let peers := [[1; 1; 1; 1]; [2; 2; 2; 2]]%Q in
  let t0 := mkTensor 0 0 4 1 in
  let σ := Process [[1; 2; 3; 4]%Q] false in
  let c := chunk_sz 2 (numel t0) in
  let divided := div_by 2 <$> contents (heap σ) t0 in
  let reduced := Dist.vsum c (Dist.shard c 1 <$> <[1 := divided]> peers) in
  ∃ out σ',
    reduce_scatter_coalesced uninit peers 1 2 [t0] σ = Ok ([out], σ')
    ∧ 2 * c = numel t0
    ∧ length (heap σ') = length (heap σ)
    ∧ contents (heap σ') t0
      = take (1 * c) divided ++ reduced ++ drop (1 * c + c) divided
    ∧ (∀ j x, contents (heap σ) t0 !! j = Some x →
              j < 1 * c ∨ 1 * c + c ≤ j →
              contents (heap σ') t0 !! j = Some (div_by 2 x))
    ∧ storage out = storage t0
    ∧ offset out = offset t0 + 1 * c
    ∧ numel out = c
    ∧ contents (heap σ') out = reduced.
Proof.
  intros uninit peers t0 σ.
  apply (fast_path_overwrites_input uninit peers 2 1 t0 σ);
    [lia | lia | | reflexivity | reflexivity | repeat constructor].
  exists [1; 2; 3; 4]%Q. split; [reflexivity | simpl; lia].
Defined.

(** The worked example of the specification: 4 ranks, each with one
    buffer of 10 elements all equal to its rank.  Every element of every
    output is 3/2, and the outputs have 3, 3, 3 and 1 elements. *)
Example ten_elements_over_four_ranks :
  let uninits := λ _ _ _ : nat, 0%Q in
  let rank_state := λ r : Z, (Process [replicate 10 (inject_Z r)] false,
                              [mkTensor 0 0 10 1]) in
  let ranks := rank_state <$> [0; 1; 2; 3]%Z in
  Forall2
    (λ this_rank expected,
       match reduce_scatter_coalesced (uninits this_rank)
               (collective_inputs uninits ranks) this_rank 4
               [mkTensor 0 0 10 1] (Process [replicate 10 (inject_Z (Z.of_nat this_rank))] false) with
       | Ok ([out], σ') =>
           numel out = expected
           ∧ Forall2 Qeq (contents (heap σ') out) (replicate expected (3 # 2))
       | _ => False
       end)
    [0; 1; 2; 3] [3; 3; 3; 1].
Proof. vm_compute. repeat (constructor; try reflexivity). Qed.

(** * Further properties of the code *)

(** ** The solver *)

(** X1: the group size the solver returns is the least admissible one:
    it lies between the world size and the aligned size, and no smaller
    positive multiple of the world size both divides the aligned size and
    keeps [aligned_size / g] within 40960. *)
Theorem solver_result_is_least (fuel : nat)
    (aligned_size global_world_size g : Z) :
  (0 < global_world_size)%Z → (0 < aligned_size)%Z →
  (aligned_size `mod` global_world_size = 0)%Z →
  Solver.solve fuel aligned_size global_world_size = Some g →
  (global_world_size ≤ g ≤ aligned_size)%Z
  ∧ ∀ g' : Z,
      (0 < g' < g)%Z → (g' `mod` global_world_size = 0)%Z →
      ¬ ((aligned_size `mod` g' = 0)%Z
         ∧ (Solver.true_div aligned_size g' <= inject_Z 40960)%Q).
Proof.
  intros Hw Ha Hmod Hsolve.
  apply solve_is_search in Hsolve; try assumption.
  pose proof (positive_multiple_ge _ _ Hw Ha Hmod) as Hwa.
  destruct (search_loop_result fuel aligned_size global_world_size
              global_world_size g Hw Hw Hmod (Z.mod_same global_world_size ltac:(lia))
              (or_intror Hwa) Hsolve) as (Hge & _).
  pose proof (search_loop_upper fuel aligned_size global_world_size
                global_world_size g Hw Hmod (Z.mod_same global_world_size ltac:(lia)) Hwa Hsolve)
    as Hle.
  split; [lia |]. intros g' Hg' Hg'w [Hdiv Hlim].
  apply Z.mod_divide in Hg'w; [| lia]. destruct Hg'w as [x Hx].
  assert (Hx1 : (1 ≤ x)%Z).
  { destruct (Z_lt_le_dec x 1) as [Hlt |]; [exfalso | lia].
    assert (x * global_world_size ≤ 0)%Z by (apply Z.mul_nonpos_nonneg; lia).
    lia. }
  assert (Hg'eq : (global_world_size + (x - 1) * global_world_size = g')%Z)
    by (rewrite Hx; ring).
  destruct (search_loop_skipped fuel aligned_size global_world_size
              global_world_size g Hw Hsolve (x - 1) ltac:(lia)
              ltac:(rewrite Hg'eq; lia))
    as [_ Htest].
  rewrite Hg'eq in Htest.
  apply Z.eqb_eq in Hdiv. rewrite Hdiv in Htest. simpl in Htest.
  apply Qle_bool_iff in Hlim. unfold Solver.within_limit in Htest.
  unfold Solver.max_elems_per_intra_group in Htest. congruence.
Qed.

Lemma solver_result_is_least_witness :
  (8 ≤ 8 ≤ 24)%Z
  ∧ ∀ g' : Z,
      (0 < g' < 8)%Z → (g' `mod` 8 = 0)%Z →
      ¬ ((24 `mod` g' = 0)%Z ∧ (Solver.true_div 24 g' <= inject_Z 40960)%Q).
Proof.
  apply (solver_result_is_least 5 24 8 8); [lia | lia | reflexivity | reflexivity].
Defined.

(** X2: a buffer with at most 40960 elements per rank is given exactly
    one group per rank: for an aligned size that is a positive multiple of
    the world size and at most 40960 times the world size, the solver
    returns the world size. *)
Theorem solver_small_buffer (fuel : nat) (aligned_size global_world_size : Z) :
  (0 < global_world_size)%Z → (0 < aligned_size)%Z →
  (aligned_size `mod` global_world_size = 0)%Z →
  (aligned_size ≤ 40960 * global_world_size)%Z →
  Solver.solve (S fuel) aligned_size global_world_size = Some global_world_size.
Proof. intros. apply solve_small; assumption. Qed.

Lemma solver_small_buffer_witness : Solver.solve 1 24 8 = Some 8%Z.
Proof.
  apply (solver_small_buffer 0 24 8); [lia | lia | reflexivity | lia].
Defined.


(** ** The outputs of [all_to_all_quant_reduce] *)

(** X3: when [all_to_all_quant_reduce] returns, it returns one slot per
    input tensor, in order.  The slot of a one-dimensional tensor holds an
    output.  The slot of any other tensor holds [None] exactly when the
    window of this rank, [partition_size * this_rank] with
    [partition_size = ceil(numel / world)], starts at or after the end of
    the data; otherwise it holds an output of
    [min(partition_size, numel - start)] elements, and the window runs
    past the data only on the last rank. *)
Theorem quantized_slots_on_return
    (uninit : nat → nat → Q)
    (quantized_exchange : nat → topology → list Q → Z → Z → list Q)
    (peers : nat → list (list Q)) (topo : topology) (tensors : list Tensor)
    (σ σ' : process) (outs : list (option Tensor)) :
  all_to_all_quant_reduce uninit quantized_exchange peers topo tensors σ
    = Ok (outs, σ') →
  length outs = length tensors
  ∧ ∀ i t, tensors !! i = Some t →
      ∃ slot, outs !! i = Some slot ∧ slot_ok topo t slot.
Proof.
  intros H. unfold all_to_all_quant_reduce in H.
  apply bind_inv in H as ([outs' evs] & σ1 & Hcall & H).
  apply ret_inv in H. injection H as ? ?; subst. simpl.
  destruct (traced_call_inv _ _ _ _ _ _ _ _ _ Hcall) as (_ & Hlen & Hslots & _).
  split; assumption.
Qed.

Lemma quantized_slots_on_return_witness :
  let topo := Topology 4 4 3 in
  let tensors := [mkTensor 0 0 8 2; mkTensor 1 0 9 2; mkTensor 1 0 8 1] in
  let outs := [Some (mkTensor 4 0 2 1); None; Some (mkTensor 1 6 2 1)] in
  length outs = length tensors
  ∧ ∀ i t, tensors !! i = Some t →
      ∃ slot, outs !! i = Some slot ∧ slot_ok topo t slot.
Proof.
  intros topo tensors outs.
  eapply (quantized_slots_on_return (λ _ _, 0%Q)
           (λ _ _ flat _ _, take (length flat `div` 4) flat)
           (λ _, replicate 4 (replicate 8 1%Q))
           topo tensors
           (Process [replicate 8 1%Q; replicate 12 1%Q] false)
           _).
  vm_compute. reflexivity.
Defined.

(** X4: the group-size cache is looked up (line 59) once for every
    tensor that is not one-dimensional and never for a one-dimensional
    one: a call that returns has made as many lookups as there are such
    tensors, and none when every tensor is one-dimensional. *)
Theorem one_cache_lookup_per_quantized_tensor
    (uninit : nat → nat → Q)
    (quantized_exchange : nat → topology → list Q → Z → Z → list Q)
    (peers : nat → list (list Q)) (topo : topology) (tensors : list Tensor)
    (σ σ' : process) (outs : list (option Tensor)) (events : list cache_event) :
  all_to_all_quant_reduce_traced uninit quantized_exchange peers topo tensors σ
    = Ok ((outs, events), σ') →
  length events = length (filter (λ t, dim t ≠ 1) tensors)
  ∧ (Forall (λ t, dim t = 1) tensors → events = []).
Proof.
  intros H.
  destruct (traced_call_inv _ _ _ _ _ _ _ _ _ H) as (_ & _ & _ & Hev).
  split; [exact Hev |]. intros Hall.
  assert (Hnone : filter (λ t, dim t ≠ 1) tensors = []).
  { clear Hev H. induction Hall as [| t ts Ht _ IH]; [reflexivity |].
    rewrite filter_cons, decide_False by (intros Hne; exact (Hne Ht)).
    exact IH. }
  rewrite Hnone in Hev. destruct events; [reflexivity | discriminate].
Qed.

Lemma one_cache_lookup_per_quantized_tensor_witness :
  let tensors := [mkTensor 0 0 8 2; mkTensor 1 0 9 2; mkTensor 1 0 8 1] in
  let events := [CacheMiss 8 4; CacheMiss 12 4] in
  length events = length (filter (λ t, dim t ≠ 1) tensors)
  ∧ (Forall (λ t, dim t = 1) tensors → events = []).
Proof.
  intros tensors events.
  eapply (one_cache_lookup_per_quantized_tensor (λ _ _, 0%Q)
           (λ _ _ flat _ _, take (length flat `div` 4) flat)
           (λ _, replicate 4 (replicate 8 1%Q))
           (Topology 4 4 3) tensors
           (Process [replicate 8 1%Q; replicate 12 1%Q] false)
           _ _).
  vm_compute. reflexivity.
Defined.

(** X5: a tensor that is not one-dimensional and has no more elements
    than there are ranks (an empty one included) is refused: when it is
    the first tensor of the list, the call raises [AssertionError]
    (line 79), whatever follows it in the list. *)
Theorem small_tensor_is_refused
    (uninit : nat → nat → Q)
    (quantized_exchange : nat → topology → list Q → Z → Z → list Q)
    (peers : nat → list (list Q)) (topo : topology)
    (t : Tensor) (rest : list Tensor) (σ : process) :
  local_world_size topo ≠ 0 → 0 < global_world_size topo →
  wf_tensor (heap σ) t → dim t ≠ 1 →
  numel t ≤ global_world_size topo →
  all_to_all_quant_reduce uninit quantized_exchange peers topo (t :: rest) σ
  = Raise AssertionError.
Proof.
  intros Hl Hw Hwf Hd Hsmall.
  unfold all_to_all_quant_reduce. apply bind_raise.
  rewrite traced_call_unfold by exact Hl. apply bind_raise.
  simpl reduce_each. apply bind_raise.
  unfold reduce_one. rewrite decide_False by exact Hd.
  destruct (align_ok uninit (global_world_size topo) t (loaded σ) Hw Hwf)
    as (flat & σ1 & Hrun & Hnum & _).
  rewrite (bind_ok _ _ _ _ _ Hrun). apply bind_raise. simpl.
  change (numel t + _) with (aligned_size_of (global_world_size topo) (numel t))
    in Hnum.
  destruct (aligned_size_of_spec (global_world_size topo) (numel t) Hw)
    as (_ & _ & Hmod & _).
  rewrite Hnum.
  set (a := aligned_size_of (global_world_size topo) (numel t)) in *.
  assert (HmodZ : (Z.of_nat a `mod` Z.of_nat (global_world_size topo) = 0)%Z).
  { rewrite <- Nat2Z.inj_mod, Hmod. reflexivity. }
  destruct (solve_spec (Z.of_nat a) (Z.of_nat (global_world_size topo))
              ltac:(lia) ltac:(lia) HmodZ) as (g & Hsolve & _ & Hgw & _ & Hlim).
  specialize (Hsolve (Solver.fuel_for (Z.of_nat a))
                ltac:(unfold Solver.fuel_for; lia)).
  rewrite (intra_quant_group_for_miss ∅ _ _ _ g _ (lookup_empty _) Hsolve Hgw Hlim).
  assert (Hge : (Z.of_nat (global_world_size topo) ≤ g)%Z).
  { eapply solve_ge_world; [| | exact HmodZ | exact Hsolve]; lia. }
  destruct (Z.ltb_spec g (Z.of_nat (numel t))) as [Hlt |]; [lia | reflexivity].
Qed.

Lemma small_tensor_is_refused_witness :
  all_to_all_quant_reduce (λ _ _, 0%Q) (λ _ _ flat _ _, flat) (λ _, [])
    (Topology 2 4 0) [mkTensor 0 0 0 2; mkTensor 0 0 3 1] (Process [[]] false)
  = Raise AssertionError.
Proof.
  apply (small_tensor_is_refused (λ _ _, 0%Q) (λ _ _ flat _ _, flat) (λ _, [])
           (Topology 2 4 0) (mkTensor 0 0 0 2) [mkTensor 0 0 3 1]
           (Process [[]] false)).
  - simpl. lia.
  - simpl. lia.
  - exists []. split; [reflexivity | simpl; lia].
  - simpl. lia.
  - simpl. lia.
Defined.

(** ** Further facts about the partitions *)

(** Consecutive windows of [c] elements are a prefix of the list. *)
Lemma concat_windows (c k : nat) (xs : list Q) :
  concat ((λ r, take c (drop (r * c) xs)) <$> seq 0 k) = take (k * c) xs.
Proof.
  induction k as [| k IH]; [reflexivity |].
  rewrite seq_S, fmap_app, concat_app, IH. simpl. rewrite app_nil_r.
  rewrite take_take_drop. f_equal. lia.
Qed.

(** The partitions of a list for all the ranks, one after the other, are
    the list. *)
Lemma concat_partitions (world_sz : nat) (xs : list Q) :
  0 < world_sz →
  concat ((λ rank, partition_of world_sz rank xs) <$> seq 0 world_sz) = xs.
Proof.
  intros Hw. unfold partition_of.
  rewrite (concat_windows (chunk_sz world_sz (length xs)) world_sz xs).
  apply take_ge. pose proof (padded_size_bounds world_sz (length xs) Hw). lia.
Qed.

Lemma foldlM_nop {A B} (body : B → A → M B) (b : B) (l : list A) (σ : process) :
  (∀ a, body b a σ = Ok (b, σ)) → foldlM body b l σ = Ok (b, σ).
Proof.
  intros H. induction l as [| a l IH]; [reflexivity |].
  simpl. unfold bind. rewrite H. exact IH.
Qed.

Lemma shard_offset_mono (world_sz : nat) (tensors : list Tensor) (i j : nat) :
  i ≤ j → shard_offset world_sz tensors i ≤ shard_offset world_sz tensors j.
Proof.
  unfold shard_offset.
  generalize (chunk_sz world_sz ∘ numel <$> tensors). intros ns.
  revert i j. induction ns as [| n ns IH]; intros i j Hij.
  - rewrite !take_nil. lia.
  - destruct i as [| i]; [simpl; lia |].
    destruct j as [| j]; [lia |]. simpl.
    specialize (IH i j ltac:(lia)). lia.
Qed.

(** X6: the partitions of lines 127-133 cover each tensor exactly: for
    valid tensors and a positive world size, [partition_lst] gives each
    tensor one partition per rank, every one a view into the tensor's own
    storage, and the partitions of a tensor laid end to end are the
    elements of the tensor, each once and in order. *)
Theorem partitions_cover_tensor (world_sz : nat) (tensors : list Tensor)
    (σ : process) :
  0 < world_sz → Forall (wf_tensor (heap σ)) tensors →
  ∃ partition_lst_for_each_tensor,
    partition_lst tensors world_sz σ = Ok (partition_lst_for_each_tensor, σ)
    ∧ Forall2 (λ t partitions,
                 length partitions = world_sz
                 ∧ Forall (λ p, storage p = storage t) partitions
                 ∧ concat (contents (heap σ) <$> partitions)
                   = contents (heap σ) t)
              tensors partition_lst_for_each_tensor.
Proof.
  intros Hw Hwf. eexists. split; [apply partition_lst_ok; exact Hw |].
  apply Forall2_fmap_r, Forall_Forall2_diag.
  eapply Forall_impl; [exact Hwf |]. simpl. intros t Ht.
  split; [rewrite length_fmap; apply length_seq |]. split.
  - apply Forall_fmap, Forall_forall. intros rank _. reflexivity.
  - rewrite <- list_fmap_compose.
    transitivity (concat ((λ rank, partition_of world_sz rank (contents (heap σ) t))
                            <$> seq 0 world_sz));
      [| apply concat_partitions; exact Hw].
    f_equal. apply list_fmap_ext. intros _ rank _. simpl.
    apply contents_part; assumption.
Qed.

Lemma partitions_cover_tensor_witness :
  ∃ partition_lst_for_each_tensor,
    partition_lst [mkTensor 0 1 10 2] 4 (Process [inject_Z <$> [0; 1; 2; 3; 4; 5; 6; 7; 8; 9; 10]%Z] false)
      = Ok (partition_lst_for_each_tensor,
            Process [inject_Z <$> [0; 1; 2; 3; 4; 5; 6; 7; 8; 9; 10]%Z] false)
    ∧ Forall2 (λ t partitions,
                 length partitions = 4
                 ∧ Forall (λ p, storage p = storage t) partitions
                 ∧ concat (contents [inject_Z <$> [0; 1; 2; 3; 4; 5; 6; 7; 8; 9; 10]%Z]
                             <$> partitions)
                   = contents [inject_Z <$> [0; 1; 2; 3; 4; 5; 6; 7; 8; 9; 10]%Z] t)
              [mkTensor 0 1 10 2] partition_lst_for_each_tensor.
Proof.
  apply (partitions_cover_tensor 4 [mkTensor 0 1 10 2]
           (Process [inject_Z <$> [0; 1; 2; 3; 4; 5; 6; 7; 8; 9; 10]%Z] false)).
  - lia.
  - apply Forall_singleton. eexists. split; [reflexivity | simpl; lia].
Defined.

(** X7: an empty list of tensors is refused: no partition is collected,
    [torch.cat] is handed an empty list, and [reduce_scatter_coalesced]
    raises [RuntimeError], for every world size and rank. *)
Theorem reduce_scatter_coalesced_empty (uninit : nat → nat → Q)
    (peers : list (list Q)) (this_rank world_sz : nat) (σ : process) :
  reduce_scatter_coalesced uninit peers this_rank world_sz [] σ
  = Raise RuntimeError.
Proof.
  unfold reduce_scatter_coalesced. simpl.
  unfold bind at 1. simpl. unfold bind at 1. simpl.
  apply bind_raise. unfold flat_buffer. apply bind_raise.
  unfold interleave. simpl.
  rewrite (bind_ok _ _ σ σ []); [reflexivity |].
  apply foldlM_nop. reflexivity.
Qed.

(** ** Further facts about the outputs of [reduce_scatter_coalesced] *)

(** Writing into a storage allocated later leaves the earlier ones as
    they are. *)
Lemma prefix_store (h h' : list (list Q)) (t : Tensor) (vs : list Q) :
  h `prefix_of` h' → length h ≤ storage t → h `prefix_of` store h' t vs.
Proof.
  intros [k ->] Hl. unfold store. rewrite alter_app_r_alt by exact Hl.
  apply prefix_app_r. reflexivity.
Qed.

(** X8: the outputs of one call do not overlap: they are views into
    one storage, and an earlier output ends before a later one starts. *)
Theorem outputs_do_not_overlap (uninit : nat → nat → Q)
    (world_sz this_rank : nat) (peers : list (list Q))
    (tensors : list Tensor) (σ : process) :
  0 < world_sz → this_rank < world_sz →
  tensors ≠ [] → Forall (wf_tensor (heap σ)) tensors →
  length peers = world_sz →
  ∃ outs σ',
    reduce_scatter_coalesced uninit peers this_rank world_sz tensors σ
      = Ok (outs, σ')
    ∧ ∀ i j out_i out_j,
        i < j → outs !! i = Some out_i → outs !! j = Some out_j →
        storage out_i = storage out_j
        ∧ offset out_i + numel out_i ≤ offset out_j.
Proof.
  intros Hw Hr Hne Hwf Hpeers.
  destruct (reduce_scatter_coalesced_ok uninit world_sz this_rank Hw Hr
              peers tensors σ Hne Hwf Hpeers)
    as (buf & σ1 & flat & _ & _ & _ & _ & _ & _ & Hrun).
  simpl in Hrun. eexists _, _. split; [exact Hrun |].
  intros i j out_i out_j Hij Hi Hj.
  apply list_lookup_imap_Some in Hi as (ti & Hti & ->).
  apply list_lookup_imap_Some in Hj as (tj & Htj & ->).
  unfold output_view. simpl. split; [reflexivity |].
  pose proof (shard_offset_S world_sz Hw tensors i ti Hti) as HS.
  pose proof (shard_offset_mono world_sz tensors (S i) j ltac:(lia)) as Hmono.
  pose proof (partition_length_le world_sz Hw (numel ti) this_rank) as Hle.
  lia.
Qed.

Lemma outputs_do_not_overlap_witness :
  ∃ outs σ',
    reduce_scatter_coalesced (λ _ _, 0%Q) (replicate 2 (replicate 6 1%Q)) 1 2
      [mkTensor 0 0 3 1; mkTensor 0 3 2 1] (Process [replicate 5 1%Q] false)
      = Ok (outs, σ')
    ∧ ∀ i j out_i out_j,
        i < j → outs !! i = Some out_i → outs !! j = Some out_j →
        storage out_i = storage out_j
        ∧ offset out_i + numel out_i ≤ offset out_j.
Proof.
  apply (outputs_do_not_overlap (λ _ _, 0%Q) 2 1 (replicate 2 (replicate 6 1%Q))
           [mkTensor 0 0 3 1; mkTensor 0 3 2 1] (Process [replicate 5 1%Q] false)).
  - lia.
  - lia.
  - discriminate.
  - repeat constructor; eexists; (split; [reflexivity | simpl; lia]).
  - reflexivity.
Defined.

(** X9: unless it is called with one tensor whose element count is a
    multiple of the world size, [reduce_scatter_coalesced] leaves the
    storages of the caller as they were: every input tensor holds its
    elements after the call, and every output lives in a storage
    allocated by the call. *)
Theorem general_path_leaves_inputs (uninit : nat → nat → Q)
    (world_sz this_rank : nat) (peers : list (list Q))
    (tensors : list Tensor) (σ : process) :
  0 < world_sz → this_rank < world_sz →
  tensors ≠ [] → Forall (wf_tensor (heap σ)) tensors →
  length peers = world_sz →
  general_path world_sz tensors →
  ∃ outs σ',
    reduce_scatter_coalesced uninit peers this_rank world_sz tensors σ
      = Ok (outs, σ')
    ∧ heap σ `prefix_of` heap σ'
    ∧ Forall (λ t, contents (heap σ') t = contents (heap σ) t) tensors
    ∧ Forall (λ out, length (heap σ) ≤ storage out) outs.
Proof.
  intros Hw Hr Hne Hwf Hpeers Hgen.
  destruct (reduce_scatter_coalesced_ok uninit world_sz this_rank Hw Hr
              peers tensors σ Hne Hwf Hpeers)
    as (buf & σ1 & flat & Hfb & _ & _ & _ & _ & _ & Hrun).
  rewrite (flat_buffer_general uninit world_sz tensors σ _ _ Hgen) in Hfb.
  destruct (interleave_ok uninit world_sz Hw tensors σ Hne Hwf)
    as (buf0 & σ0 & flat0 & Hil & _ & Hpre & _ & _ & Hfresh & _).
  rewrite (bind_ok _ _ _ _ _ Hil) in Hfb.
  unfold Torch.div_, bind, read, write, ret in Hfb.
  injection Hfb as ? ?; subst buf0 σ1.
  simpl in Hrun. eexists _, _. split; [exact Hrun |].
  rewrite !heap_set_heap.
  assert (Hpre' : heap σ `prefix_of`
            store (store (heap σ0) buf (div_by world_sz <$> contents (heap σ0) buf))
              (shard_view this_rank buf (shard_length world_sz tensors))
              (Dist.vsum (shard_length world_sz tensors)
                 (Dist.shard (shard_length world_sz tensors) this_rank
                    <$> <[this_rank := div_by world_sz <$> flat]> peers))).
  { apply prefix_store; [apply prefix_store; assumption | exact Hfresh]. }
  split; [exact Hpre' |]. split.
  - eapply Forall_impl; [exact Hwf |]. simpl. intros t Ht.
    apply contents_prefix; [exact Hpre' |].
    apply wf_tensor_valid. exact Ht.
  - apply Forall_forall. intros out Hout.
    apply elem_of_lookup_imap in Hout as (i & t & -> & _). exact Hfresh.
Qed.

Lemma general_path_leaves_inputs_witness :
  ∃ outs σ',
    reduce_scatter_coalesced (λ _ _, 0%Q) (replicate 2 (replicate 6 1%Q)) 1 2
      [mkTensor 0 0 3 1; mkTensor 0 3 2 1] (Process [replicate 5 1%Q] false)
      = Ok (outs, σ')
    ∧ [replicate 5 1%Q] `prefix_of` heap σ'
    ∧ Forall (λ t, contents (heap σ') t = contents [replicate 5 1%Q] t)
             [mkTensor 0 0 3 1; mkTensor 0 3 2 1]
    ∧ Forall (λ out, 1 ≤ storage out) outs.
Proof.
  apply (general_path_leaves_inputs (λ _ _, 0%Q) 2 1
           (replicate 2 (replicate 6 1%Q))
           [mkTensor 0 0 3 1; mkTensor 0 3 2 1] (Process [replicate 5 1%Q] false)).
  - lia.
  - lia.
  - discriminate.
  - repeat constructor; eexists; (split; [reflexivity | simpl; lia]).
  - reflexivity.
  - exact I.
Defined.

(** ** Further facts about a group of ranks *)

Lemma vsum_single (m : nat) (b : list Q) :
  length b = m → Forall2 Qeq (Dist.vsum m [b]) b.
Proof.
  unfold Dist.vsum. simpl. revert m.
  induction b as [| x b IH]; intros m Hm; [destruct m; constructor |].
  destruct m as [| m]; [discriminate |]. simpl. constructor.
  - ring.
  - apply IH. simpl in Hm. lia.
Qed.

Lemma div_by_one (xs : list Q) : Forall2 Qeq (div_by 1 <$> xs) xs.
Proof.
  induction xs as [| x xs IH]; [constructor |].
  simpl. constructor; [| exact IH].
  unfold div_by. simpl. field.
Qed.

Lemma partition_of_single (xs : list Q) : partition_of 1 0 xs = xs.
Proof.
  pose proof (concat_partitions 1 xs ltac:(lia)) as H. simpl in H.
  rewrite app_nil_r in H. exact H.
Qed.

(** The partition of a list goes through a map over its elements. *)
Lemma partition_of_fmap (world_sz rank : nat) (f : Q → Q) (xs : list Q) :
  partition_of world_sz rank (f <$> xs) = f <$> partition_of world_sz rank xs.
Proof.
  unfold partition_of. rewrite length_fmap, fmap_take, fmap_drop. reflexivity.
Qed.

(** The partition of a sum of buffers is the sum of their partitions. *)
Lemma partition_of_vsum_bufs (world_sz rank n : nat) (bufs : list (list Q)) :
  Forall (λ b, length b = n) bufs →
  partition_of world_sz rank (Dist.vsum n bufs)
  = Dist.vsum (partition_length world_sz n rank)
              (partition_of world_sz rank <$> bufs).
Proof.
  intros Hall.
  set (c := chunk_sz world_sz n).
  set (m := partition_length world_sz n rank).
  assert (Htake : ∀ x : list Q, length x = n →
            partition_of world_sz rank x = take m (drop (rank * c) x)).
  { intros x Hx. unfold partition_of. rewrite Hx. fold c.
    rewrite <- (take_ge (drop (rank * c) x) (n - rank * c)) at 1
      by (rewrite length_drop; lia).
    rewrite take_take. reflexivity. }
  rewrite (Htake _ (length_vsum _ _ Hall)).
  rewrite (vsum_window n (rank * c) m _
             ltac:(unfold m, partition_length; fold c; lia)).
  f_equal. apply Forall_fmap_ext_1.
  eapply Forall_impl; [exact Hall |]. simpl. intros b Hb.
  symmetry. apply Htake, Hb.
Qed.

Section GroupGather.
Variable uninits : nat → nat → nat → Q.
Variable ranks : list (process * list Tensor).
Variable tensors : list Tensor.

Hypothesis ranks_agree :
  ∀ r σr tr, ranks !! r = Some (σr, tr) →
    Forall (wf_tensor (heap σr)) tr ∧ numel <$> tr = numel <$> tensors.
Hypothesis tensors_ne : tensors ≠ [].

(** What a rank gets back is its partition of the sum of the pre-divided
    inputs. *)
Lemma output_of_sum (r i : nat) (t : Tensor) :
  r < length ranks → tensors !! i = Some t →
  output_of uninits ranks r i
  = partition_of (length ranks) r
      (Dist.vsum (numel t)
         ((λ p, div_by (length ranks) <$> input_of p i) <$> ranks)).
Proof.
  intros Hr Ht.
  assert (Hpos : 0 < length ranks) by lia.
  destruct (lookup_lt_is_Some_2 ranks r Hr) as [[σr tr] Hlook].
  destruct (ranks_agree r σr tr Hlook) as [Hwf Hnum].
  assert (Hagree : ∀ r' σr' tr', ranks !! r' = Some (σr', tr') →
            Forall (wf_tensor (heap σr')) tr' ∧ numel <$> tr' = numel <$> tr).
  { intros r' σr' tr' Hl'. destruct (ranks_agree r' σr' tr' Hl') as [? ?].
    split; [assumption | congruence]. }
  assert (Hne : tr ≠ []).
  { intros ->. destruct tensors; [congruence | discriminate]. }
  assert (Ht' : ∃ t', tr !! i = Some t' ∧ numel t' = numel t).
  { assert (H : (numel <$> tr) !! i = Some (numel t))
      by (rewrite Hnum, list_lookup_fmap, Ht; reflexivity).
    rewrite list_lookup_fmap in H.
    destruct (tr !! i) as [t' |]; [| discriminate].
    exists t'. split; [reflexivity |]. simpl in H. congruence. }
  destruct Ht' as (t' & Ht' & Hnt).
  destruct (group_outputs uninits ranks tr Hagree Hne Hpos r σr Hlook)
    as (outs & σ' & Hrun & _ & Houts).
  destruct (Houts i t' Ht') as (out & Hout & Hcont).
  unfold output_of. rewrite Hlook, Hrun, Hout, Hcont, Hnt.
  rewrite partition_of_vsum_bufs.
  - rewrite <- list_fmap_compose. f_equal.
    apply list_fmap_ext. intros k p Hp. simpl.
    symmetry. apply partition_of_fmap.
  - apply Forall_fmap, Forall_lookup. intros k p Hp. simpl.
    rewrite length_fmap.
    apply (length_input ranks tensors ranks_agree k i p t Hp Ht).
Qed.

End GroupGather.

(** X10: gathering gives back whole tensors: in a group whose ranks all
    pass valid buffers of the same sizes, the outputs of ranks 0, 1, ...
    for the tensor at [i], laid end to end, are the elementwise sum over
    the ranks of their inputs at [i], every element divided by the world
    size before the sum; every position of the tensor appears once and no
    padding is left. *)
Theorem gathered_outputs_are_the_reduced_tensor
    (uninits : nat → nat → nat → Q)
    (ranks : list (process * list Tensor)) (tensors : list Tensor)
    (i : nat) (t : Tensor) :
  tensors ≠ [] → ranks ≠ [] →
  (∀ r σr tr, ranks !! r = Some (σr, tr) →
     Forall (wf_tensor (heap σr)) tr ∧ numel <$> tr = numel <$> tensors) →
  tensors !! i = Some t →
  let world_sz := length ranks in
  concat ((λ r, output_of uninits ranks r i) <$> seq 0 world_sz)
  = Dist.vsum (numel t) ((λ p, div_by world_sz <$> input_of p i) <$> ranks).
Proof.
  intros Hne Hranks Hagree Ht world_sz. subst world_sz.
  assert (Hpos : 0 < length ranks) by (destruct ranks; [congruence | simpl; lia]).
  set (V := Dist.vsum (numel t)
              ((λ p, div_by (length ranks) <$> input_of p i) <$> ranks)).
  transitivity (concat ((λ r, partition_of (length ranks) r V)
                          <$> seq 0 (length ranks)));
    [| apply concat_partitions; exact Hpos].
  f_equal. apply list_fmap_ext. intros k r Hr. simpl.
  apply lookup_seq in Hr as [-> Hk].
  apply (output_of_sum uninits ranks tensors Hagree Hne (0 + k) i t);
    [lia | exact Ht].
Qed.

Lemma gathered_outputs_are_the_reduced_tensor_witness :
  let ranks := [(Process [inject_Z <$> [1; 2; 3]%Z] false, [mkTensor 0 0 3 1]);
                (Process [inject_Z <$> [0; 5; 6; 7]%Z] false, [mkTensor 0 1 3 1])] in
  concat ((λ r, output_of (λ _ _ _, 0%Q) ranks r 0) <$> seq 0 2)
  = Dist.vsum 3 ((λ p, div_by 2 <$> input_of p 0) <$> ranks).
Proof.
  intros ranks.
  apply (gathered_outputs_are_the_reduced_tensor (λ _ _ _, 0%Q) ranks
           [mkTensor 0 0 3 1] 0 (mkTensor 0 0 3 1)).
  - discriminate.
  - discriminate.
  - intros [| [| r]] σr tr Hr; simpl in Hr; [| | discriminate];
      injection Hr as <- <-;
      (split; [| reflexivity]);
      apply Forall_singleton; eexists; (split; [reflexivity | simpl; lia]).
  - reflexivity.
Defined.

(** X11: in a group of one rank, [reduce_scatter_coalesced] returns the
    values it was given: output [i] has the elements of input [i]. *)
Theorem single_rank_returns_inputs (uninit : nat → nat → Q)
    (peers : list (list Q)) (tensors : list Tensor) (σ : process) :
  tensors ≠ [] → Forall (wf_tensor (heap σ)) tensors →
  length peers = 1 →
  ∃ outs σ',
    reduce_scatter_coalesced uninit peers 0 1 tensors σ = Ok (outs, σ')
    ∧ Forall2 (λ t out, Forall2 Qeq (contents (heap σ') out)
                                     (contents (heap σ) t))
              tensors outs.
Proof.
  intros Hne Hwf Hpeers.
  assert (Hw : 0 < 1) by lia.
  destruct (reduce_scatter_coalesced_ok uninit 1 0 Hw Hw
              peers tensors σ Hne Hwf Hpeers)
    as (buf & σ1 & flat & _ & Hlay & Hwfb & _ & Hnum & _ & Hrun).
  cbv zeta in Hrun.
  destruct peers as [| p0 [| ? ?]]; try discriminate.
  change (<[0 := div_by 1 <$> flat]> [p0]) with [div_by 1 <$> flat] in Hrun.
  eexists _, _. split; [exact Hrun |].
  rewrite heap_set_heap.
  destruct Hlay as [Hlen Hlay].
  apply Forall2_same_length_lookup. split; [rewrite length_imap; reflexivity |].
  intros i t out Ht Hout.
  apply list_lookup_imap_Some in Hout as (t' & Ht' & ->).
  assert (t' = t) by congruence. subst t'.
  rewrite (output_contents 1 0 Hw Hw (heap σ1) buf _ [div_by 1 <$> flat]
             tensors i t _ _ eq_refl eq_refl eq_refl Hwfb Hnum
             ltac:(apply Forall_singleton; rewrite length_fmap; exact Hlen) Ht).
  cbn [fmap list_fmap].
  assert (Hwft : wf_tensor (heap σ) t).
  { eapply Forall_lookup_1; [exact Hwf | exact Ht]. }
  pose proof (Hlay 0 i t Hw Ht) as Hwin.
  rewrite (contents_part 1 Hw (heap σ) t 0 Hwft), partition_of_single in Hwin.
  rewrite <- fmap_drop, <- fmap_take, Hwin.
  etransitivity; [apply vsum_single | apply div_by_one].
  rewrite length_fmap, (length_contents _ _ Hwft).
  unfold partition_length, chunk_sz.
  replace (numel t + 1 - 1) with (numel t) by lia.
  rewrite Nat.div_1_r. lia.
Qed.

Lemma single_rank_returns_inputs_witness :
  ∃ outs σ',
    reduce_scatter_coalesced (λ _ _, 0%Q) [[]] 0 1
      [mkTensor 0 0 2 1; mkTensor 0 2 1 2] (Process [inject_Z <$> [4; 5; 6]%Z] false)
      = Ok (outs, σ')
    ∧ Forall2 (λ t out, Forall2 Qeq (contents (heap σ') out)
                          (contents [inject_Z <$> [4; 5; 6]%Z] t))
              [mkTensor 0 0 2 1; mkTensor 0 2 1 2] outs.
Proof.
  apply (single_rank_returns_inputs (λ _ _, 0%Q) [[]]
           [mkTensor 0 0 2 1; mkTensor 0 2 1 2]
           (Process [inject_Z <$> [4; 5; 6]%Z] false)).
  - discriminate.
  - repeat constructor; eexists; (split; [reflexivity | simpl; lia]).
  - reflexivity.
Defined.

(** ** Further facts about the last step of the quantized path *)

Lemma zip_plus_assoc (a b c : list Q) :
  Forall2 Qeq (zip_with Qplus (zip_with Qplus a b) c)
              (zip_with Qplus a (zip_with Qplus b c)).
Proof.
  revert b c. induction a as [| x a IH]; intros [| y b] [| z c];
    simpl; try constructor.
  - symmetry. apply Qplus_assoc.
  - apply IH.
Qed.

Lemma zip_plus_proper_l (a a' c : list Q) :
  Forall2 Qeq a a' →
  Forall2 Qeq (zip_with Qplus a c) (zip_with Qplus a' c).
Proof.
  intros H. revert c. induction H as [| x x' a a' Hx _ IH]; intros [| z c];
    simpl; try constructor.
  - rewrite Hx. reflexivity.
  - apply IH.
Qed.

Lemma zip_plus_zero (m : nat) (b : list Q) :
  length b = m → Forall2 Qeq (zip_with Qplus b (replicate m 0%Q)) b.
Proof. intros H. apply (vsum_single m b H). Qed.

Lemma plus_zero_l (b : list Q) : Forall2 Qeq (Qplus 0 <$> b) b.
Proof.
  induction b as [| x b IH]; [constructor |].
  simpl. constructor; [apply Qplus_0_l | exact IH].
Qed.

Lemma div_by_proper (w : nat) (a b : list Q) :
  Forall2 Qeq a b → Forall2 Qeq (div_by w <$> a) (div_by w <$> b).
Proof.
  intros H. apply Forall2_fmap. eapply Forall2_impl; [exact H |].
  simpl. intros x y Hxy. unfold div_by. rewrite Hxy. reflexivity.
Qed.

(** The loop of the builtin [sum] over buffers of one length adds them
    up elementwise. *)
Lemma sum_loop (m : nat) (rest : list (list Q)) :
  ∀ (acc : list Q) (σ : process),
    length acc = m → Forall (λ v, length v = m) rest →
    ∃ r, foldlM tensor_add acc rest σ = Ok (r, σ)
         ∧ length r = m
         ∧ Forall2 Qeq r (zip_with Qplus acc (Dist.vsum m rest)).
Proof.
  induction rest as [| v rest IH]; intros acc σ Hacc Hrest.
  - exists acc. split; [reflexivity |]. split; [exact Hacc |].
    symmetry. apply zip_plus_zero, Hacc.
  - apply Forall_cons in Hrest as [Hv Hrest].
    destruct (IH (zip_with Qplus acc v) σ) as (r & Hrun & Hlen & Heq).
    { rewrite length_zip_with. lia. }
    { exact Hrest. }
    exists r. split.
    + simpl. unfold bind, tensor_add.
      rewrite decide_True by congruence. exact Hrun.
    + split; [exact Hlen |].
      etransitivity; [exact Heq |]. apply zip_plus_assoc.
Qed.

Lemma python_sum_ok (m : nat) (vss : list (list Q)) (σ : process) :
  vss ≠ [] → Forall (λ v, length v = m) vss →
  ∃ total, python_sum vss σ = Ok (total, σ)
           ∧ length total = m
           ∧ Forall2 Qeq total (Dist.vsum m vss).
Proof.
  intros Hne Hlen. destruct vss as [| v rest]; [congruence |].
  apply Forall_cons in Hlen as [Hv Hrest].
  destruct (sum_loop m rest (Qplus 0 <$> v) σ) as (r & Hrun & Hr & Heq).
  { rewrite length_fmap. exact Hv. }
  { exact Hrest. }
  exists r. split; [exact Hrun |]. split; [exact Hr |].
  etransitivity; [exact Heq |].
  apply zip_plus_proper_l, plus_zero_l.
Qed.

(** [final_output.chunk(num_nodes)] on a buffer of [num_nodes] times
    [m] elements: [num_nodes] windows of [m] elements. *)
Lemma chunk_exact (t : Tensor) (n m : nat) (σ : process) :
  0 < n → wf_tensor (heap σ) t → numel t = n * m →
  ∃ chunks,
    Torch.chunk t n σ = Ok (chunks, σ)
    ∧ contents (heap σ) <$> chunks
      = (λ i, take m (drop (i * m) (contents (heap σ) t))) <$> seq 0 n.
Proof.
  intros Hn Hwf Hnum. unfold Torch.chunk.
  rewrite decide_False by lia.
  assert (Hsplit : (numel t + n - 1) / n = m).
  { rewrite Hnum. symmetry. apply (Nat.div_unique _ _ _ (n - 1)); lia. }
  rewrite Hsplit.
  pose proof (length_contents _ _ Hwf) as HlenC.
  destruct (decide (m = 0)) as [-> | Hm].
  - eexists. split; [reflexivity |].
    rewrite fmap_replicate.
    rewrite (contents_slice _ _ _ _ Hwf).
    replace (0 `min` numel t - 0 `min` numel t) with 0 by lia.
    simpl. clear.
    assert (H : ∀ k, replicate n (@nil Q)
                     = (λ i, take 0 (drop (i * 0) (contents (heap σ) t)))
                         <$> seq k n).
    { induction n as [| n IH]; intros k; [reflexivity |].
      simpl. f_equal. apply IH. }
    apply H.
  - assert (Hpieces : (numel t + m - 1) / m = n).
    { rewrite Hnum. symmetry. apply (Nat.div_unique _ _ _ (m - 1)); lia. }
    rewrite Hpieces. eexists. split; [reflexivity |].
    rewrite <- list_fmap_compose. apply list_fmap_ext.
    intros k i Hi. apply lookup_seq in Hi as [-> Hk]. simpl.
    rewrite (contents_slice _ _ _ _ Hwf).
    assert (k * m + m ≤ numel t) by nia.
    replace ((k * m + m) `min` numel t - (k * m) `min` numel t) with m by lia.
    replace ((k * m) `min` numel t) with (k * m) by lia.
    reflexivity.
Qed.

(** Lines 103 and 107: the elementwise mean of the [num_nodes] windows
    of [final_output], in a new tensor. *)
Lemma mean_of_chunks_ok (final_output : Tensor) (num_nodes m : nat)
    (σ : process) :
  0 < num_nodes → wf_tensor (heap σ) final_output →
  numel final_output = num_nodes * m →
  ∃ mean,
    mean_of_chunks final_output num_nodes σ
    = Ok (mkTensor (length (heap σ)) 0 m 1, set_heap (heap σ ++ [mean]) σ)
    ∧ length mean = m
    ∧ Forall2 Qeq mean
        (div_by num_nodes
           <$> Dist.vsum m
                 ((λ i, take m (drop (i * m) (contents (heap σ) final_output)))
                    <$> seq 0 num_nodes)).
Proof.
  intros Hn Hwf Hnum.
  destruct (chunk_exact final_output num_nodes m σ Hn Hwf Hnum)
    as (chunks & Hchunk & Hcont).
  set (vss := (λ i, take m (drop (i * m) (contents (heap σ) final_output)))
                <$> seq 0 num_nodes) in *.
  assert (Hvss : Forall (λ v, length v = m) vss).
  { apply Forall_fmap, Forall_forall. intros i Hi. simpl.
    apply elem_of_seq in Hi.
    rewrite length_take, length_drop, (length_contents _ _ Hwf). nia. }
  assert (Hne : vss ≠ []).
  { intros Hnil. apply (f_equal length) in Hnil.
    unfold vss in Hnil. rewrite length_fmap, length_seq in Hnil.
    simpl in Hnil. lia. }
  destruct (python_sum_ok m vss σ Hne Hvss) as (total & Hsum & Hlen & Heq).
  exists (div_by num_nodes <$> total).
  split; [| split; [rewrite length_fmap; exact Hlen
                   | apply div_by_proper, Heq]].
  unfold mean_of_chunks.
  rewrite (bind_ok _ _ _ _ _ Hchunk).
  rewrite (bind_ok _ _ σ σ vss) by (rewrite read_all, Hcont; reflexivity).
  rewrite (bind_ok _ _ _ _ _ Hsum).
  unfold Torch.fresh. rewrite length_fmap, Hlen. reflexivity.
Qed.

(** The solver's result does not depend on the fuel, once there is
    enough of it. *)
Lemma solve_checks (a w g : Z) :
  (0 < w)%Z → (0 ≤ a)%Z → (a `mod` w = 0)%Z →
  Solver.solve (Solver.fuel_for a) a w = Some g →
  (g `mod` w = 0)%Z ∧ Solver.within_limit a g = true.
Proof.
  intros Hw Ha Hmod Hsolve.
  destruct (solve_spec a w Hw Ha Hmod) as (g' & Hall & _ & Hgw & _ & Hlim).
  rewrite (Hall (Solver.fuel_for a)) in Hsolve
    by (unfold Solver.fuel_for; lia).
  injection Hsolve as <-. split; assumption.
Qed.

(** One tensor of more than one dimension through the whole call, up to
    the last step: the buffer is aligned, the group size passes the
    checks, and [final_output] is what the exchange returns. *)
Lemma quantized_single_prefix
    (uninit : nat → nat → Q)
    (quantized_exchange : nat → topology → list Q → Z → Z → list Q)
    (peers : nat → list (list Q)) (topo : topology) (t : Tensor)
    (σ : process) (g : Z) :
  let world := global_world_size topo in
  let num_nodes := world `div` local_world_size topo in
  let aligned_size := aligned_size_of world (numel t) in
  let partition_size := chunk_sz world (numel t) in
  let start := partition_size * this_rank topo in
  let flat := contents (heap σ) t
              ++ (uninit (length (heap σ))
                    <$> seq (numel t) (aligned_size - numel t)) in
  let final_output :=
    quantized_exchange 0 topo flat g (g `div` Z.of_nat (local_world_size topo))%Z in
  0 < local_world_size topo → 0 < world →
  wf_tensor (heap σ) t → dim t ≠ 1 →
  Solver.solve (Solver.fuel_for (Z.of_nat aligned_size))
    (Z.of_nat aligned_size) (Z.of_nat world) = Some g →
  (g < Z.of_nat (numel t))%Z →
  ∃ σ1 : process,
    let σ2 := set_heap (heap σ1 ++ [final_output]) σ1 in
    let fo := mkTensor (length (heap σ1)) 0 (length final_output) 1 in
    heap σ `prefix_of` heap σ1
    ∧ all_to_all_quant_reduce uninit quantized_exchange peers topo [t] σ
      = (if decide (start < numel t ∧ start + partition_size ≤ numel t)
         then let* out := mean_of_chunks fo num_nodes in
              assert (bool_decide (numel out = partition_size));;
              ret [Some out]
         else if decide (start < numel t)
         then let* mean := mean_of_chunks fo num_nodes in
              let* out := Torch.narrow mean 0 (numel t - start) in
              assert (bool_decide (this_rank topo = world - 1));;
              ret [Some out]
         else ret [None]) σ2.
Proof.
  intros world num_nodes aligned_size partition_size start flat final_output
    Hl Hw Hwf Hd Hsolve Hg.
  destruct (aligned_size_of_spec world (numel t) Hw)
    as (_ & Hbounds & Hmod & Hps).
  fold aligned_size in Hbounds, Hmod, Hps. fold partition_size in Hps.
  assert (HmodZ : (Z.of_nat aligned_size `mod` Z.of_nat world = 0)%Z).
  { rewrite <- Nat2Z.inj_mod, Hmod. reflexivity. }
  destruct (solve_checks (Z.of_nat aligned_size) (Z.of_nat world) g
              ltac:(lia) ltac:(lia) HmodZ Hsolve)
    as [Hgw Hlim].
  destruct (align_ok uninit world t (loaded σ) Hw Hwf)
    as (flat_tensor & σ1 & Halign & Hnum & Hcont & Htake & Hlen1 & _).
  simpl in Hcont, Htake, Hlen1.
  change (numel t + _) with aligned_size in Hnum.
  assert (Hflat : contents (heap σ1) flat_tensor = flat).
  { rewrite Hcont. unfold flat. do 3 f_equal.
    unfold aligned_size, aligned_size_of. lia. }
  exists σ1. cbv zeta.
  set (fo := mkTensor (length (heap σ1)) 0 (length final_output) 1).
  set (σ2 := set_heap (heap σ1 ++ [final_output]) σ1).
  split.
  { exists (drop (length (heap σ)) (heap σ1)).
    rewrite <- Htake at 1. symmetry. apply take_drop. }
  unfold all_to_all_quant_reduce.
  unfold bind at 1. rewrite traced_call_unfold by lia. fold world num_nodes.
  cbn [length replicate reduce_each].
  unfold bind at 1. unfold bind at 1.
  unfold reduce_one. rewrite decide_False by exact Hd.
  rewrite (bind_ok _ _ _ _ _ Halign). rewrite Hnum.
  cbn [intra_group_cache output_lst events].
  rewrite (bind_ok _ _ σ1 σ1
             (g, <[Z.of_nat aligned_size := g]> ∅,
              CacheMiss (Z.of_nat aligned_size) g)).
  2: { rewrite (intra_quant_group_for_miss ∅ _ _ _ g _ (lookup_empty _)
                  Hsolve Hgw Hlim).
       destruct (Z.ltb_spec g (Z.of_nat (numel t))); [reflexivity | lia]. }
  cbn [fst snd].
  rewrite (bind_ok _ _ σ1 σ1 flat)
    by (unfold read; rewrite Hflat; reflexivity).
  rewrite (bind_ok _ _ σ1 σ2 fo) by reflexivity.
  rewrite (bind_ok _ _ σ2 σ2 partition_size).
  2: { unfold floor_div. rewrite decide_False by lia.
       unfold ret. do 2 f_equal. exact Hps. }
  fold start. fold world.
  destruct (decide (start < numel t ∧ start + partition_size ≤ numel t)).
  - unfold bind.
    destruct (mean_of_chunks fo num_nodes σ2) as [[out σ3] |]; [| reflexivity].
    destruct (assert (bool_decide (numel out = partition_size)) σ3)
      as [[[] σ4] |]; reflexivity.
  - destruct (decide (start < numel t)); [| reflexivity].
    unfold bind.
    destruct (mean_of_chunks fo num_nodes σ2) as [[mean σ3] |]; [| reflexivity].
    destruct (Torch.narrow mean 0 (numel t - start) σ3) as [[out σ4] |];
      [| reflexivity].
    destruct (assert (bool_decide (this_rank topo = world - 1)) σ4)
      as [[[] σ5] |]; reflexivity.
Qed.

(** The same with an exchange that returns [num_nodes] times
    [partition_size] elements: the three cases of lines 102-110. *)
Lemma quantized_single_run
    (uninit : nat → nat → Q)
    (quantized_exchange : nat → topology → list Q → Z → Z → list Q)
    (peers : nat → list (list Q)) (topo : topology) (t : Tensor)
    (σ : process) (g : Z) :
  let world := global_world_size topo in
  let num_nodes := world `div` local_world_size topo in
  let aligned_size := aligned_size_of world (numel t) in
  let partition_size := chunk_sz world (numel t) in
  let start := partition_size * this_rank topo in
  let flat := contents (heap σ) t
              ++ (uninit (length (heap σ))
                    <$> seq (numel t) (aligned_size - numel t)) in
  let final_output :=
    quantized_exchange 0 topo flat g (g `div` Z.of_nat (local_world_size topo))%Z in
  0 < local_world_size topo → local_world_size topo ≤ world →
  wf_tensor (heap σ) t → dim t ≠ 1 →
  Solver.solve (Solver.fuel_for (Z.of_nat aligned_size))
    (Z.of_nat aligned_size) (Z.of_nat world) = Some g →
  (g < Z.of_nat (numel t))%Z →
  length final_output = num_nodes * partition_size →
  ∃ (σ1 : process) (mean : list Q),
    let σ2 := set_heap (heap σ1 ++ [final_output]) σ1 in
    let σ3 := set_heap (heap σ2 ++ [mean]) σ2 in
    heap σ `prefix_of` heap σ1
    ∧ length mean = partition_size
    ∧ Forall2 Qeq mean
        (div_by num_nodes
           <$> Dist.vsum partition_size
                 ((λ i, take partition_size
                          (drop (i * partition_size) final_output))
                    <$> seq 0 num_nodes))
    ∧ all_to_all_quant_reduce uninit quantized_exchange peers topo [t] σ
      = if decide (start < numel t ∧ start + partition_size ≤ numel t)
        then Ok ([Some (mkTensor (length (heap σ2)) 0 partition_size 1)], σ3)
        else if decide (start < numel t)
        then if decide (this_rank topo = world - 1)
             then Ok ([Some (mkTensor (length (heap σ2)) 0 (numel t - start) 1)],
                      σ3)
             else Raise AssertionError
        else Ok ([None], σ2).
Proof.
  intros world num_nodes aligned_size partition_size start flat final_output
    Hl Hlw Hwf Hd Hsolve Hg Hfinal.
  assert (Hw : 0 < world) by lia.
  assert (Hnodes : 0 < num_nodes).
  { unfold num_nodes. apply Nat.div_str_pos. lia. }
  destruct (quantized_single_prefix uninit quantized_exchange peers topo t σ g
              Hl Hw Hwf Hd Hsolve Hg) as (σ1 & Hpre & Hrun).
  cbv zeta in Hrun.
  fold world num_nodes aligned_size partition_size start flat final_output
    in Hrun.
  set (fo := mkTensor (length (heap σ1)) 0 (length final_output) 1) in *.
  set (σ2 := set_heap (heap σ1 ++ [final_output]) σ1) in *.
  assert (Hwfo : wf_tensor (heap σ2) fo).
  { exists final_output. split; [| simpl; lia].
    unfold σ2. rewrite heap_set_heap. apply list_lookup_middle. reflexivity. }
  assert (Hcfo : contents (heap σ2) fo = final_output).
  { unfold contents, σ2. rewrite heap_set_heap. simpl.
    rewrite list_lookup_middle by reflexivity. simpl. apply take_ge. lia. }
  destruct (mean_of_chunks_ok fo num_nodes partition_size σ2 Hnodes Hwfo Hfinal)
    as (mean & Hmean & Hlenm & Heqm).
  rewrite Hcfo in Heqm.
  exists σ1, mean. fold σ2. cbv zeta.
  set (σ3 := set_heap (heap σ2 ++ [mean]) σ2) in *.
  split; [exact Hpre |]. split; [exact Hlenm |]. split; [exact Heqm |].
  rewrite Hrun.
  destruct (decide (start < numel t ∧ start + partition_size ≤ numel t))
    as [[_ He] | Hn].
  - rewrite (bind_ok _ _ _ _ _ Hmean). cbn [numel].
    rewrite bool_decide_true by reflexivity. reflexivity.
  - destruct (decide (start < numel t)) as [Hstart | Hstart]; [| reflexivity].
    assert (Hcut : numel t - start ≤ partition_size) by lia.
    rewrite (bind_ok _ _ _ _ _ Hmean).
    rewrite (bind_ok _ _ σ3 σ3
               (mkTensor (length (heap σ2)) 0 (numel t - start) 1)).
    2: { unfold Torch.narrow. cbn [numel offset storage dim].
         rewrite decide_True by lia. rewrite Nat.add_0_r. reflexivity. }
    destruct (decide (this_rank topo = world - 1)) as [Hlast | Hlast].
    + rewrite bool_decide_true by exact Hlast. reflexivity.
    + rewrite bool_decide_false by exact Hlast. reflexivity.
Qed.



(** X13: the truncation branch on a rank that is not the last one.
    Under the same conditions on the solver and the exchange, when this
    rank's window starts inside the data and ends past it, and the rank
    is not [world - 1], the call raises [AssertionError] (line 110). *)
Theorem window_past_data_is_refused
    (uninit : nat → nat → Q)
    (quantized_exchange : nat → topology → list Q → Z → Z → list Q)
    (peers : nat → list (list Q)) (topo : topology) (t : Tensor)
    (σ : process) (g : Z) :
  let world := global_world_size topo in
  let num_nodes := world `div` local_world_size topo in
  let aligned_size := aligned_size_of world (numel t) in
  let partition_size := chunk_sz world (numel t) in
  let start := partition_size * this_rank topo in
  let flat := contents (heap σ) t
              ++ (uninit (length (heap σ))
                    <$> seq (numel t) (aligned_size - numel t)) in
  let final_output :=
    quantized_exchange 0 topo flat g (g `div` Z.of_nat (local_world_size topo))%Z in
  0 < local_world_size topo → local_world_size topo ≤ world →
  wf_tensor (heap σ) t → dim t ≠ 1 →
  Solver.solve (Solver.fuel_for (Z.of_nat aligned_size))
    (Z.of_nat aligned_size) (Z.of_nat world) = Some g →
  (g < Z.of_nat (numel t))%Z →
  length final_output = num_nodes * partition_size →
  start < numel t < start + partition_size →
  this_rank topo ≠ world - 1 →
  all_to_all_quant_reduce uninit quantized_exchange peers topo [t] σ
  = Raise AssertionError.
Proof.
  intros world num_nodes aligned_size partition_size start flat final_output
    Hl Hlw Hwf Hd Hsolve Hg Hfinal [Hstart Hend] Hrank.
  destruct (quantized_single_run uninit quantized_exchange peers topo t σ g
              Hl Hlw Hwf Hd Hsolve Hg Hfinal)
    as (σ1 & mean & _ & _ & _ & Hrun).
  cbv zeta in Hrun. fold world partition_size start in Hrun.
  rewrite Hrun.
  rewrite decide_False by lia.
  rewrite decide_True by exact Hstart.
  rewrite decide_False by exact Hrank. reflexivity.
Qed.

Lemma window_past_data_is_refused_witness :
  all_to_all_quant_reduce (λ _ _, 0%Q) (λ _ _ flat _ _, take 3 flat) (λ _, [])
    (Topology 8 8 5) [mkTensor 0 0 17 2] (Process [replicate 17 1%Q] false)
  = Raise AssertionError.
Proof.
  apply (window_past_data_is_refused (λ _ _, 0%Q) (λ _ _ flat _ _, take 3 flat)
           (λ _, []) (Topology 8 8 5) (mkTensor 0 0 17 2)
           (Process [replicate 17 1%Q] false) 8%Z).
  - simpl. lia.
  - simpl. lia.
  - eexists. split; [reflexivity | simpl; lia].
  - simpl. lia.
  - vm_compute. reflexivity.
  - simpl. lia.
  - vm_compute. reflexivity.
  - vm_compute. lia.
  - simpl. lia.
Defined.

(** X14: a rank whose window starts at or after the end of the data gets
    no output: the call returns [[None]], whatever the exchange returns,
    and leaves the input tensor as it was. *)
Theorem window_outside_data_gives_none
    (uninit : nat → nat → Q)
    (quantized_exchange : nat → topology → list Q → Z → Z → list Q)
    (peers : nat → list (list Q)) (topo : topology) (t : Tensor)
    (σ : process) (g : Z) :
  let world := global_world_size topo in
  let aligned_size := aligned_size_of world (numel t) in
  let partition_size := chunk_sz world (numel t) in
  let start := partition_size * this_rank topo in
  0 < local_world_size topo → 0 < world →
  wf_tensor (heap σ) t → dim t ≠ 1 →
  Solver.solve (Solver.fuel_for (Z.of_nat aligned_size))
    (Z.of_nat aligned_size) (Z.of_nat world) = Some g →
  (g < Z.of_nat (numel t))%Z →
  numel t ≤ start →
  ∃ σ',
    all_to_all_quant_reduce uninit quantized_exchange peers topo [t] σ
      = Ok ([None], σ')
    ∧ contents (heap σ') t = contents (heap σ) t.
Proof.
  intros world aligned_size partition_size start
    Hl Hw Hwf Hd Hsolve Hg Hstart.
  destruct (quantized_single_prefix uninit quantized_exchange peers topo t σ g
              Hl Hw Hwf Hd Hsolve Hg) as (σ1 & Hpre & Hrun).
  cbv zeta in Hrun. fold world partition_size start in Hrun.
  rewrite !decide_False in Hrun by lia.
  eexists. split; [exact Hrun |].
  apply contents_prefix; [| apply wf_tensor_valid; exact Hwf].
  rewrite heap_set_heap. apply prefix_app_r. exact Hpre.
Qed.

Lemma window_outside_data_gives_none_witness :
  ∃ σ',
    all_to_all_quant_reduce (λ _ _, 0%Q) (λ _ _ flat _ _, flat) (λ _, [])
      (Topology 8 8 6) [mkTensor 0 0 17 2] (Process [replicate 17 1%Q] false)
      = Ok ([None], σ')
    ∧ contents (heap σ') (mkTensor 0 0 17 2)
      = contents [replicate 17 1%Q] (mkTensor 0 0 17 2).
Proof.
  apply (window_outside_data_gives_none (λ _ _, 0%Q) (λ _ _ flat _ _, flat)
           (λ _, []) (Topology 8 8 6) (mkTensor 0 0 17 2)
           (Process [replicate 17 1%Q] false) 8%Z).
  - simpl. lia.
  - simpl. lia.
  - eexists. split; [reflexivity | simpl; lia].
  - simpl. lia.
  - vm_compute. reflexivity.
  - simpl. lia.
  - vm_compute. lia.
Defined.

(** X15: the alignment step (lines 54-58).  For a valid tensor and a
    positive world size the aligned buffer has
    [world * ceil(numel / world)] elements, the least multiple of the world
    size that is not below [numel]; it starts with the elements of the
    tensor; the tensor itself is not changed, and exactly one storage is
    allocated. *)
Theorem aligned_buffer_is_least_multiple (uninit : nat → nat → Q)
    (world : nat) (t : Tensor) (σ : process) :
  0 < world → wf_tensor (heap σ) t →
  ∃ flat_tensor σ',
    align uninit t world σ = Ok (flat_tensor, σ')
    ∧ numel flat_tensor = world * chunk_sz world (numel t)
    ∧ (∀ m, numel t ≤ m → m `mod` world = 0 → numel flat_tensor ≤ m)
    ∧ take (numel t) (contents (heap σ') flat_tensor) = contents (heap σ) t
    ∧ contents (heap σ') t = contents (heap σ) t
    ∧ length (heap σ') = S (length (heap σ)).
Proof.
  intros Hw Hwf.
  destruct (align_ok uninit world t σ Hw Hwf)
    as (flat_tensor & σ' & Halign & Hnum & Hcont & Htake & Hlen & _).
  change (numel t + _) with (aligned_size_of world (numel t)) in Hnum.
  destruct (aligned_size_of_spec world (numel t) Hw)
    as (Hal & Hbounds & _ & _).
  exists flat_tensor, σ'. split; [exact Halign |].
  split; [congruence |]. split; [| split; [| split]].
  - intros m Hm Hmod. rewrite Hnum, Hal.
    apply Nat.Div0.div_exact in Hmod.
    set (c := chunk_sz world (numel t)) in *.
    set (q := m `div` world) in *.
    destruct (Nat.le_gt_cases c q) as [Hcq | Hcq]; [nia |].
    exfalso. assert (world * q + world ≤ world * c) by nia. lia.
  - rewrite Hcont. rewrite take_app_length'; [reflexivity |].
    symmetry. apply length_contents. exact Hwf.
  - apply contents_prefix; [| apply wf_tensor_valid; exact Hwf].
    exists (drop (length (heap σ)) (heap σ')).
    rewrite <- Htake at 1. symmetry. apply take_drop.
  - exact Hlen.
Qed.

Lemma aligned_buffer_is_least_multiple_witness :
  ∃ flat_tensor σ',
    align (λ _ _, 0%Q) (mkTensor 0 0 17 2) 8 (Process [replicate 17 1%Q] false)
      = Ok (flat_tensor, σ')
    ∧ numel flat_tensor = 8 * chunk_sz 8 17
    ∧ (∀ m, 17 ≤ m → m `mod` 8 = 0 → numel flat_tensor ≤ m)
    ∧ take 17 (contents (heap σ') flat_tensor)
      = contents [replicate 17 1%Q] (mkTensor 0 0 17 2)
    ∧ contents (heap σ') (mkTensor 0 0 17 2)
      = contents [replicate 17 1%Q] (mkTensor 0 0 17 2)
    ∧ length (heap σ') = 2.
Proof.
  apply (aligned_buffer_is_least_multiple (λ _ _, 0%Q) 8 (mkTensor 0 0 17 2)
           (Process [replicate 17 1%Q] false)).
  - lia.
  - eexists. split; [reflexivity | simpl; lia].
Defined.

(** X16: a one-dimensional tensor goes through
    [reduce_scatter_coalesced] and is not quantized: when the ranks of
    the group hand their buffers to that collective, the one output of
    [all_to_all_quant_reduce] is the elementwise sum, over the ranks, of
    their partitions for this rank, every element divided by the world
    size before the sum, whatever the quantized exchange would return.
    The rank reaches the collective in state [loaded σ]. *)
Theorem one_dimensional_tensor_is_not_quantized
    (uninits : nat → nat → nat → Q)
    (quantized_exchange : nat → topology → list Q → Z → Z → list Q)
    (peers : nat → list (list Q))
    (ranks : list (process * list Tensor))
    (topo : topology) (t : Tensor) (σ : process) :
  dim t = 1 → 0 < local_world_size topo →
  global_world_size topo = length ranks →
  ranks !! this_rank topo = Some (loaded σ, [t]) →
  (∀ r σr tr, ranks !! r = Some (σr, tr) →
     Forall (wf_tensor (heap σr)) tr ∧ numel <$> tr = [numel t]) →
  peers 0 = collective_inputs uninits ranks →
  ∃ out σ',
    all_to_all_quant_reduce (uninits (this_rank topo)) quantized_exchange peers
      topo [t] σ = Ok ([Some out], σ')
    ∧ contents (heap σ') out
      = Dist.vsum (partition_length (length ranks) (numel t) (this_rank topo))
          ((λ p, div_by (length ranks)
                   <$> partition_of (length ranks) (this_rank topo)
                         (input_of p 0))
             <$> ranks).
Proof.
  intros Hd Hl Hworld Hself Hagree Hpeers.
  assert (Hpos : 0 < length ranks).
  { apply lookup_lt_Some in Hself. lia. }
  assert (Hne : [t] ≠ []) by discriminate.
  destruct (group_outputs uninits ranks [t] Hagree Hne Hpos (this_rank topo)
              (loaded σ) Hself) as (outs & σ' & Hrun & _ & Houts).
  destruct (Houts 0 t eq_refl) as (out & Hout & Hcont).
  exists out, σ'. split; [| exact Hcont].
  unfold all_to_all_quant_reduce.
  rewrite (bind_ok _ _ σ σ' ([Some out], [])); [reflexivity |].
  rewrite traced_call_unfold by lia.
  cbn [length replicate reduce_each].
  unfold bind at 1. unfold bind at 1.
  unfold reduce_one. rewrite decide_True by exact Hd.
  rewrite Hworld, Hpeers.
  rewrite (bind_ok _ _ _ _ _ Hrun).
  rewrite (bind_ok _ _ σ' σ' out) by (unfold index; rewrite Hout; reflexivity).
  reflexivity.
Qed.

Lemma one_dimensional_tensor_is_not_quantized_witness :
  let uninits := λ _ _ _ : nat, 0%Q in
  let σ := Process [inject_Z <$> [1; 2; 3]%Z] false in
  let ranks := [(Process [inject_Z <$> [0; 5; 6; 7]%Z] true, [mkTensor 0 1 3 1]);
                (loaded σ, [mkTensor 0 0 3 1])] in
  ∃ out σ',
    all_to_all_quant_reduce (uninits 1) (λ _ _ flat _ _, flat)
      (λ _, collective_inputs uninits ranks)
      (Topology 2 2 1) [mkTensor 0 0 3 1] σ = Ok ([Some out], σ')
    ∧ contents (heap σ') out
      = Dist.vsum (partition_length 2 3 1)
          ((λ p, div_by 2 <$> partition_of 2 1 (input_of p 0)) <$> ranks).
Proof.
  intros uninits σ ranks.
  apply (one_dimensional_tensor_is_not_quantized uninits
           (λ _ _ flat _ _, flat) (λ _, collective_inputs uninits ranks)
           ranks (Topology 2 2 1) (mkTensor 0 0 3 1) σ).
  - reflexivity.
  - simpl. lia.
  - reflexivity.
  - reflexivity.
  - intros [| [| r]] σr tr Hr; simpl in Hr; [| | discriminate];
      injection Hr as <- <-;
      (split; [| reflexivity]);
      apply Forall_singleton; eexists; (split; [reflexivity | simpl; lia]).
  - reflexivity.
Defined.

(** X17: no output depends on the uninitialised padding: with two
    different allocators (two contents of fresh memory on every rank),
    each rank gets the same values for each tensor. *)
Theorem outputs_do_not_depend_on_padding
    (uninits1 uninits2 : nat → nat → nat → Q)
    (ranks : list (process * list Tensor)) (tensors : list Tensor)
    (r i : nat) (t : Tensor) :
  tensors ≠ [] →
  (∀ r σr tr, ranks !! r = Some (σr, tr) →
     Forall (wf_tensor (heap σr)) tr ∧ numel <$> tr = numel <$> tensors) →
  r < length ranks → tensors !! i = Some t →
  Forall2 Qeq (output_of uninits1 ranks r i) (output_of uninits2 ranks r i).
Proof.
  intros Hne Hagree Hr Ht.
  rewrite (output_of_sum uninits1 ranks tensors Hagree Hne r i t Hr Ht).
  rewrite (output_of_sum uninits2 ranks tensors Hagree Hne r i t Hr Ht).
  reflexivity.
Qed.

Lemma outputs_do_not_depend_on_padding_witness :
  let ranks := [(Process [inject_Z <$> [1; 2; 3]%Z] false, [mkTensor 0 0 3 1]);
                (Process [inject_Z <$> [0; 5; 6; 7]%Z] false, [mkTensor 0 1 3 1])] in
  Forall2 Qeq (output_of (λ _ _ _, 0%Q) ranks 1 0)
              (output_of (λ _ _ _, 1%Q) ranks 1 0).
Proof.
  intros ranks.
  apply (outputs_do_not_depend_on_padding (λ _ _ _, 0%Q) (λ _ _ _, 1%Q) ranks
           [mkTensor 0 0 3 1] 1 0 (mkTensor 0 0 3 1)).
  - discriminate.
  - intros [| [| r]] σr tr Hr; simpl in Hr; [| | discriminate];
      injection Hr as <- <-;
      (split; [| reflexivity]);
      apply Forall_singleton; eexists; (split; [reflexivity | simpl; lia]).
  - simpl. lia.
  - reflexivity.
Defined.
